(** * coloco.inference: return-type inference over Python syntax trees

    A shallow embedding of [src/coloco/inference.py].  The Python program
    walks the [ast] of a function and builds [typing] objects; here the
    syntax trees are inductive types, the type objects are values of [ty],
    and the two effects the code has are explicit:

    - exceptions: a computation returns [Ok] or [Raise];
    - allocation of classes: [TypedDict(name, fields)] creates a new class
      object on every call and classes compare by identity, so the
      computations thread a counter that numbers the classes created.

    What the library calls of the code do is taken from CPython 3.9 to
    3.13: [ast.walk] is breadth first; [typing.Union] and [|] flatten
    nested unions, drop members equal ([==]) to an earlier one and return
    a single member as it is; [==] compares classes by identity, generic
    aliases by origin and arguments, unions as sets.  The order in which
    Python iterates over a [set] is not specified; [py_set] lists the
    distinct elements in order of first occurrence, and [ty_eqb] does not
    depend on the order of the members of a union.

    A function object is a value of [func]: [fill_inferred_type_hints]
    returns the object after the call.  [get_return_type] and
    [_get_module_type] call each other without a bound in the code; the
    depth of these calls is bounded here by a parameter, as it is in Python
    by the recursion limit, and exhausting it raises [RecursionError].
    Strings are ASCII strings. *)

From Stdlib Require Import ZArith String Ascii List Bool Lia Permutation.
From stdpp Require Import gmap strings list.
Import ListNotations.

Local Open Scope string_scope.
Local Open Scope list_scope.

Set Warnings "-register-all".

(** ** Python string methods used by the naming helpers *)

Module PyStr.

Definition is_upper (c : ascii) : bool :=
  let n := nat_of_ascii c in Nat.leb 65 n && Nat.leb n 90.

Definition is_lower (c : ascii) : bool :=
  let n := nat_of_ascii c in Nat.leb 97 n && Nat.leb n 122.

Definition is_digit (c : ascii) : bool :=
  let n := nat_of_ascii c in Nat.leb 48 n && Nat.leb n 57.

(** [c.isalnum()] *)
Definition isalnum (c : ascii) : bool := is_upper c || is_lower c || is_digit c.

Definition upper (c : ascii) : ascii :=
  if is_lower c then ascii_of_nat (nat_of_ascii c - 32) else c.

Definition lower (c : ascii) : ascii :=
  if is_upper c then ascii_of_nat (nat_of_ascii c + 32) else c.

Fixpoint map_chars (f : ascii -> ascii) (s : string) : string :=
  match s with
  | EmptyString => EmptyString
  | String c r => String (f c) (map_chars f r)
  end.

(** [s.capitalize()]: first character upper-cased, the rest lower-cased. *)
Definition capitalize (s : string) : string :=
  match s with
  | EmptyString => EmptyString
  | String c r => String (upper c) (map_chars lower r)
  end.

(** [s.split("_")]: never empty, [""] splits to [[""]]. *)
Fixpoint split_underscore (s : string) : list string :=
  match s with
  | EmptyString => [EmptyString]
  | String c r =>
      if Ascii.eqb c "_"%char then EmptyString :: split_underscore r
      else match split_underscore r with
           | w :: ws => String c w :: ws
           | [] => [String c EmptyString]
           end
  end.

(** ["".join(words)] *)
Definition join (words : list string) : string :=
  fold_right String.append EmptyString words.

(** ["".join(c if keep(c) else "" for c in s)] *)
Fixpoint keep_chars (keep : ascii -> bool) (s : string) : string :=
  match s with
  | EmptyString => EmptyString
  | String c r =>
      if keep c then String c (keep_chars keep r) else keep_chars keep r
  end.

End PyStr.

(** [_snake_case_to_capital_case] *)
Definition _snake_case_to_capital_case (name : string) : string :=
  PyStr.join (map PyStr.capitalize (PyStr.split_underscore name)).

(** ** Exceptions and the computation monad *)

Inductive exn : Type :=
| TypeError
| ValueError
| IndexError
| AttributeError
| SyntaxError
| RecursionError.

Inductive result (A : Type) : Type :=
| Ok (a : A)
| Raise (e : exn).

Arguments Ok {A} a.
Arguments Raise {A} e.

(** A computation reads the number of classes created so far and returns a
    value with the new count, or raises. *)
Definition M (A : Type) : Type := nat -> result (A * nat).

Definition ret {A} (a : A) : M A := fun s => Ok (a, s).

Definition raise {A} (e : exn) : M A := fun _ => Raise e.

Definition bind {A B} (m : M A) (k : A -> M B) : M B :=
  fun s => match m s with
           | Ok (a, s') => k a s'
           | Raise e => Raise e
           end.

Notation "'let*' x ':=' c 'in' k" := (bind c (fun x => k))
  (at level 10, x pattern, c at level 100, k at level 200).

(** [[f(x) for x in l]] with effects, left to right. *)
Definition mapM {A B} (f : A -> M B) : list A -> M (list B) :=
  fix go l :=
    match l with
    | [] => ret []
    | x :: l' => let* y := f x in let* ys := go l' in ret (y :: ys)
    end.

(** ** Type objects *)

(** The values the inference returns: classes, [typing] special forms and
    generic aliases.  [TClass] is a class named by its (qualified) name,
    [TTypedDict] a class made by [TypedDict(name, fields)] and numbered by
    its creation, [TObj] any other Python object (a builtin function, a
    string annotation). *)
Inductive ty : Type :=
| TAny
| TClass (name : string)
| TObj (name : string)
| TBareDict
| TBareTuple
| TBareUnion
| TList (elem : ty)
| TSet (elem : ty)
| TDict (key value : ty)
| TTuple (elems : list ty)
| TUnion (members : list ty)
| TTypedDict (id : nat) (name : string) (fields : list (string * ty)).

Definition py_int : ty := TClass "int".
Definition py_str : ty := TClass "str".
Definition py_float : ty := TClass "float".
Definition py_bool : ty := TClass "bool".
Definition py_NoneType : ty := TClass "NoneType".

(** [isinstance(t, type)] *)
Definition is_class (t : ty) : bool :=
  match t with
  | TClass _ | TTypedDict _ _ _ => true
  | _ => false
  end.

(** [a == b] on type objects: classes by identity, generic aliases by
    origin and arguments, unions as sets of members. *)
Fixpoint ty_eqb (a b : ty) {struct a} : bool :=
  match a, b with
  | TAny, TAny => true
  | TClass n, TClass m => String.eqb n m
  | TObj n, TObj m => String.eqb n m
  | TBareDict, TBareDict => true
  | TBareTuple, TBareTuple => true
  | TBareUnion, TBareUnion => true
  | TList x, TList y => ty_eqb x y
  | TSet x, TSet y => ty_eqb x y
  | TDict k v, TDict k' v' => ty_eqb k k' && ty_eqb v v'
  | TTuple xs, TTuple ys =>
      (fix go (xs ys : list ty) {struct xs} : bool :=
         match xs, ys with
         | [], [] => true
         | x :: xs', y :: ys' => ty_eqb x y && go xs' ys'
         | _, _ => false
         end) xs ys
  | TUnion xs, TUnion ys =>
      forallb (fun x => existsb (fun y => ty_eqb x y) ys) xs
      && forallb (fun y => existsb (fun x => ty_eqb x y) xs) ys
  | TTypedDict i _ _, TTypedDict j _ _ => Nat.eqb i j
  | _, _ => false
  end.

(** [x in seen] *)
Definition ty_mem (x : ty) (seen : list ty) : bool :=
  existsb (fun y => ty_eqb y x) seen.

(** [set(types)], listed in order of first occurrence. *)
Fixpoint py_set_from (seen : list ty) (l : list ty) : list ty :=
  match l with
  | [] => []
  | x :: l' =>
      if ty_mem x seen then py_set_from seen l'
      else x :: py_set_from (seen ++ [x]) l'
  end.

Definition py_set (l : list ty) : list ty := py_set_from [] l.

(** The members [typing.Union] sees in a parameter: a union parameter is
    replaced by its members. *)
Definition union_args (t : ty) : list ty :=
  match t with
  | TUnion ms => ms
  | _ => [t]
  end.

(** The bare [Union] form, which [typing] refuses as a type argument. *)
Definition is_bare_union (t : ty) : bool :=
  match t with
  | TBareUnion => true
  | _ => false
  end.

(** [Union[tuple(params)]]: no parameters, or the bare [Union] form as a
    parameter, is a [TypeError]; nested unions are flattened, duplicates
    removed, and one remaining member is returned as it is. *)
Definition mk_union (params : list ty) : M ty :=
  match params with
  | [] => raise TypeError
  | _ =>
      if existsb is_bare_union params then raise TypeError
      else
        match py_set (flat_map union_args params) with
        | [] => raise TypeError
        | [t] => ret t
        | ms => ret (TUnion ms)
        end
  end.

Arguments mk_union : simpl never.

(** Operands [|] accepts: a plain object that is not a type, and the bare
    [Union] form, are refused. *)
Definition unionable (t : ty) : bool :=
  match t with
  | TObj _ | TBareUnion => false
  | _ => true
  end.

(** [a | b] *)
Definition union_or (a b : ty) : M ty :=
  if unionable a && unionable b then mk_union [a; b] else raise TypeError.

(** ** Syntax trees *)

(** [ast.Constant.value] *)
Inductive constant : Type :=
| CInt (n : Z)
| CStr (s : string)
| CFloat (repr : string)
| CBool (b : bool)
| CNone
| CBytes (s : string)
| CEllipsis.

(** [type(node.value)] *)
Definition type_of_constant (c : constant) : ty :=
  match c with
  | CInt _ => py_int
  | CStr _ => py_str
  | CFloat _ => py_float
  | CBool _ => py_bool
  | CNone => py_NoneType
  | CBytes _ => TClass "bytes"
  | CEllipsis => TClass "ellipsis"
  end.

Inductive operator : Type :=
| Add | Sub | Mult | Div | FloorDiv | Mod | Pow.

(** Expression nodes.  A [Dict] node holds its [keys] and [values] as one
    list of pairs (the parser gives both lists the same length); the key of
    a [**mapping] entry is [None]. *)
Inductive expr : Type :=
| Dict (items : list (option expr * expr))
| List (elts : list expr)
| Tuple (elts : list expr)
| Set_ (elts : list expr)
| Constant (value : constant)
| Name (id : string)
| Call (func : expr) (args : list expr)
| BinOp (lhs : expr) (op : operator) (rhs : expr)
| Compare (lhs : expr) (comparators : list expr)
| IfExp (test body orelse : expr)
| Subscript (value slice : expr)
| Attribute (value : expr) (attr : string)
| Lambda (body : expr).

(** [ast.arg] *)
Record arg : Type := { arg_name : string; annotation : option expr }.

(** Statement nodes.  [FunctionDef] stands for [ast.FunctionDef] and
    [ast.AsyncFunctionDef], and [For] and [With] for their [async] forms
    too: the classes of a pair have the same fields and the code treats
    them alike.  [ExceptHandler] is the node the walk meets between a
    [Try] and the body of one of its handlers. *)
Inductive stmt : Type :=
| FunctionDef (name : string) (args : list arg) (body : list stmt)
    (returns : option expr)
| ClassDef (name : string) (body : list stmt)
| Return (value : option expr)
| Assign (targets : list expr) (value : expr)
| AugAssign (target : expr) (op : operator) (value : expr)
| AnnAssign (target : expr) (ann : expr) (value : option expr)
| If (test : expr) (body orelse : list stmt)
| While (test : expr) (body orelse : list stmt)
| For (target iter : expr) (body orelse : list stmt)
| With (items : list expr) (body : list stmt)
| Try (body handlers orelse finalbody : list stmt)
| ExceptHandler (body : list stmt)
| Expr (value : expr)
| Pass.

(** The statements among [ast.iter_child_nodes(node)], in field order. *)
Definition child_stmts (node : stmt) : list stmt :=
  match node with
  | FunctionDef _ _ body _ | ClassDef _ body | With _ body
  | ExceptHandler body => body
  | If _ body orelse | While _ body orelse | For _ _ body orelse =>
      body ++ orelse
  | Try body handlers orelse finalbody =>
      body ++ handlers ++ orelse ++ finalbody
  | _ => []
  end.

Fixpoint stmt_size (node : stmt) : nat :=
  let sizes := fix sizes (l : list stmt) : nat :=
    match l with
    | [] => 0
    | s :: l' => stmt_size s + sizes l'
    end in
  match node with
  | FunctionDef _ _ body _ | ClassDef _ body | With _ body
  | ExceptHandler body => S (sizes body)
  | If _ body orelse | While _ body orelse | For _ _ body orelse =>
      S (sizes body + sizes orelse)
  | Try body handlers orelse finalbody =>
      S (sizes body + (sizes handlers + (sizes orelse + sizes finalbody)))
  | _ => 1
  end.

(** The loop of [ast.walk]: pop the first node of the queue, append its
    children at the end, yield it.  Only statement nodes are kept: the
    callers look at nothing else, and an expression has no statement
    below it. *)
Fixpoint walk_queue (fuel : nat) (todo : list stmt) : list stmt :=
  match fuel, todo with
  | S fuel', node :: rest => node :: walk_queue fuel' (rest ++ child_stmts node)
  | _, _ => []
  end.

(** [ast.walk(node)]: breadth first. *)
Definition ast_walk (node : stmt) : list stmt :=
  walk_queue (stmt_size node) [node].

(** ** Functions and their environment *)

(** What [inspect.getsource(func)] and [ast.parse] give for a function. *)
Inductive source : Type :=
| NoSource                       (* inspect.getsource raises *)
| Unparsable                     (* ast.parse raises SyntaxError *)
| Parsed (body : list stmt).     (* ast.parse(source).body *)

(** A callable: [__name__], [__module__], [__annotations__] (some callables
    have none) and its source. *)
Record func : Type := {
  __name__ : string;
  __module__ : string;
  __annotations__ : option (list (string * ty));
  getsource : source
}.

(** An attribute of a module: a class, another callable, anything else. *)
Inductive attr : Type :=
| AType (t : ty)
| ACallable (f : func)
| AOther.

(** [__builtins__] and the attributes of the modules in [sys.modules]. *)
Record world : Type := {
  __builtins__ : string -> option ty;
  module_attr : string -> string -> option attr
}.

(** ** Dicts that keep insertion order *)

(** [d[k] = v]: an existing key keeps its position. *)
Fixpoint dict_set (d : list (string * ty)) (k : string) (v : ty)
  : list (string * ty) :=
  match d with
  | [] => [(k, v)]
  | (k', v') :: d' =>
      if String.eqb k' k then (k, v) :: d' else (k', v') :: dict_set d' k v
  end.

Fixpoint dict_get (d : list (string * ty)) (k : string) : option ty :=
  match d with
  | [] => None
  | (k', v) :: d' => if String.eqb k' k then Some v else dict_get d' k
  end.

(** A component of [nested_path]: the code appends key strings in the
    record branch and the key node itself in the mapping branch. *)
Inductive path_component : Type :=
| PStr (s : string)
| PNode (key : option expr).

(** [_sanitize_name]: iterating over a node is a [TypeError]. *)
Definition _sanitize_name (name : path_component) : M string :=
  match name with
  | PStr s => ret (PyStr.keep_chars PyStr.isalnum s)
  | PNode _ => raise TypeError
  end.

(** ** Expression inference and record synthesis *)

(** [len(set(types)) == 1] *)
Definition one_type (types : list ty) : bool :=
  Nat.eqb (length (py_set types)) 1.

(** [types[0]] *)
Definition first_type (types : list ty) : M ty :=
  match types with
  | t :: _ => ret t
  | [] => raise IndexError
  end.

(** [Union[tuple(set(types))]] *)
Definition union_of_set (types : list ty) : M ty := mk_union (py_set types).

Definition is_str_key (key : option expr) : option string :=
  match key with
  | Some (Constant (CStr s)) => Some s
  | _ => None
  end.

Section Synthesis.

(** The function under analysis and its module lookup
    [_get_module_type(func, ·)]. *)
Variable W : world.
Variable fn : func.
Variable get_module_type : string -> M ty.

Section Record_synthesis.

(** [_infer_expr_type], which the synthesizer calls back. *)
Variable infer : expr -> gmap string ty -> list path_component -> M ty.

(** An absent key ([None]) takes the final [return Any]. *)
Definition infer_key (key : option expr) (symbol_table : gmap string ty)
    (nested_path : list path_component) : M ty :=
  match key with
  | Some e => infer e symbol_table nested_path
  | None => ret TAny
  end.

(** The first loop: fields up to the first key that is not a string
    constant, and [is_valid_typeddict]. *)
Fixpoint collect_fields (items : list (option expr * expr))
    (symbol_table : gmap string ty) (nested_path : list path_component)
    (field_types : list (string * ty)) : M (list (string * ty) * bool) :=
  match items with
  | [] => ret (field_types, true)
  | (key, value) :: rest =>
      match is_str_key key with
      | Some k =>
          let* value_type :=
            infer value symbol_table (nested_path ++ [PStr k]) in
          collect_fields rest symbol_table nested_path
            (dict_set field_types k value_type)
      | None => ret (field_types, false)
      end
  end.

(** The loop that appends the path components to the class name. *)
Fixpoint add_components (class_name : string)
    (nested_path : list path_component) : M string :=
  match nested_path with
  | [] => ret class_name
  | component :: rest =>
      let* s := _sanitize_name component in
      add_components (class_name +:+ _snake_case_to_capital_case s) rest
  end.

(** [TypedDict(class_name, field_types)]: a new class; the bare [Union]
    form as a field type is a [TypeError]. *)
Definition TypedDict (class_name : string)
    (field_types : list (string * ty)) : M ty :=
  if existsb (fun field => is_bare_union (snd field)) field_types
  then raise TypeError
  else fun n => Ok (TTypedDict n class_name field_types, S n).

Definition create_typed_dict (items : list (option expr * expr))
    (symbol_table : gmap string ty) (nested_path : list path_component)
    : M ty :=
  let* (field_types, is_valid_typeddict) :=
    collect_fields items symbol_table nested_path [] in
  if is_valid_typeddict && negb (Nat.eqb (length field_types) 0) then
    let* class_name :=
      add_components
        (_snake_case_to_capital_case (__name__ fn) +:+ "Return")
        nested_path in
    TypedDict class_name field_types
  else
    match items with
    | _ :: _ =>
        let* key_types :=
          mapM (fun item =>
                  infer_key (fst item) symbol_table
                    (nested_path ++ [PNode (fst item)])) items in
        let* value_types :=
          mapM (fun item => infer (snd item) symbol_table nested_path)
            items in
        if one_type key_types && one_type value_types then
          let* k := first_type key_types in
          let* v := first_type value_types in
          ret (TDict k v)
        else if one_type key_types then
          let* k := first_type key_types in
          let* v := union_of_set value_types in
          ret (TDict k v)
        else if one_type value_types then
          let* k := union_of_set key_types in
          let* v := first_type value_types in
          ret (TDict k v)
        else
          let* k := union_of_set key_types in
          let* v := union_of_set value_types in
          ret (TDict k v)
    | [] => ret (TDict TAny TAny)
    end.

End Record_synthesis.

Definition is_arith (op : operator) : bool :=
  match op with
  | Add | Sub | Mult | Div => true
  | _ => false
  end.

Definition is_add (op : operator) : bool :=
  match op with
  | Add => true
  | _ => false
  end.

Fixpoint _infer_expr_type (node : expr) (symbol_table : gmap string ty)
    (nested_path : list path_component) {struct node} : M ty :=
  match node with
  | Dict items =>
      create_typed_dict _infer_expr_type items symbol_table nested_path
  | List elts =>
      match elts with
      | [] => ret (TList TAny)
      | _ =>
          let* element_types :=
            mapM (fun elt => _infer_expr_type elt symbol_table nested_path)
              elts in
          if one_type element_types then
            let* t := first_type element_types in ret (TList t)
          else
            let* u := union_of_set element_types in ret (TList u)
      end
  | Tuple elts =>
      match elts with
      | [] => ret (TTuple [])
      | _ =>
          let* element_types :=
            mapM (fun elt => _infer_expr_type elt symbol_table nested_path)
              elts in
          ret (TTuple element_types)
      end
  | Set_ elts =>
      match elts with
      | [] => ret (TSet TAny)
      | _ =>
          let* element_types :=
            mapM (fun elt => _infer_expr_type elt symbol_table nested_path)
              elts in
          if one_type element_types then
            let* t := first_type element_types in ret (TSet t)
          else
            let* u := union_of_set element_types in ret (TSet u)
      end
  | Constant value => ret (type_of_constant value)
  | Name id =>
      match symbol_table !! id with
      | Some t => ret t
      | None =>
          match __builtins__ W id with
          | Some t => if is_class t then ret t else get_module_type id
          | None => get_module_type id
          end
      end
  | Call (Name func_name) _ =>
      if String.eqb func_name "int" then ret py_int
      else if String.eqb func_name "str" then ret py_str
      else if String.eqb func_name "float" then ret py_float
      else if String.eqb func_name "list" then ret (TList TAny)
      else if String.eqb func_name "dict" then ret (TDict TAny TAny)
      else if String.eqb func_name "set" then ret (TSet TAny)
      else if String.eqb func_name "tuple" then ret TBareTuple
      else get_module_type func_name
  | Call _ _ => ret TAny
  | BinOp lhs op rhs =>
      let* left_type := _infer_expr_type lhs symbol_table nested_path in
      let* right_type := _infer_expr_type rhs symbol_table nested_path in
      if is_add op && (ty_eqb left_type py_str || ty_eqb right_type py_str)
      then ret py_str
      else if is_arith op then
        if ty_eqb left_type py_float || ty_eqb right_type py_float
        then ret py_float
        else ret py_int
      else ret TAny
  | Compare _ _ => ret py_bool
  | IfExp _ body orelse =>
      let* body_type := _infer_expr_type body symbol_table nested_path in
      let* orelse_type := _infer_expr_type orelse symbol_table nested_path in
      union_or body_type orelse_type
  | _ => ret TAny
  end.

(** [_create_typed_dict_from_dict] *)
Definition _create_typed_dict_from_dict (items : list (option expr * expr))
    (symbol_table : gmap string ty) (nested_path : list path_component)
    : M ty :=
  create_typed_dict _infer_expr_type items symbol_table nested_path.

End Synthesis.

(** ** Annotation resolution *)

Section Resolution.

Variable W : world.
Variable get_module_type : string -> M ty.

Definition is_base (base_type a b : string) : bool :=
  String.eqb base_type a || String.eqb base_type b.

Fixpoint _resolve_annotation (annotation : expr) {struct annotation} : M ty :=
  match annotation with
  | Name type_name =>
      match __builtins__ W type_name with
      | Some t => ret t
      | None => get_module_type type_name
      end
  | Subscript (Name base_type) slice =>
      if is_base base_type "List" "list" then
        let* elem_type := _resolve_annotation slice in ret (TList elem_type)
      else if is_base base_type "Dict" "dict" then
        match slice with
        | Tuple elts =>
            match elts with
            | [] => raise IndexError
            | k :: rest =>
                let* key_type := _resolve_annotation k in
                match rest with
                | [] => raise IndexError
                | v :: _ =>
                    let* val_type := _resolve_annotation v in
                    ret (TDict key_type val_type)
                end
            end
        | _ => ret TBareDict
        end
      else if is_base base_type "Set" "set" then
        let* elem_type := _resolve_annotation slice in ret (TSet elem_type)
      else if is_base base_type "Tuple" "tuple" then
        match slice with
        | Tuple elts =>
            let* elem_types := mapM _resolve_annotation elts in
            ret (TTuple elem_types)
        | _ => ret TBareTuple
        end
      else if String.eqb base_type "Optional" then
        let* elem_type := _resolve_annotation slice in
        mk_union [elem_type; py_NoneType]
      else if String.eqb base_type "Union" then
        match slice with
        | Tuple elts =>
            let* elem_types := mapM _resolve_annotation elts in
            mk_union elem_types
        | _ => ret TBareUnion
        end
      else ret TAny
  | _ => ret TAny
  end.

End Resolution.

(** ** The body analyser and the driver *)

(** [for x in l: acc = step(acc, x)] with effects. *)
Fixpoint foldM {A B} (step : A -> B -> M A) (l : list B) (acc : A) : M A :=
  match l with
  | [] => ret acc
  | x :: l' => let* acc' := step acc x in foldM step l' acc'
  end.

(** The end of [get_return_type]: one return type is returned as it is,
    several as their union, none gives [Any]. *)
Definition unify_return_types (return_types : list ty) : M ty :=
  match return_types with
  | [] => ret TAny
  | [t] => ret t
  | _ => union_of_set return_types
  end.

Section Analysis.

Variable W : world.
Variable fn : func.
Variable get_module_type : string -> M ty.

(** [symbol_table[target.id] = assigned_type] for each [Name] target. *)
Definition bind_targets (targets : list expr) (assigned_type : ty)
    (symbol_table : gmap string ty) : gmap string ty :=
  fold_left (fun st target =>
               match target with
               | Name id => <[id := assigned_type]> st
               | _ => st
               end) targets symbol_table.

(** The parameter loop. *)
Definition seed_parameter (symbol_table : gmap string ty) (a : arg)
    : M (gmap string ty) :=
  match annotation a with
  | Some ann =>
      let* t := _resolve_annotation W get_module_type ann in
      ret (<[arg_name a := t]> symbol_table)
  | None => ret symbol_table
  end.

(** One turn of the assignment loop. *)
Definition analyze_node (symbol_table : gmap string ty) (node : stmt)
    : M (gmap string ty) :=
  match node with
  | Assign targets value =>
      let* assigned_type :=
        _infer_expr_type W fn get_module_type value symbol_table [] in
      ret (bind_targets targets assigned_type symbol_table)
  | AnnAssign (Name id) ann _ =>
      let* t := _resolve_annotation W get_module_type ann in
      ret (<[id := t]> symbol_table)
  | _ => ret symbol_table
  end.

(** [_analyze_function_body]: the table it leaves behind. *)
Definition _analyze_function_body (func_def : stmt)
    (symbol_table : gmap string ty) : M (gmap string ty) :=
  match func_def with
  | FunctionDef _ args _ _ =>
      let* seeded := foldM seed_parameter args symbol_table in
      foldM analyze_node (ast_walk func_def) seeded
  | _ => raise AttributeError
  end.

(** One turn of the return loop. *)
Definition collect_return (symbol_table : gmap string ty)
    (return_types : list ty) (node : stmt) : M (list ty) :=
  match node with
  | Return (Some value) =>
      let* return_type :=
        _infer_expr_type W fn get_module_type value symbol_table [] in
      ret (return_types ++ [return_type])
  | _ => ret return_types
  end.

(** What the driver does with a parsed definition. *)
Definition infer_from_def (func_def : stmt) : M ty :=
  match func_def with
  | FunctionDef _ _ _ (Some ann) =>
      _resolve_annotation W get_module_type ann
  | FunctionDef _ _ _ None =>
      let* symbol_table := _analyze_function_body func_def ∅ in
      let* return_types :=
        foldM (collect_return symbol_table) (ast_walk func_def) [] in
      unify_return_types return_types
  | _ => raise ValueError
  end.

End Analysis.

(** [_get_module_type] *)
Definition _get_module_type (W : world) (get_return_type : func -> M ty)
    (fn : func) (name : string) : M ty :=
  match module_attr W (__module__ fn) name with
  | Some (AType t) => ret t
  | Some (ACallable g) => get_return_type g
  | _ => ret TAny
  end.

(** [func.__annotations__["return"]], when there is one. *)
Definition return_annotation (fn : func) : option ty :=
  match __annotations__ fn with
  | Some d => dict_get d "return"
  | None => None
  end.

(** [get_return_type].  The function and [_get_module_type] call each
    other; [depth] bounds how deep these calls nest, as the interpreter's
    recursion limit does, and running out of it is a [RecursionError]. *)
Fixpoint get_return_type (W : world) (depth : nat) (fn : func) {struct depth}
  : M ty :=
  match depth with
  | 0 => raise RecursionError
  | S depth' =>
      match return_annotation fn with
      | Some t => ret t
      | None =>
          match getsource fn with
          | NoSource => ret TAny
          | Unparsable => raise SyntaxError
          | Parsed [] => raise IndexError
          | Parsed (func_def :: _) =>
              infer_from_def W fn
                (_get_module_type W (get_return_type W depth') fn) func_def
          end
      end
  end.

Definition set_annotations (fn : func) (d : list (string * ty)) : func :=
  {| __name__ := __name__ fn; __module__ := __module__ fn;
     __annotations__ := Some d; getsource := getsource fn |}.

(** [func.__annotations__] after the first statement of
    [fill_inferred_type_hints]: a missing or empty dict is replaced by a new
    empty one. *)
Definition slot_dict (fn : func) : list (string * ty) :=
  match __annotations__ fn with
  | Some (item :: d) => item :: d
  | _ => []
  end.

(** [fill_inferred_type_hints]: the function object after the call. *)
Definition fill_inferred_type_hints (W : world) (depth : nat) (fn : func)
  : M func :=
  let d := slot_dict fn in
  let fn := set_annotations fn d in
  match dict_get d "return" with
  | Some _ => ret fn
  | None =>
      let* t := get_return_type W depth fn in
      ret (set_annotations fn (dict_set d "return" t))
  end.

(** ** A running environment for the examples *)

Module Examples.

(** A small [__builtins__]: some classes and the function [len]; no
    module has attributes. *)
Definition builtins0 (name : string) : option ty :=
  if String.eqb name "int" then Some py_int
  else if String.eqb name "str" then Some py_str
  else if String.eqb name "float" then Some py_float
  else if String.eqb name "bool" then Some py_bool
  else if String.eqb name "len" then Some (TObj "len")
  else None.

Definition W0 : world :=
  {| __builtins__ := builtins0; module_attr := fun _ _ => None |}.

(** [def name(): body], in module [m], with no annotations. *)
Definition def0 (name : string) (body : list stmt) : func :=
  {| __name__ := name; __module__ := "m"; __annotations__ := Some [];
     getsource := Parsed [FunctionDef name [] body None] |}.

Definition str_ (s : string) : expr := Constant (CStr s).
Definition int_ (n : Z) : expr := Constant (CInt n).

(** [{k1: v1, ...}] with string keys *)
Definition record_ (items : list (string * expr)) : expr :=
  Dict (map (fun kv => (Some (str_ (fst kv)), snd kv)) items).

End Examples.

(** * Notions the properties are stated with *)

(** ** Explicit annotations *)

(** A function carries an explicit return annotation, and [m] computes its
    resolved type: the value of the ["return"] entry of [__annotations__],
    or, without such an entry, the signature's annotation resolved with the
    function's module lookup. *)
Inductive explicit_return (W : world) (depth : nat) (fn : func)
  : M ty -> Prop :=
| runtime_annotation t :
    return_annotation fn = Some t ->
    explicit_return W depth fn (ret t)
| signature_annotation name args body ann rest :
    return_annotation fn = None ->
    getsource fn = Parsed (FunctionDef name args body (Some ann) :: rest) ->
    explicit_return W depth fn
      (_resolve_annotation W
         (_get_module_type W (get_return_type W depth) fn) ann).

(** The same function with another body in its definition. *)
Definition replace_body (fn : func) (body' : list stmt) : func :=
  {| __name__ := __name__ fn; __module__ := __module__ fn;
     __annotations__ := __annotations__ fn;
     getsource :=
       match getsource fn with
       | Parsed (FunctionDef name args _ returns :: rest) =>
           Parsed (FunctionDef name args body' returns :: rest)
       | src => src
       end |}.

(** ** Walks *)

(** The nodes of a list of trees. *)
Definition forest_size (l : list stmt) : nat :=
  fold_right (fun n acc => stmt_size n + acc) 0 l.

(** [n] is [root] or a statement below it, at any depth. *)
Inductive subnode (n : stmt) : stmt -> Prop :=
| subnode_self : subnode n n
| subnode_child c root :
    In c (child_stmts root) -> subnode n c -> subnode n root.

(** Source order: a statement, then the statements below it, first to
    last. *)
Fixpoint source_order (node : stmt) : list stmt :=
  let all := fix all (l : list stmt) : list stmt :=
    match l with
    | [] => []
    | s :: l' => source_order s ++ all l'
    end in
  node ::
  match node with
  | FunctionDef _ _ body _ | ClassDef _ body | With _ body
  | ExceptHandler body => all body
  | If _ body orelse | While _ body orelse | For _ _ body orelse =>
      all body ++ all orelse
  | Try body handlers orelse finalbody =>
      all body ++ all handlers ++ all orelse ++ all finalbody
  | _ => []
  end.

(** The single pass the specification describes: one traversal in source
    order in which an assignment updates the table and a return statement
    is inferred with the table as it is at that point. *)
Definition spec_single_pass_step (W : world) (fn : func)
    (lookup : string -> M ty) (acc : gmap string ty * list ty) (node : stmt)
  : M (gmap string ty * list ty) :=
  match node with
  | Return (Some value) =>
      let* t := _infer_expr_type W fn lookup value (fst acc) [] in
      ret (fst acc, snd acc ++ [t])
  | _ =>
      let* st := analyze_node W fn lookup (fst acc) node in
      ret (st, snd acc)
  end.

Definition spec_single_pass (W : world) (fn : func) (lookup : string -> M ty)
    (func_def : stmt) : M (list ty) :=
  match func_def with
  | FunctionDef _ args _ _ =>
      let* seeded := foldM (seed_parameter W lookup) args ∅ in
      let* acc :=
        foldM (spec_single_pass_step W fn lookup) (source_order func_def)
          (seeded, []) in
      ret (snd acc)
  | _ => raise AttributeError
  end.

(** ** Names of records *)

(** The record classes in a type: each with its position, the field names
    that lead to it from the outermost record. *)
Fixpoint records_in (pos : list string) (t : ty) : list (list string * string) :=
  match t with
  | TTypedDict _ name fields =>
      (pos, name) ::
      (fix in_fields (l : list (string * ty)) : list (list string * string) :=
         match l with
         | [] => []
         | (k, ft) :: l' => records_in (pos ++ [k]) ft ++ in_fields l'
         end) fields
  | _ => []
  end.

(** What C6 asks of an inferred type: records at different positions have
    different names. *)
Definition distinct_record_names (t : ty) : Prop :=
  forall p1 n1 p2 n2,
    In (p1, n1) (records_in [] t) -> In (p2, n2) (records_in [] t) ->
    p1 <> p2 -> n1 <> n2.

(** What the naming loop appends for a path of key strings. *)
Definition path_suffix (path : list string) : string :=
  PyStr.join
    (map (fun component =>
            _snake_case_to_capital_case
              (PyStr.keep_chars PyStr.isalnum component)) path).

(** ** Equal and well-formed types *)

(** No type of [l] equals an earlier one of [seen ++ l]. *)
Fixpoint distinct_from (seen l : list ty) : bool :=
  match l with
  | [] => true
  | x :: l' => negb (ty_mem x seen) && distinct_from (seen ++ [x]) l'
  end.

Definition is_union (t : ty) : bool :=
  match t with
  | TUnion _ => true
  | _ => false
  end.

(** A type [Union[...]] takes and gives back: not the bare [Union] form,
    and if a union, one as [typing] builds it, with two members or more,
    none equal to an earlier one, none a union itself. *)
Definition proper_union (t : ty) : bool :=
  match t with
  | TUnion ms =>
      Nat.leb 2 (length ms) && distinct_from [] ms
      && forallb (fun m => negb (is_union m)) ms
  | TBareUnion => false
  | _ => true
  end.

(** Equality of structure: as [ty_eqb], but two record classes are the
    same when their names and fields are, whichever class objects they
    are. *)
Fixpoint same_structure (a b : ty) {struct a} : bool :=
  match a, b with
  | TAny, TAny => true
  | TClass n, TClass m => String.eqb n m
  | TObj n, TObj m => String.eqb n m
  | TBareDict, TBareDict => true
  | TBareTuple, TBareTuple => true
  | TBareUnion, TBareUnion => true
  | TList x, TList y => same_structure x y
  | TSet x, TSet y => same_structure x y
  | TDict k v, TDict k' v' => same_structure k k' && same_structure v v'
  | TTuple xs, TTuple ys =>
      (fix go (xs ys : list ty) {struct xs} : bool :=
         match xs, ys with
         | [], [] => true
         | x :: xs', y :: ys' => same_structure x y && go xs' ys'
         | _, _ => false
         end) xs ys
  | TUnion xs, TUnion ys =>
      forallb (fun x => existsb (fun y => same_structure x y) ys) xs
      && forallb (fun y => existsb (fun x => same_structure x y) xs) ys
  | TTypedDict _ n fs, TTypedDict _ m gs =>
      String.eqb n m &&
      (fix go (fs gs : list (string * ty)) {struct fs} : bool :=
         match fs, gs with
         | [], [] => true
         | (k, x) :: fs', (k', y) :: gs' =>
             String.eqb k k' && same_structure x y && go fs' gs'
         | _, _ => false
         end) fs gs
  | _, _ => false
  end.

(** A union occurs in a type. *)
Fixpoint mentions_union (t : ty) : bool :=
  match t with
  | TUnion _ | TBareUnion => true
  | TList x | TSet x => mentions_union x
  | TDict k v => mentions_union k || mentions_union v
  | TTuple ts => existsb mentions_union ts
  | TTypedDict _ _ fs => existsb (fun f => mentions_union (snd f)) fs
  | _ => false
  end.

(** A type as the [typing] module builds it: every union in it, at any
    depth, has two members or more, none equal to an earlier one and none
    a union itself. *)
Fixpoint wf_ty (t : ty) : bool :=
  match t with
  | TUnion ms =>
      Nat.leb 2 (length ms) && distinct_from [] ms
      && forallb (fun m => negb (is_union m) && wf_ty m) ms
  | TList x | TSet x => wf_ty x
  | TDict k v => wf_ty k && wf_ty v
  | TTuple ts => forallb wf_ty ts
  | TTypedDict _ _ fs => forallb (fun f => wf_ty (snd f)) fs
  | _ => true
  end.

(** The types a function object, a symbol table and the environment hold
    are well formed. *)
Definition func_wf (fn : func) : Prop :=
  forall t, return_annotation fn = Some t -> wf_ty t = true.

Definition table_wf (st : gmap string ty) : Prop :=
  forall x t, st !! x = Some t -> wf_ty t = true.

Definition world_wf (W : world) : Prop :=
  (forall name t, __builtins__ W name = Some t -> wf_ty t = true) /\
  (forall m name t, module_attr W m name = Some (AType t) -> wf_ty t = true) /\
  (forall m name g, module_attr W m name = Some (ACallable g) -> func_wf g).

(** What the lookup returns is well formed. *)
Definition lookup_wf (lookup : string -> M ty) : Prop :=
  forall name s t s', lookup name s = Ok (t, s') -> wf_ty t = true.

(** ** Literals *)

(** What C5 asks of a kind of literal: some container form gives the type
    of every non-empty literal whose elements all have the type [t] as the
    container of [t]. *)
Definition homogeneous_container_law (W : world) (fn : func)
    (literal : list expr -> expr) : Prop :=
  exists container : ty -> ty,
    forall elts t,
      elts <> [] ->
      (forall e, In e elts ->
         _infer_expr_type W fn (fun _ => ret TAny) e ∅ [] 0 = Ok (t, 0)) ->
      _infer_expr_type W fn (fun _ => ret TAny) (literal elts) ∅ [] 0
        = Ok (container t, 0).

(** ** Inputs on which inference returns *)

(** A type [|] and [Union[...]] accept and [TypedDict] takes as a field
    type: not a plain object, not the bare [Union] form, and if a union,
    one with members that are usable themselves. *)
Fixpoint usable (t : ty) : bool :=
  match t with
  | TObj _ | TBareUnion => false
  | TUnion ms => negb (Nat.eqb (length ms) 0) && forallb usable ms
  | _ => true
  end.

(** No dict literal among the sub-expressions inference looks at. *)
Fixpoint dict_free (e : expr) : bool :=
  match e with
  | Dict _ => false
  | List elts | Tuple elts | Set_ elts => forallb dict_free elts
  | BinOp l _ r => dict_free l && dict_free r
  | IfExp _ b o => dict_free b && dict_free o
  | _ => true
  end.

(** No dict literal inside the key of a dict literal, among the
    sub-expressions inference looks at. *)
Fixpoint keys_dict_free (e : expr) : bool :=
  match e with
  | Dict items =>
      forallb (fun item =>
                 match fst item with
                 | Some k => dict_free k
                 | None => true
                 end && keys_dict_free (snd item)) items
  | List elts | Tuple elts | Set_ elts => forallb keys_dict_free elts
  | BinOp l _ r => keys_dict_free l && keys_dict_free r
  | IfExp _ b o => keys_dict_free b && keys_dict_free o
  | _ => true
  end.

Definition is_PStr (c : path_component) : bool :=
  match c with
  | PStr _ => true
  | PNode _ => false
  end.

(** An annotation the resolver can handle: a name of [__builtins__]
    denotes a usable type, a [Dict[...]] tuple has the two elements the
    resolver reads, and a [Union[...]] subscript is a tuple that is not
    empty ([Union[X]] with one parameter resolves to the bare [Union]
    form). *)
Fixpoint well_formed_annotation (W : world) (annotation : expr) : bool :=
  match annotation with
  | Name type_name =>
      match __builtins__ W type_name with
      | Some t => usable t
      | None => true
      end
  | Subscript (Name base_type) slice =>
      if is_base base_type "List" "list" then well_formed_annotation W slice
      else if is_base base_type "Dict" "dict" then
        match slice with
        | Tuple (k :: v :: _) =>
            well_formed_annotation W k && well_formed_annotation W v
        | Tuple _ => false
        | _ => true
        end
      else if is_base base_type "Set" "set" then well_formed_annotation W slice
      else if is_base base_type "Tuple" "tuple" then
        match slice with
        | Tuple elts => forallb (well_formed_annotation W) elts
        | _ => true
        end
      else if String.eqb base_type "Optional" then
        well_formed_annotation W slice
      else if String.eqb base_type "Union" then
        match slice with
        | Tuple elts =>
            negb (Nat.eqb (length elts) 0)
            && forallb (well_formed_annotation W) elts
        | _ => false
        end
      else true
  | _ => true
  end.

(** A statement the two loops of the driver can handle. *)
Definition analyzable (W : world) (node : stmt) : bool :=
  match node with
  | Assign _ value => keys_dict_free value
  | AnnAssign (Name _) ann _ => well_formed_annotation W ann
  | Return (Some value) => keys_dict_free value
  | _ => true
  end.

(** A parameter the seeding loop can handle. *)
Definition seedable (W : world) (a : arg) : bool :=
  match annotation a with
  | Some ann => well_formed_annotation W ann
  | None => true
  end.

(** Every type in the symbol table is usable. *)
Definition usable_table (st : gmap string ty) : Prop :=
  forall x t, st !! x = Some t -> usable t = true.

(** The module lookup returns a usable type for every name. *)
Definition lookup_returns (lookup : string -> M ty) : Prop :=
  forall name s, exists t s', lookup name s = Ok (t, s') /\ usable t = true.

(** Resolution returns a usable type on a well-formed annotation. *)
Definition resolves (W : world) (lookup : string -> M ty) (ann : expr) : Prop :=
  well_formed_annotation W ann = true ->
  forall s, exists t s',
    _resolve_annotation W lookup ann s = Ok (t, s') /\ usable t = true.

(** ** Example functions *)

(** [def f() -> int: return "x"], its [__annotations__] removed. *)
Definition f_signature_only : func :=
  {| __name__ := "f"; __module__ := "m"; __annotations__ := None;
     getsource :=
       Parsed [FunctionDef "f" [] [Return (Some (Examples.str_ "x"))]
                 (Some (Name "int"))] |}.

(** A function of class [A] in module [m], [def m(self): return 1]:
    [inspect.getsource] gives the indented text of the method, which
    [ast.parse] refuses. *)
Definition f_method : func :=
  {| __name__ := "m"; __module__ := "m"; __annotations__ := Some [];
     getsource := Unparsable |}.

(** [{"a": 1, "b": "x"}] *)
Definition dict_a_b : expr :=
  Examples.record_ [("a", Examples.int_ 1); ("b", Examples.str_ "x")].

(** [def f(): return x; x = 1] and the same without the assignment. *)
Definition f_return_then_assign : func :=
  Examples.def0 "f"
    [Return (Some (Name "x")); Assign [Name "x"] (Examples.int_ 1)].

Definition f_return_only : func :=
  Examples.def0 "f" [Return (Some (Name "x"))].

(** [def outer(): def inner(): x = "s"; return "t"] followed by
    [x = 1; return x]. *)
Definition f_with_inner : func :=
  Examples.def0 "outer"
    [FunctionDef "inner" []
       [Assign [Name "x"] (Examples.str_ "s");
        Return (Some (Examples.str_ "t"))] None;
     Assign [Name "x"] (Examples.int_ 1);
     Return (Some (Name "x"))].

(** [def f(): return {"a_b": {"x": 1}, "ab": {"x": 1}}] *)
Definition f_twin_keys : func :=
  Examples.def0 "f"
    [Return (Some (Examples.record_
       [("a_b", Examples.record_ [("x", Examples.int_ 1)]);
        ("ab", Examples.record_ [("x", Examples.int_ 1)])]))].

(** [def f(c): if c: return {"a": 1}] followed by [return {"a": 1}]. *)
Definition f_two_records : func :=
  Examples.def0 "f"
    [If (Name "c")
       [Return (Some (Examples.record_ [("a", Examples.int_ 1)]))] [];
     Return (Some (Examples.record_ [("a", Examples.int_ 1)]))].

(** [def f(): return {{"a": 1}: 2}] *)
Definition f_dict_key : func :=
  Examples.def0 "f"
    [Return (Some (Dict [(Some (Examples.record_ [("a", Examples.int_ 1)]),
                          Examples.int_ 2)]))].

(** Module [m] with [g = lambda: 1] and [def f(): return g()]:
    [inspect.getsource(g)] is the line of the assignment. *)
Definition g_lambda : func :=
  {| __name__ := "<lambda>"; __module__ := "m"; __annotations__ := Some [];
     getsource := Parsed [Assign [Name "g"] (Lambda (Examples.int_ 1))] |}.

Definition W_lambda : world :=
  {| __builtins__ := Examples.builtins0;
     module_attr := fun m name =>
       if String.eqb m "m" && String.eqb name "g" then Some (ACallable g_lambda)
       else None |}.

Definition f_calls_g : func :=
  Examples.def0 "f" [Return (Some (Call (Name "g") []))].

(** Module [m] with [def f(): return f()]. *)
Definition f_recursive : func :=
  Examples.def0 "f" [Return (Some (Call (Name "f") []))].

Definition W_recursive : world :=
  {| __builtins__ := Examples.builtins0;
     module_attr := fun m name =>
       if String.eqb m "m" && String.eqb name "f" then Some (ACallable f_recursive)
       else None |}.

(** ** Names, record literals and statements *)

(** [c != "_"] *)
Definition not_underscore (c : ascii) : bool := negb (Ascii.eqb c "_"%char).

(** The key of a dict item that is the string constant [k]. *)
Definition str_key (k : string) : option expr := Some (Constant (CStr k)).

(** The key of the item is a string constant. *)
Definition str_keyed (item : option expr * expr) : bool :=
  match is_str_key (fst item) with
  | Some _ => true
  | None => false
  end.

(** A dict literal the synthesizer turns into a record class: not empty,
    every key a string constant. *)
Definition record_shaped (items : list (option expr * expr)) : bool :=
  negb (Nat.eqb (length items) 0) && forallb str_keyed items.

(** The strings of [keys] in order of first occurrence, without those of
    [seen]. *)
Fixpoint keys_once (seen keys : list string) : list string :=
  match keys with
  | [] => []
  | k :: rest =>
      if existsb (String.eqb k) seen then keys_once seen rest
      else k :: keys_once (seen ++ [k]) rest
  end.

(** The values of the [return] statements that have one. *)
Definition value_returns (nodes : list stmt) : list expr :=
  flat_map (fun node =>
              match node with
              | Return (Some e) => [e]
              | _ => []
              end) nodes.

(** The statement gives the name [x] an entry in the symbol table: an
    assignment with the target [x], or an annotated assignment to [x]. *)
Definition binds (node : stmt) (x : string) : Prop :=
  match node with
  | Assign targets _ => In (Name x) targets
  | AnnAssign (Name y) _ _ => y = x
  | _ => False
  end.

(** The names [_infer_expr_type] knows as conversions when they are
    called. *)
Definition converter_names : list string :=
  ["int"; "str"; "float"; "list"; "dict"; "set"; "tuple"].

(** An arithmetic expression over number literals: [int] and [float]
    constants under [+], [-], [*] and [/]. *)
Fixpoint numeric_expr (e : expr) : bool :=
  match e with
  | Constant (CInt _) | Constant (CFloat _) => true
  | BinOp l op r => is_arith op && numeric_expr l && numeric_expr r
  | _ => false
  end.

(** A [float] literal occurs in the expression. *)
Fixpoint has_float_literal (e : expr) : bool :=
  match e with
  | Constant (CFloat _) => true
  | BinOp l _ r => has_float_literal l || has_float_literal r
  | _ => false
  end.

(** ** Equal members and the class counter *)

(** Every type of [l] equals ([==]) one of [l']. *)
Definition covered (l l' : list ty) : Prop :=
  forall x, In x l -> ty_mem x l' = true.

(** A computation that returns has kept the classes it found: the count
    of classes has not gone down. *)
Definition counts_up {A} (m : M A) : Prop :=
  forall s a s', m s = Ok (a, s') -> s <= s'.

(** ** More example functions *)

(** Module [m] with [def make(): return {"a": 1, "b": "x"}] and
    [def f(): return make()]. *)
Definition f_make : func :=
  Examples.def0 "make" [Return (Some dict_a_b)].

Definition W_make : world :=
  {| __builtins__ := Examples.builtins0;
     module_attr := fun m name =>
       if String.eqb m "m" && String.eqb name "make"
       then Some (ACallable f_make) else None |}.

Definition f_calls_make : func :=
  Examples.def0 "f" [Return (Some (Call (Name "make") []))].

(** [def f(a: int, b): x = 1; y: str = 2; z += 1] *)
Definition f_locals : stmt :=
  FunctionDef "f"
    [{| arg_name := "a"; annotation := Some (Name "int") |};
     {| arg_name := "b"; annotation := None |}]
    [Assign [Name "x"] (Examples.int_ 1);
     AnnAssign (Name "y") (Name "str") (Some (Examples.int_ 2));
     AugAssign (Name "z") Add (Examples.int_ 1)] None.

(** [def f(x: list[int]): return x] *)
Definition f_identity : func :=
  {| __name__ := "f"; __module__ := "m"; __annotations__ := Some [];
     getsource :=
       Parsed [FunctionDef "f"
                 [{| arg_name := "x";
                     annotation :=
                       Some (Subscript (Name "list") (Name "int")) |}]
                 [Return (Some (Name "x"))] None] |}.

(** [def f(x: int): return "s"], with [__annotations__ == {"x": int}]. *)
Definition f_annotated_parameter : func :=
  {| __name__ := "f"; __module__ := "m";
     __annotations__ := Some [("x", py_int)];
     getsource :=
       Parsed [FunctionDef "f"
                 [{| arg_name := "x"; annotation := Some (Name "int") |}]
                 [Return (Some (Examples.str_ "s"))] None] |}.

(** * Properties *)

(** ** Basic facts about computations *)

Lemma bind_Ok {A B} (m : M A) (k : A -> M B) s a s' :
  m s = Ok (a, s') -> bind m k s = k a s'.
Proof. intros H. unfold bind. now rewrite H. Qed.

Lemma bind_Raise {A B} (m : M A) (k : A -> M B) s e :
  m s = Raise e -> bind m k s = Raise e.
Proof. intros H. unfold bind. now rewrite H. Qed.

Lemma bind_Ok_inv {A B} (m : M A) (k : A -> M B) s b s'' :
  bind m k s = Ok (b, s'') ->
  exists a s', m s = Ok (a, s') /\ k a s' = Ok (b, s'').
Proof.
  unfold bind. destruct (m s) as [[a s']|e]; [eauto | discriminate].
Qed.

Lemma ret_Ok_inv {A} (a b : A) s s' : ret a s = Ok (b, s') -> a = b /\ s = s'.
Proof. unfold ret. intros H. now inversion H. Qed.

(** Invert a successful run of a bind or a return in hypothesis [H]. *)
Ltac inv_run H :=
  match type of H with
  | bind _ _ _ = Ok _ =>
      let a := fresh "a" in
      let s := fresh "s" in
      let H1 := fresh H in
      apply bind_Ok_inv in H; destruct H as (a & s & H1 & H)
  | ret _ _ = Ok _ =>
      let E := fresh H in
      apply ret_Ok_inv in H; destruct H as [E H]
  | raise _ _ = Ok _ => discriminate H
  end.

(** ** Explicit annotations *)



(** ** Unparsable source *)

(** C7: when the source text of a function without a runtime return
    annotation cannot be parsed, [get_return_type] raises the parser's
    [SyntaxError] into its caller; only a failure of [inspect.getsource]
    is caught and turned into [Any]. *)
Theorem C7_parse_failure_is_raised W depth fn s :
  return_annotation fn = None ->
  getsource fn = Unparsable ->
  get_return_type W (S depth) fn s = Raise SyntaxError.
Proof. intros Hann Hsrc. simpl. now rewrite Hann, Hsrc. Qed.

Lemma C7_witness :
  get_return_type Examples.W0 1 f_method 0 = Raise SyntaxError.
Proof.
  apply (C7_parse_failure_is_raised Examples.W0 0 f_method 0); reflexivity.
Defined.

(** The sibling path: no source at all gives [Any]. *)
Lemma no_source_gives_Any W depth fn s :
  return_annotation fn = None ->
  getsource fn = NoSource ->
  get_return_type W (S depth) fn s = Ok (TAny, s).
Proof. intros Hann Hsrc. simpl. now rewrite Hann, Hsrc. Qed.

(** ** A record literal as the sole return value *)

Lemma seed_unannotated W lookup (args : list arg) (st : gmap string ty) :
  Forall (fun a => annotation a = None) args ->
  foldM (seed_parameter W lookup) args st = ret st.
Proof.
  induction 1 as [|a args Ha _ IH]; [reflexivity |].
  simpl. unfold seed_parameter at 1. rewrite Ha.
  unfold bind, ret. unfold ret in IH.
  change (fun s => foldM (seed_parameter W lookup) args st s)
    with (foldM (seed_parameter W lookup) args st).
  exact IH.
Qed.



(** ** Filling the annotation slot *)

Lemma dict_get_set d k v : dict_get (dict_set d k v) k = Some v.
Proof.
  induction d as [|[k' v'] d IH]; simpl.
  - now rewrite String.eqb_refl.
  - destruct (String.eqb k' k) eqn:E; simpl.
    + now rewrite String.eqb_refl.
    + now rewrite E.
Qed.

Lemma slot_dict_set fn d k v :
  slot_dict (set_annotations fn (dict_set d k v)) = dict_set d k v.
Proof. unfold slot_dict. simpl. now destruct (dict_set d k v). Qed.

Lemma slot_dict_idem fn :
  slot_dict (set_annotations fn (slot_dict fn)) = slot_dict fn.
Proof.
  unfold slot_dict. simpl. now destruct (__annotations__ fn) as [[|? ?]|].
Qed.

Lemma slot_dict_get fn : dict_get (slot_dict fn) "return" = return_annotation fn.
Proof.
  unfold slot_dict, return_annotation.
  destruct (__annotations__ fn) as [[|item d]|]; reflexivity.
Qed.

Lemma get_return_type_set_annotations W depth fn :
  get_return_type W depth (set_annotations fn (slot_dict fn)) =
  get_return_type W depth fn.
Proof.
  destruct depth as [|depth]; [reflexivity |].
  simpl.
  change (return_annotation (set_annotations fn (slot_dict fn)))
    with (dict_get (slot_dict fn) "return").
  rewrite slot_dict_get. reflexivity.
Qed.

(** C9: a call of [fill_inferred_type_hints] that returns leaves a
    ["return"] entry in the function's annotations: the entry that was
    there, or else the type [get_return_type] infers; after that, every
    further call returns the same function object without running the
    inference (it needs no recursion depth and creates no class), and
    [get_return_type] answers with the entry. *)
Theorem C9_fill_is_write_once W depth fn fn' s s' :
  fill_inferred_type_hints W depth fn s = Ok (fn', s') ->
  (exists t,
      return_annotation fn' = Some t /\
      (return_annotation fn = Some t /\ s' = s \/
       return_annotation fn = None /\
       get_return_type W depth fn s = Ok (t, s')) /\
      forall depth2, get_return_type W (S depth2) fn' = ret t) /\
  forall depth2 s2, fill_inferred_type_hints W depth2 fn' s2 = Ok (fn', s2).
Proof.
  unfold fill_inferred_type_hints.
  rewrite slot_dict_get.
  destruct (return_annotation fn) as [t|] eqn:Hann; intros H.
  - inv_run H. subst fn' s'.
    assert (Ht : return_annotation (set_annotations fn (slot_dict fn)) = Some t).
    { change (dict_get (slot_dict fn) "return" = Some t).
      now rewrite slot_dict_get. }
    split.
    + exists t. repeat split; auto. intros depth2. simpl. now rewrite Ht.
    + intros depth2 s2. rewrite slot_dict_idem, slot_dict_get, Hann.
      unfold ret, set_annotations. simpl. reflexivity.
  - inv_run H. inv_run H. subst fn' s'.
    rewrite get_return_type_set_annotations in H0. split.
    + exists a. repeat split; auto.
      * unfold return_annotation. simpl. apply dict_get_set.
      * intros depth2. simpl. unfold return_annotation. simpl.
        now rewrite dict_get_set.
    + intros depth2 s2. rewrite slot_dict_set, dict_get_set.
      unfold ret, set_annotations. simpl. reflexivity.
Qed.

Lemma C9_witness :
  exists fn',
    fill_inferred_type_hints Examples.W0 1
      (Examples.def0 "f" [Return (Some (Examples.int_ 1))]) 0 = Ok (fn', 0) /\
    return_annotation fn' = Some py_int /\
    fill_inferred_type_hints Examples.W0 0 fn' 0 = Ok (fn', 0).
Proof.
  eexists. split; [reflexivity |].
  destruct (C9_fill_is_write_once Examples.W0 1
              (Examples.def0 "f" [Return (Some (Examples.int_ 1))]) _ 0 0
              eq_refl) as [_ H2].
  split; [reflexivity | exact (H2 0 0)].
Defined.

(** ** The walk reaches every statement *)

Lemma stmt_size_children n : stmt_size n = S (forest_size (child_stmts n)).
Proof.
  assert (Hs : forall l,
    (fix sizes (l : list stmt) : nat :=
       match l with
       | [] => 0
       | s :: l' => stmt_size s + sizes l'
       end) l = forest_size l).
  { induction l as [|x l IH]; simpl; [reflexivity | now rewrite IH]. }
  assert (Happ : forall l1 l2,
    forest_size (l1 ++ l2) = forest_size l1 + forest_size l2).
  { induction l1 as [|x l1 IH]; intros l2; simpl; [reflexivity |].
    rewrite IH. lia. }
  destruct n; simpl; rewrite ?Hs, ?Happ; reflexivity.
Qed.

Lemma forest_size_app l1 l2 :
  forest_size (l1 ++ l2) = forest_size l1 + forest_size l2.
Proof.
  induction l1 as [|x l1 IH]; simpl; [reflexivity | rewrite IH; lia].
Qed.

Lemma walk_queue_complete fuel : forall todo n root,
  forest_size todo <= fuel ->
  In root todo -> subnode n root -> In n (walk_queue fuel todo).
Proof.
  induction fuel as [|fuel IH]; intros todo n root Hsize Hin Hsub.
  - destruct todo as [|x todo]; [destruct Hin |].
    simpl in Hsize. rewrite stmt_size_children in Hsize. lia.
  - destruct todo as [|x todo]; [destruct Hin |].
    simpl.
    assert (Hfuel : forest_size (todo ++ child_stmts x) <= fuel).
    { rewrite forest_size_app. simpl in Hsize.
      rewrite stmt_size_children in Hsize. lia. }
    destruct Hin as [-> | Hin].
    + destruct Hsub as [| c root Hc Hsub]; [now left | right].
      apply (IH _ _ c Hfuel); [apply in_or_app; now right | exact Hsub].
    + right. apply (IH _ _ root Hfuel); [apply in_or_app; now left | exact Hsub].
Qed.

Lemma ast_walk_complete n root : subnode n root -> In n (ast_walk root).
Proof.
  intros H. unfold ast_walk.
  apply (walk_queue_complete _ _ _ root); [simpl; lia | now left | exact H].
Qed.

Lemma subnode_trans a b c : subnode a b -> subnode b c -> subnode a c.
Proof.
  intros Hab Hbc. induction Hbc as [| c' root Hc _ IH]; [exact Hab |].
  eapply subnode_child; eauto.
Qed.

(** ** Loops with effects *)

Lemma foldM_app {A B} (step : A -> B -> M A) l1 l2 acc s :
  foldM step (l1 ++ l2) acc s =
  bind (foldM step l1 acc) (foldM step l2) s.
Proof.
  revert acc s. induction l1 as [|x l1 IH]; intros acc s; simpl.
  - reflexivity.
  - unfold bind in *. destruct (step acc x s) as [[a s1]|e]; [|reflexivity].
    apply IH.
Qed.

(** ** The two passes of the driver *)

Section Passes.

Variable W : world.
Variable fn : func.
Variable lookup : string -> M ty.

Lemma collect_return_keeps T node acc s rts s' :
  collect_return W fn lookup T acc node s = Ok (rts, s') ->
  forall t, In t acc -> In t rts.
Proof.
  intros H t Ht. destruct node; simpl in H; try (inv_run H; now subst).
  destruct value; [| inv_run H; now subst].
  inv_run H. inv_run H. subst. apply in_or_app. now left.
Qed.

Lemma collect_returns_keep T l : forall acc s rts s',
  foldM (collect_return W fn lookup T) l acc s = Ok (rts, s') ->
  forall t, In t acc -> In t rts.
Proof.
  induction l as [|node l IH]; intros acc s rts s' H t Ht; simpl in H.
  - inv_run H. now subst.
  - inv_run H. eapply IH; [exact H |].
    eapply collect_return_keeps; eauto.
Qed.

(** The entry of one return statement: inferred from its value under the
    table [T] the return loop was given, after the entries of the returns
    walked before it. *)
Lemma collect_return_split T before e after acc s rts s' :
  foldM (collect_return W fn lookup T)
    (before ++ Return (Some e) :: after) acc s = Ok (rts, s') ->
  exists rts1 sa t sb,
    foldM (collect_return W fn lookup T) before acc s = Ok (rts1, sa) /\
    _infer_expr_type W fn lookup e T [] sa = Ok (t, sb) /\
    foldM (collect_return W fn lookup T) after (rts1 ++ [t]) sb = Ok (rts, s') /\
    In t rts.
Proof.
  rewrite foldM_app. intros H. inv_run H. simpl in H.
  inv_run H. inv_run H1. inv_run H1. subst.
  exists a, s0, a1, s1. repeat split; auto.
  eapply collect_returns_keep; [exact H |]. apply in_or_app. right. now left.
Qed.

Lemma bind_targets_keeps x t targets : forall st : gmap string ty,
  st !! x = Some t -> bind_targets targets t st !! x = Some t.
Proof.
  unfold bind_targets.
  induction targets as [|target targets IH]; intros st H; simpl; [exact H |].
  apply IH. destruct target; try exact H.
  destruct (decide (id = x)) as [->|Hne].
  - apply lookup_insert_eq.
  - now rewrite lookup_insert_ne.
Qed.

Lemma bind_targets_lookup x t targets : forall st : gmap string ty,
  In (Name x) targets -> bind_targets targets t st !! x = Some t.
Proof.
  induction targets as [|target targets IH]; intros st Hin; [destruct Hin |].
  destruct Hin as [-> | Hin].
  - apply (bind_targets_keeps x t targets (<[x := t]> st)).
    apply lookup_insert_eq.
  - apply (IH _ Hin).
Qed.

Lemma bind_targets_mono x t targets : forall st : gmap string ty,
  is_Some (st !! x) -> is_Some (bind_targets targets t st !! x).
Proof.
  unfold bind_targets.
  induction targets as [|target targets IH]; intros st H; simpl; [exact H |].
  apply IH. destruct target; try exact H.
  destruct (decide (id = x)) as [->|Hne].
  - rewrite lookup_insert_eq. eauto.
  - now rewrite lookup_insert_ne.
Qed.

Lemma analyze_node_mono x node (st : gmap string ty) s st' s' :
  analyze_node W fn lookup st node s = Ok (st', s') ->
  is_Some (st !! x) -> is_Some (st' !! x).
Proof.
  intros H Hx. destruct node; simpl in H; try (inv_run H; now subst).
  - inv_run H. inv_run H. subst. now apply bind_targets_mono.
  - destruct target; try (inv_run H; now subst).
    inv_run H. inv_run H. subst.
    destruct (decide (id = x)) as [->|Hne].
    + rewrite lookup_insert_eq. eauto.
    + now rewrite lookup_insert_ne.
Qed.

Lemma analyze_nodes_mono x l : forall (st : gmap string ty) s T s',
  foldM (analyze_node W fn lookup) l st s = Ok (T, s') ->
  is_Some (st !! x) -> is_Some (T !! x).
Proof.
  induction l as [|node l IH]; intros st s T s' H Hx; simpl in H.
  - inv_run H. now subst.
  - inv_run H. eapply IH; [exact H |]. eapply analyze_node_mono; eauto.
Qed.

(** The effect of one assignment statement of the walk on the table. *)
Lemma analyze_assign_split before targets v after (st : gmap string ty) s T s' :
  foldM (analyze_node W fn lookup)
    (before ++ Assign targets v :: after) st s = Ok (T, s') ->
  exists st1 sa t sb,
    foldM (analyze_node W fn lookup) before st s = Ok (st1, sa) /\
    _infer_expr_type W fn lookup v st1 [] sa = Ok (t, sb) /\
    foldM (analyze_node W fn lookup) after
      (bind_targets targets t st1) sb = Ok (T, s') /\
    forall x, In (Name x) targets ->
      bind_targets targets t st1 !! x = Some t /\ is_Some (T !! x).
Proof.
  rewrite foldM_app. intros H. inv_run H. simpl in H.
  inv_run H. inv_run H1. inv_run H1. subst.
  exists a, s0, a1, s1. repeat split; auto.
  - now apply bind_targets_lookup.
  - eapply analyze_nodes_mono; [exact H |].
    rewrite bind_targets_lookup by assumption. eauto.
Qed.

End Passes.

(** The driver on a definition without a return annotation, step by step. *)
Lemma get_return_type_unannotated W depth fn name args body rest s r s' :
  return_annotation fn = None ->
  getsource fn = Parsed (FunctionDef name args body None :: rest) ->
  get_return_type W (S depth) fn s = Ok (r, s') ->
  exists seeded s0 T s1 rts s2,
    foldM (seed_parameter W (_get_module_type W (get_return_type W depth) fn))
      args ∅ s = Ok (seeded, s0) /\
    foldM (analyze_node W fn (_get_module_type W (get_return_type W depth) fn))
      (ast_walk (FunctionDef name args body None)) seeded s0 = Ok (T, s1) /\
    foldM (collect_return W fn
             (_get_module_type W (get_return_type W depth) fn) T)
      (ast_walk (FunctionDef name args body None)) [] s1 = Ok (rts, s2) /\
    unify_return_types rts s2 = Ok (r, s').
Proof.
  intros Hann Hsrc H. simpl in H. rewrite Hann, Hsrc in H.
  unfold infer_from_def, _analyze_function_body in H.
  inv_run H. inv_run H0. inv_run H.
  eauto 10.
Qed.

(** C2 (amended): for a function without an explicit return annotation,
    the assignment pass first runs over the whole walk of the definition
    and leaves a table [T]; the type of every return statement is then
    inferred with this final table [T], whatever its position in the walk,
    so an assignment that comes after a return does bear on its type. *)
Theorem C2_returns_use_the_final_table W depth fn name args body rest s r s' :
  return_annotation fn = None ->
  getsource fn = Parsed (FunctionDef name args body None :: rest) ->
  get_return_type W (S depth) fn s = Ok (r, s') ->
  exists T s1,
    _analyze_function_body W fn
      (_get_module_type W (get_return_type W depth) fn)
      (FunctionDef name args body None) ∅ s = Ok (T, s1) /\
    forall before e after,
      ast_walk (FunctionDef name args body None)
        = before ++ Return (Some e) :: after ->
      exists rts1 sa t sb rts s2,
        foldM (collect_return W fn
                 (_get_module_type W (get_return_type W depth) fn) T)
          before [] s1 = Ok (rts1, sa) /\
        _infer_expr_type W fn
          (_get_module_type W (get_return_type W depth) fn) e T [] sa
          = Ok (t, sb) /\
        foldM (collect_return W fn
                 (_get_module_type W (get_return_type W depth) fn) T)
          after (rts1 ++ [t]) sb = Ok (rts, s2) /\
        In t rts /\
        unify_return_types rts s2 = Ok (r, s').
Proof.
  intros Hann Hsrc H.
  destruct (get_return_type_unannotated _ _ _ _ _ _ _ _ _ _ Hann Hsrc H)
    as (seeded & s0 & T & s1 & rts & s2 & Hseed & Hana & Hret & Huni).
  exists T, s1. split.
  - unfold _analyze_function_body. now rewrite (bind_Ok _ _ _ _ _ Hseed).
  - intros before e after Hwalk. rewrite Hwalk in Hret.
    destruct (collect_return_split _ _ _ _ _ _ _ _ _ _ _ Hret)
      as (rts1 & sa & t & sb & H1 & H2 & H3 & H4).
    exists rts1, sa, t, sb, rts, s2. auto.
Qed.

Lemma C2_witness :
  exists T s1,
    _analyze_function_body Examples.W0 f_return_then_assign
      (_get_module_type Examples.W0 (get_return_type Examples.W0 0)
         f_return_then_assign)
      (FunctionDef "f" []
         [Return (Some (Name "x")); Assign [Name "x"] (Examples.int_ 1)] None)
      ∅ 0 = Ok (T, s1) /\
    T !! "x" = Some py_int.
Proof.
  destruct (C2_returns_use_the_final_table Examples.W0 0 f_return_then_assign
              "f" [] [Return (Some (Name "x"));
                      Assign [Name "x"] (Examples.int_ 1)] [] 0 py_int 0
              eq_refl eq_refl eq_refl) as (T & s1 & HT & _).
  exists T, s1. split; [exact HT |].
  vm_compute in HT. inversion HT. reflexivity.
Defined.

(** The claim of C2 fails on [def f(): return x; x = 1]: the code infers
    [int] for the return, from the assignment after it; without the
    assignment the same return gets [Any], which is also what the single
    pass of the specification gives with the assignment in place. *)
Lemma C2_counterexample :
  get_return_type Examples.W0 1 f_return_then_assign 0 = Ok (py_int, 0) /\
  get_return_type Examples.W0 1 f_return_only 0 = Ok (TAny, 0) /\
  spec_single_pass Examples.W0 f_return_then_assign
    (_get_module_type Examples.W0 (get_return_type Examples.W0 0)
       f_return_then_assign)
    (FunctionDef "f" []
       [Return (Some (Name "x")); Assign [Name "x"] (Examples.int_ 1)] None) 0
  = Ok ([TAny], 0).
Proof. repeat split; vm_compute; reflexivity. Qed.

(** ** Nested function definitions *)

(** C10: the walks go into nested function definitions.  For a function
    without an explicit return annotation whose definition contains an inner
    definition (at any depth), when [get_return_type] returns: every return
    statement with a value inside the inner definition has its type, inferred
    with the outer table, among the outer function's return types; and every
    assignment inside the inner definition writes the inferred type under
    its target names into the outer function's symbol table, where the names
    stay bound. *)
Theorem C10_walk_enters_inner_definitions W depth fn name args body rest
    iname iargs ibody ireturns s r s' :
  return_annotation fn = None ->
  getsource fn = Parsed (FunctionDef name args body None :: rest) ->
  subnode (FunctionDef iname iargs ibody ireturns)
    (FunctionDef name args body None) ->
  get_return_type W (S depth) fn s = Ok (r, s') ->
  exists seeded s0 T s1 rts s2,
    foldM (seed_parameter W (_get_module_type W (get_return_type W depth) fn))
      args ∅ s = Ok (seeded, s0) /\
    foldM (analyze_node W fn (_get_module_type W (get_return_type W depth) fn))
      (ast_walk (FunctionDef name args body None)) seeded s0 = Ok (T, s1) /\
    foldM (collect_return W fn
             (_get_module_type W (get_return_type W depth) fn) T)
      (ast_walk (FunctionDef name args body None)) [] s1 = Ok (rts, s2) /\
    unify_return_types rts s2 = Ok (r, s') /\
    (forall e,
        subnode (Return (Some e)) (FunctionDef iname iargs ibody ireturns) ->
        exists t sa sb,
          _infer_expr_type W fn
            (_get_module_type W (get_return_type W depth) fn) e T [] sa
            = Ok (t, sb) /\
          In t rts) /\
    (forall targets v,
        subnode (Assign targets v) (FunctionDef iname iargs ibody ireturns) ->
        exists before after st1 sa t sb,
          ast_walk (FunctionDef name args body None)
            = before ++ Assign targets v :: after /\
          foldM (analyze_node W fn
                   (_get_module_type W (get_return_type W depth) fn))
            before seeded s0 = Ok (st1, sa) /\
          _infer_expr_type W fn
            (_get_module_type W (get_return_type W depth) fn) v st1 [] sa
            = Ok (t, sb) /\
          foldM (analyze_node W fn
                   (_get_module_type W (get_return_type W depth) fn))
            after (bind_targets targets t st1) sb = Ok (T, s1) /\
          forall x, In (Name x) targets ->
            bind_targets targets t st1 !! x = Some t /\ is_Some (T !! x)).
Proof.
  intros Hann Hsrc Hinner H.
  destruct (get_return_type_unannotated _ _ _ _ _ _ _ _ _ _ Hann Hsrc H)
    as (seeded & s0 & T & s1 & rts & s2 & Hseed & Hana & Hret & Huni).
  exists seeded, s0, T, s1, rts, s2. repeat split; auto.
  - intros e He.
    pose proof (ast_walk_complete _ _ (subnode_trans _ _ _ He Hinner)) as Hin.
    apply in_split in Hin. destruct Hin as (before & after & Hwalk).
    rewrite Hwalk in Hret.
    destruct (collect_return_split _ _ _ _ _ _ _ _ _ _ _ Hret)
      as (rts1 & sa & t & sb & _ & H2 & _ & H4).
    eauto.
  - intros targets v Hv.
    pose proof (ast_walk_complete _ _ (subnode_trans _ _ _ Hv Hinner)) as Hin.
    apply in_split in Hin. destruct Hin as (before & after & Hwalk).
    pose proof Hana as Hana'. rewrite Hwalk in Hana'.
    destruct (analyze_assign_split _ _ _ _ _ _ _ _ _ _ _ Hana')
      as (st1 & sa & t & sb & H1 & H2 & H3 & H4).
    exists before, after, st1, sa, t, sb. auto.
Qed.

Lemma C10_witness :
  exists (T : gmap string ty) rts,
    T !! "x" = Some py_str /\ rts = [py_str; py_str] /\
    get_return_type Examples.W0 1 f_with_inner 0 = Ok (py_str, 0).
Proof.
  destruct (C10_walk_enters_inner_definitions Examples.W0 0 f_with_inner
              "outer" []
              [FunctionDef "inner" []
                 [Assign [Name "x"] (Examples.str_ "s");
                  Return (Some (Examples.str_ "t"))] None;
               Assign [Name "x"] (Examples.int_ 1);
               Return (Some (Name "x"))] []
              "inner" []
              [Assign [Name "x"] (Examples.str_ "s");
               Return (Some (Examples.str_ "t"))] None 0 py_str 0
              eq_refl eq_refl)
    as (seeded & s0 & T & s1 & rts & s2 & Hseed & Hana & Hret & _).
  - eapply subnode_child; [left; reflexivity | apply subnode_self].
  - reflexivity.
  - exists T, rts.
    vm_compute in Hseed. inversion Hseed; subst seeded s0.
    vm_compute in Hana. inversion Hana; subst T s1.
    vm_compute in Hret. inversion Hret; subst rts s2.
    repeat split; reflexivity.
Defined.

(** ** Names of synthesized records *)

Lemma append_assoc (a b c : string) : (a +:+ b) +:+ c = a +:+ (b +:+ c).
Proof.
  induction a as [|ch a IH]; [reflexivity |].
  change (String ch ((a +:+ b) +:+ c) = String ch (a +:+ (b +:+ c))).
  now rewrite IH.
Qed.

Lemma append_empty_r (a : string) : a +:+ "" = a.
Proof.
  induction a as [|ch a IH]; [reflexivity |].
  change (String ch (a +:+ "") = String ch a). now rewrite IH.
Qed.

Lemma append_cancel_l (a b c : string) : a +:+ b = a +:+ c -> b = c.
Proof.
  induction a as [|ch a IH]; intros H; [exact H |].
  change (String ch (a +:+ b) = String ch (a +:+ c)) in H.
  injection H as H. now apply IH.
Qed.

Section Names.

Variable W : world.
Variable fn : func.
Variable lookup : string -> M ty.

Lemma add_components_strings path : forall class_name,
  add_components class_name (map PStr path) =
  ret (class_name +:+ path_suffix path).
Proof.
  unfold path_suffix.
  induction path as [|component path IH]; intros class_name; simpl.
  - now rewrite append_empty_r.
  - change (add_components
              (class_name +:+
               _snake_case_to_capital_case
                 (PyStr.keep_chars PyStr.isalnum component))
              (map PStr path) =
            ret (class_name +:+
                 (_snake_case_to_capital_case
                    (PyStr.keep_chars PyStr.isalnum component) +:+
                  PyStr.join
                    (map (fun component0 =>
                            _snake_case_to_capital_case
                              (PyStr.keep_chars PyStr.isalnum component0))
                       path)))).
    rewrite IH, append_assoc. reflexivity.
Qed.

(** A dict literal that becomes a record class is named by the loop over
    its nested path. *)
Lemma record_class_name items st path s i n fields s' :
  _create_typed_dict_from_dict W fn lookup items st path s
    = Ok (TTypedDict i n fields, s') ->
  add_components (_snake_case_to_capital_case (__name__ fn) +:+ "Return")
    path i = Ok (n, i).
Proof.
  unfold _create_typed_dict_from_dict, create_typed_dict. intros H.
  inv_run H. destruct a as [field_types valid].
  destruct (valid && negb (Nat.eqb (length field_types) 0)).
  - inv_run H. unfold TypedDict in H.
    destruct (existsb _ field_types); [discriminate |].
    injection H as <- <- <- <-.
    assert (Hpure : forall p c x y z,
      add_components c p x = Ok (y, z) -> x = z).
    { induction p as [|[k|k] p IH]; intros c x y z Hp; simpl in Hp.
      - now inv_run Hp.
      - inv_run Hp. inv_run Hp0. subst. eapply IH; eauto.
      - inv_run Hp. discriminate. }
    pose proof (Hpure _ _ _ _ _ H1) as ->. exact H1.
  - destruct items as [|item items]; [inv_run H; discriminate |].
    inv_run H. inv_run H.
    repeat match type of H with
           | (if ?c then _ else _) _ = _ => destruct c
           end;
      inv_run H; inv_run H; inv_run H; discriminate.
Qed.


End Names.



(** ** Equality of type objects and [set] *)

Section ty_induction.

Variable P : ty -> Prop.
Hypothesis HAny : P TAny.
Hypothesis HClass : forall n, P (TClass n).
Hypothesis HObj : forall n, P (TObj n).
Hypothesis HBareDict : P TBareDict.
Hypothesis HBareTuple : P TBareTuple.
Hypothesis HBareUnion : P TBareUnion.
Hypothesis HList : forall t, P t -> P (TList t).
Hypothesis HSet : forall t, P t -> P (TSet t).
Hypothesis HDict : forall k v, P k -> P v -> P (TDict k v).
Hypothesis HTuple : forall ts, Forall P ts -> P (TTuple ts).
Hypothesis HUnion : forall ts, Forall P ts -> P (TUnion ts).
Hypothesis HTypedDict :
  forall i n fs, Forall (fun f => P (snd f)) fs -> P (TTypedDict i n fs).

Lemma ty_nested_ind : forall t : ty, P t.
Proof.
  exact
    (fix ty_nested_ind (t : ty) : P t :=
      match t with
      | TAny => HAny
      | TClass n => HClass n
      | TObj n => HObj n
      | TBareDict => HBareDict
      | TBareTuple => HBareTuple
      | TBareUnion => HBareUnion
      | TList x => HList x (ty_nested_ind x)
      | TSet x => HSet x (ty_nested_ind x)
      | TDict k v => HDict k v (ty_nested_ind k) (ty_nested_ind v)
      | TTuple ts =>
          HTuple ts
            ((fix all (l : list ty) : Forall P l :=
                match l with
                | [] => @List.Forall_nil _ P
                | x :: l' => @List.Forall_cons _ P x l' (ty_nested_ind x) (all l')
                end) ts)
      | TUnion ts =>
          HUnion ts
            ((fix all (l : list ty) : Forall P l :=
                match l with
                | [] => @List.Forall_nil _ P
                | x :: l' => @List.Forall_cons _ P x l' (ty_nested_ind x) (all l')
                end) ts)
      | TTypedDict i n fs =>
          HTypedDict i n fs
            ((fix all (l : list (string * ty)) : Forall (fun f => P (snd f)) l :=
                match l with
                | [] => @List.Forall_nil _ _
                | f :: l' =>
                    @List.Forall_cons _ (fun f => P (snd f)) f l'
                      (ty_nested_ind (snd f)) (all l')
                end) fs)
      end).
Qed.

End ty_induction.

Lemma ty_eqb_refl t : ty_eqb t t = true.
Proof.
  induction t as [| n | n | | | | t IH | t IH | k v IHk IHv | ts IH | ts IH
                 | i n fs _] using ty_nested_ind; simpl;
    try reflexivity; try (apply String.eqb_refl); try assumption.
  - now rewrite IHk, IHv.
  - induction IH as [|x l Hx _ IHl]; [reflexivity |]. now rewrite Hx, IHl.
  - assert (H : forall l, Forall (fun x => ty_eqb x x = true) l ->
      forall big, (forall x, In x l -> In x big) ->
      forallb (fun x => existsb (fun y => ty_eqb x y) big) l = true /\
      forallb (fun y => existsb (fun x => ty_eqb x y) big) l = true).
    { induction 1 as [|x l Hx _ IHl]; intros big Hsub; [now split |].
      destruct (IHl big) as [H1 H2]; [intros y Hy; apply Hsub; now right |].
      simpl. rewrite H1, H2, !andb_true_r.
      split; apply existsb_exists; exists x; (split; [apply Hsub; now left | exact Hx]). }
    destruct (H ts IH ts) as [H1 H2]; [auto |]. now rewrite H1, H2.
  - apply Nat.eqb_refl.
Qed.

Lemma ty_mem_app x l1 l2 : ty_mem x (l1 ++ l2) = ty_mem x l1 || ty_mem x l2.
Proof. unfold ty_mem. apply existsb_app. Qed.

Lemma ty_mem_In x l : In x l -> ty_mem x l = true.
Proof.
  intros H. unfold ty_mem. apply existsb_exists. exists x.
  split; [exact H | apply ty_eqb_refl].
Qed.

Lemma py_set_from_In l : forall seen x,
  In x (py_set_from seen l) -> In x l.
Proof.
  induction l as [|y l IH]; intros seen x H; simpl in H; [exact H |].
  destruct (ty_mem y seen).
  - right. eapply IH; eauto.
  - destruct H as [-> | H]; [now left | right; eapply IH; eauto].
Qed.

Lemma py_set_from_covers l : forall seen x,
  In x l -> ty_mem x (seen ++ py_set_from seen l) = true.
Proof.
  induction l as [|y l IH]; intros seen x Hin; [destruct Hin |].
  simpl. destruct (ty_mem y seen) eqn:Hy.
  - destruct Hin as [<- | Hin]; [| now apply IH].
    rewrite ty_mem_app, Hy. reflexivity.
  - destruct Hin as [<- | Hin].
    + rewrite ty_mem_app. simpl.
      change (ty_mem y seen || ty_mem y (y :: py_set_from (seen ++ [y]) l) = true).
      rewrite (ty_mem_In y (y :: _)) by now left. apply orb_true_r.
    + specialize (IH (seen ++ [y]) x Hin).
      now rewrite <- app_assoc in IH.
Qed.

Lemma py_set_from_distinct l : forall seen,
  distinct_from seen (py_set_from seen l) = true.
Proof.
  induction l as [|y l IH]; intros seen; simpl; [reflexivity |].
  destruct (ty_mem y seen) eqn:Hy; [apply IH |].
  simpl. rewrite Hy. simpl. apply IH.
Qed.

Lemma py_set_from_fixed l : forall seen,
  distinct_from seen l = true -> py_set_from seen l = l.
Proof.
  induction l as [|y l IH]; intros seen H; simpl in *; [reflexivity |].
  apply andb_true_iff in H as [Hy Hl].
  apply negb_true_iff in Hy. rewrite Hy. f_equal. now apply IH.
Qed.

Lemma py_set_from_nil l : forall seen,
  py_set_from seen l = [] <-> forallb (fun y => ty_mem y seen) l = true.
Proof.
  induction l as [|y l IH]; intros seen; simpl; [easy |].
  destruct (ty_mem y seen); simpl; [apply IH |].
  split; discriminate.
Qed.

Lemma ty_mem_first t0 rest :
  forallb (fun y => ty_mem y [t0]) rest = forallb (fun y => ty_eqb t0 y) rest.
Proof.
  induction rest as [|y rest IH]; [reflexivity |].
  change (ty_mem y [t0] && forallb (fun y => ty_mem y [t0]) rest =
          ty_eqb t0 y && forallb (fun y => ty_eqb t0 y) rest).
  rewrite IH. f_equal. unfold ty_mem. simpl. apply orb_false_r.
Qed.

(** [len(set(types)) == 1]: every type equals the first. *)
Lemma one_type_first t0 rest :
  one_type (t0 :: rest) = forallb (fun y => ty_eqb t0 y) rest.
Proof.
  unfold one_type, py_set. simpl. rewrite <- ty_mem_first.
  destruct (forallb (fun y => ty_mem y [t0]) rest) eqn:E.
  - apply py_set_from_nil in E. now rewrite E.
  - destruct (py_set_from [t0] rest) eqn:H; [| reflexivity].
    apply py_set_from_nil in H. congruence.
Qed.

Lemma py_set_from_app l1 : forall seen l2,
  py_set_from seen (l1 ++ l2) =
  py_set_from seen l1 ++ py_set_from (seen ++ py_set_from seen l1) l2.
Proof.
  induction l1 as [|x l1 IH]; intros seen l2; simpl.
  - now rewrite app_nil_r.
  - destruct (ty_mem x seen); [apply IH |].
    simpl. rewrite IH. now rewrite <- app_assoc.
Qed.

(** ** Unions *)

(** What a returning [Union[...]] returns. *)
Lemma mk_union_Ok_inv params s r s' :
  mk_union params s = Ok (r, s') ->
  s' = s /\ existsb is_bare_union params = false /\
  (py_set (flat_map union_args params) = [r] \/
   exists a b ms,
     py_set (flat_map union_args params) = a :: b :: ms /\
     r = TUnion (a :: b :: ms)).
Proof.
  unfold mk_union. destruct params as [|p params]; [discriminate |].
  destruct (existsb is_bare_union (p :: params)); [discriminate |].
  destruct (py_set _) as [|t [|t' ms]]; intros H; try discriminate;
    inv_run H; subst; eauto 8.
Qed.

Lemma mk_union_state params s r s' : mk_union params s = Ok (r, s') -> s' = s.
Proof. intros H. now apply mk_union_Ok_inv in H. Qed.

(** [Union[...]] never returns a union of one member. *)
Lemma mk_union_not_singleton params s r s' :
  Forall (fun m => forall x, m <> TUnion [x]) (flat_map union_args params) ->
  mk_union params s = Ok (r, s') ->
  forall x, r <> TUnion [x].
Proof.
  intros Hmem H.
  apply mk_union_Ok_inv in H as (_ & _ & [E | (a & b & ms & E & ->)]).
  - rewrite List.Forall_forall in Hmem. apply Hmem.
    apply (py_set_from_In _ []).
    fold (py_set (flat_map union_args params)). rewrite E. now left.
  - intros x Hx. discriminate.
Qed.

Lemma mk_union_checked params :
  params <> [] -> existsb is_bare_union params = false ->
  mk_union params =
  match py_set (flat_map union_args params) with
  | [] => raise TypeError
  | [t] => ret t
  | ms => ret (TUnion ms)
  end.
Proof.
  intros Hne Hb. unfold mk_union. rewrite Hb.
  destruct params; [now destruct Hne | reflexivity].
Qed.

Lemma proper_not_bare t : proper_union t = true -> is_bare_union t = false.
Proof. destruct t; simpl; auto. Qed.

(** A type that is no union, or a proper one, is the union of itself. *)
Lemma mk_union_single t0 :
  proper_union t0 = true -> mk_union [t0] = ret t0.
Proof.
  intros Hp. rewrite mk_union_checked;
    [| discriminate | simpl; now rewrite (proper_not_bare _ Hp)].
  simpl. rewrite app_nil_r.
  destruct t0; try reflexivity.
  simpl in *. apply andb_true_iff in Hp as [Hp _].
  apply andb_true_iff in Hp as [Hlen Hd].
  unfold py_set. rewrite (py_set_from_fixed _ _ Hd).
  destruct members as [|a [|b ms]]; try discriminate. reflexivity.
Qed.

Lemma ty_eqb_union_l ms t :
  ty_eqb (TUnion ms) t = true ->
  exists ms', t = TUnion ms' /\
    forallb (fun y => ty_mem y ms) ms' = true.
Proof.
  destruct t; simpl; try discriminate. intros H.
  apply andb_true_iff in H as [_ H]. eauto.
Qed.

Lemma ty_eqb_not_union t t' :
  ty_eqb t t' = true ->
  (forall ms, t <> TUnion ms) -> union_args t' = [t'].
Proof.
  intros H Hn. destruct t, t'; simpl in H; try discriminate; try reflexivity.
  now destruct (Hn members).
Qed.

Lemma unionable_not_bare t : unionable t = true -> is_bare_union t = false.
Proof. destruct t; simpl; auto. Qed.

Lemma mk_union_pair a b :
  unionable a = true -> unionable b = true ->
  mk_union [a; b] =
  match py_set (union_args a ++ union_args b) with
  | [] => raise TypeError
  | [t] => ret t
  | ms => ret (TUnion ms)
  end.
Proof.
  intros Ha Hb. rewrite mk_union_checked; [| discriminate |].
  - simpl. now rewrite app_nil_r.
  - simpl. now rewrite (unionable_not_bare _ Ha), (unionable_not_bare _ Hb).
Qed.

(** [a | b] for equal operands is the first operand. *)
Lemma union_or_same t t' :
  proper_union t = true -> unionable t = true -> unionable t' = true ->
  ty_eqb t t' = true -> union_or t t' = ret t.
Proof.
  intros Hp Hu Hu' Heq. unfold union_or. rewrite Hu, Hu'. cbn [andb].
  rewrite (mk_union_pair _ _ Hu Hu').
  destruct (match t with TUnion _ => true | _ => false end) eqn:Hk.
  - destruct t as [| | | | | | | | | | ms |]; try discriminate.
    apply ty_eqb_union_l in Heq as (ms' & -> & Hsub).
    simpl in *. apply andb_true_iff in Hp as [Hp _].
    apply andb_true_iff in Hp as [Hlen Hd].
    unfold py_set. rewrite py_set_from_app, (py_set_from_fixed _ _ Hd). simpl.
    apply py_set_from_nil in Hsub. rewrite Hsub, app_nil_r.
    destruct ms as [|a [|b ms]]; try discriminate. reflexivity.
  - assert (Hn : forall ms, t <> TUnion ms) by (intros ms ->; discriminate).
    rewrite (ty_eqb_not_union _ _ Heq Hn).
    assert (Ha : union_args t = [t]) by (destruct t; try reflexivity; discriminate).
    rewrite Ha. unfold py_set. simpl. unfold ty_mem. simpl.
    rewrite Heq. reflexivity.
Qed.

(** Return types that all equal the first unify to the first. *)
Lemma unify_same t0 rest :
  proper_union t0 = true ->
  forallb (fun y => ty_eqb t0 y) rest = true ->
  unify_return_types (t0 :: rest) = ret t0.
Proof.
  intros Hp Hall. unfold unify_return_types.
  destruct rest as [|t1 rest]; [reflexivity |].
  unfold union_of_set.
  assert (E : py_set (t0 :: t1 :: rest) = [t0]).
  { unfold py_set.
    change (t0 :: py_set_from [t0] (t1 :: rest) = [t0]).
    f_equal. apply py_set_from_nil. now rewrite ty_mem_first. }
  rewrite E. now apply mk_union_single.
Qed.

(** ** List, set and tuple literals *)

Lemma mapM_cons_inv {A B} (f : A -> M B) x l s ys s' :
  mapM f (x :: l) s = Ok (ys, s') ->
  exists y s1 ys', f x s = Ok (y, s1) /\ mapM f l s1 = Ok (ys', s') /\
                   ys = y :: ys'.
Proof.
  intros H. simpl in H. inv_run H. inv_run H. inv_run H. subst. eauto 7.
Qed.

Lemma py_set_two t0 rest :
  forallb (fun t => ty_eqb t0 t) rest = false ->
  2 <= length (py_set (t0 :: rest)).
Proof.
  intros H. unfold py_set.
  change (2 <= length (t0 :: py_set_from [t0] rest)).
  destruct (py_set_from [t0] rest) eqn:E; [| simpl; lia].
  apply py_set_from_nil in E. rewrite ty_mem_first in E. congruence.
Qed.

(** C5 (amended): with [ts] the types inferred for the elements, in order:
    a tuple literal gets the tuple type [tuple[ts]], position by position
    (the empty one [tuple[()]]); an empty list or set literal gets the
    element type [Any]; a list or set literal whose element types all
    equal the first as type objects ([==]) gets the first as element type;
    any other list or set literal gets as element type [Union] of
    [set(ts)], which lists each of two or more different element types
    once.  Record classes made for separate dict literals are different
    objects, whatever their names and fields. *)
Theorem C5_container_literals W fn lookup elts st path s ts s' :
  mapM (fun elt => _infer_expr_type W fn lookup elt st path) elts s
    = Ok (ts, s') ->
  _infer_expr_type W fn lookup (Tuple elts) st path s = Ok (TTuple ts, s') /\
  (ts = [] ->
   _infer_expr_type W fn lookup (List elts) st path s = Ok (TList TAny, s') /\
   _infer_expr_type W fn lookup (Set_ elts) st path s = Ok (TSet TAny, s')) /\
  (forall t0 rest, ts = t0 :: rest ->
     (forallb (fun t => ty_eqb t0 t) rest = true ->
      _infer_expr_type W fn lookup (List elts) st path s = Ok (TList t0, s') /\
      _infer_expr_type W fn lookup (Set_ elts) st path s = Ok (TSet t0, s')) /\
     (forallb (fun t => ty_eqb t0 t) rest = false ->
      _infer_expr_type W fn lookup (List elts) st path s
        = bind (mk_union (py_set ts)) (fun u => ret (TList u)) s' /\
      _infer_expr_type W fn lookup (Set_ elts) st path s
        = bind (mk_union (py_set ts)) (fun u => ret (TSet u)) s' /\
      2 <= length (py_set ts) /\
      distinct_from [] (py_set ts) = true /\
      (forall x, In x ts -> ty_mem x (py_set ts) = true) /\
      (forall x, In x (py_set ts) -> In x ts))).
Proof.
  intros H. destruct elts as [|e elts].
  - simpl in H. inv_run H. subst ts s'.
    repeat split; try reflexivity; intros; discriminate.
  - pose proof (mapM_cons_inv _ _ _ _ _ _ H) as (y & s1 & ys & _ & _ & Hts).
    split; [| split].
    + change (bind (mapM (fun elt => _infer_expr_type W fn lookup elt st path)
                      (e :: elts))
                (fun element_types => ret (TTuple element_types)) s
              = Ok (TTuple ts, s')).
      now rewrite (bind_Ok _ _ _ _ _ H).
    + intros ->. discriminate.
    + intros t0 rest Hcons.
      assert (HL : forall wrap : ty -> ty,
        bind (mapM (fun elt => _infer_expr_type W fn lookup elt st path)
                (e :: elts))
          (fun element_types =>
             if one_type element_types then
               let* t := first_type element_types in ret (wrap t)
             else
               let* u := union_of_set element_types in ret (wrap u)) s
        = (if forallb (fun t => ty_eqb t0 t) rest then ret (wrap t0)
           else bind (mk_union (py_set ts)) (fun u => ret (wrap u))) s').
      { intros wrap. rewrite (bind_Ok _ _ _ _ _ H).
        rewrite Hcons, one_type_first.
        destruct (forallb (fun t => ty_eqb t0 t) rest); reflexivity. }
      split.
      * intros Hall. rewrite Hall in HL.
        split; [exact (HL TList) | exact (HL TSet)].
      * intros Hall. rewrite Hall in HL.
        split; [exact (HL TList) |]. split; [exact (HL TSet) |].
        rewrite Hcons. split; [now apply py_set_two |].
        split; [apply py_set_from_distinct |].
        split; [intros x Hx; exact (py_set_from_covers _ [] x Hx) |].
        intros x Hx. exact (py_set_from_In _ [] x Hx).
Qed.

Lemma C5_witness :
  _infer_expr_type Examples.W0 (Examples.def0 "f" []) (fun _ => ret TAny)
    (List [Examples.int_ 1; Examples.int_ 2; Examples.int_ 3]) ∅ [] 0
  = Ok (TList py_int, 0) /\
  _infer_expr_type Examples.W0 (Examples.def0 "f" []) (fun _ => ret TAny)
    (Tuple [Examples.int_ 1; Examples.int_ 2; Examples.int_ 3]) ∅ [] 0
  = Ok (TTuple [py_int; py_int; py_int], 0).
Proof.
  destruct (C5_container_literals Examples.W0 (Examples.def0 "f" [])
              (fun _ => ret TAny)
              [Examples.int_ 1; Examples.int_ 2; Examples.int_ 3] ∅ [] 0
              [py_int; py_int; py_int] 0 eq_refl) as (Ht & _ & Hl).
  split; [| exact Ht].
  destruct (Hl py_int [py_int; py_int] eq_refl) as [Hsame _].
  exact (proj1 (Hsame eq_refl)).
Defined.

(** The claim of C5 fails on tuple literals: [(1, 1)] and [(1, 1, 1)] have
    different types although the elements of both share the type [int],
    and [(1, "x")] gets [tuple[int, str]], in which no union occurs.  It
    also fails on the list of two equal record literals, whose element
    type is a union of two classes of the same name and fields. *)
Lemma C5_counterexample :
  ~ homogeneous_container_law Examples.W0 (Examples.def0 "f" []) Tuple /\
  (exists t,
      _infer_expr_type Examples.W0 (Examples.def0 "f" []) (fun _ => ret TAny)
        (Tuple [Examples.int_ 1; Examples.str_ "x"]) ∅ [] 0 = Ok (t, 0) /\
      t = TTuple [py_int; py_str] /\ mentions_union t = false) /\
  (exists t1 t2 s,
      _infer_expr_type Examples.W0 (Examples.def0 "f" []) (fun _ => ret TAny)
        (List [Examples.record_ [("a", Examples.int_ 1)];
               Examples.record_ [("a", Examples.int_ 1)]]) ∅ [] 0
        = Ok (TList (TUnion [t1; t2]), s) /\
      same_structure t1 t2 = true).
Proof.
  split; [| split].
  - intros [container Hlaw].
    assert (H2 := Hlaw [Examples.int_ 1; Examples.int_ 1] py_int).
    assert (H3 := Hlaw [Examples.int_ 1; Examples.int_ 1; Examples.int_ 1]
                    py_int).
    assert (E2 : Ok (TTuple [py_int; py_int], 0) = Ok (container py_int, 0)).
    { apply H2; [discriminate |].
      intros e [<- | [<- | []]]; reflexivity. }
    assert (E3 : Ok (TTuple [py_int; py_int; py_int], 0)
                 = Ok (container py_int, 0)).
    { apply H3; [discriminate |].
      intros e [<- | [<- | [<- | []]]]; reflexivity. }
    rewrite <- E2 in E3. discriminate.
  - eexists. repeat split.
  - eexists _, _, _. split; [vm_compute; reflexivity | reflexivity].
Qed.

(** ** Where inference returns *)

Section expr_induction.

Variable P : expr -> Prop.
Hypothesis HDict :
  forall items,
    Forall (fun item =>
              match fst item with
              | Some k => P k
              | None => True
              end /\ P (snd item)) items ->
    P (Dict items).
Hypothesis HList : forall elts, Forall P elts -> P (List elts).
Hypothesis HTuple : forall elts, Forall P elts -> P (Tuple elts).
Hypothesis HSet : forall elts, Forall P elts -> P (Set_ elts).
Hypothesis HConstant : forall c, P (Constant c).
Hypothesis HName : forall id, P (Name id).
Hypothesis HCall : forall f args, P f -> Forall P args -> P (Call f args).
Hypothesis HBinOp : forall l op r, P l -> P r -> P (BinOp l op r).
Hypothesis HCompare : forall l cs, P l -> Forall P cs -> P (Compare l cs).
Hypothesis HIfExp : forall c b o, P c -> P b -> P o -> P (IfExp c b o).
Hypothesis HSubscript : forall v sl, P v -> P sl -> P (Subscript v sl).
Hypothesis HAttribute : forall v a, P v -> P (Attribute v a).
Hypothesis HLambda : forall b, P b -> P (Lambda b).

Lemma expr_nested_ind : forall e : expr, P e.
Proof.
  exact
    (fix expr_nested_ind (e : expr) : P e :=
      let all := fix all (l : list expr) : Forall P l :=
        match l with
        | [] => @List.Forall_nil _ P
        | x :: l' => @List.Forall_cons _ P x l' (expr_nested_ind x) (all l')
        end in
      match e with
      | Dict items =>
          HDict items
            ((fix all_items (l : list (option expr * expr))
                : Forall (fun item =>
                            match fst item with
                            | Some k => P k
                            | None => True
                            end /\ P (snd item)) l :=
                match l with
                | [] => @List.Forall_nil _ _
                | item :: l' =>
                    @List.Forall_cons _
                      (fun item =>
                         match fst item with
                         | Some k => P k
                         | None => True
                         end /\ P (snd item))
                      item l'
                      (conj
                         (match fst item as o
                            return match o with
                                   | Some k => P k
                                   | None => True
                                   end with
                          | Some k0 => expr_nested_ind k0
                          | None => I
                          end)
                         (expr_nested_ind (snd item)))
                      (all_items l')
                end) items)
      | List elts => HList elts (all elts)
      | Tuple elts => HTuple elts (all elts)
      | Set_ elts => HSet elts (all elts)
      | Constant c => HConstant c
      | Name id => HName id
      | Call f args => HCall f args (expr_nested_ind f) (all args)
      | BinOp l op r => HBinOp l op r (expr_nested_ind l) (expr_nested_ind r)
      | Compare l cs => HCompare l cs (expr_nested_ind l) (all cs)
      | IfExp c b o =>
          HIfExp c b o (expr_nested_ind c) (expr_nested_ind b) (expr_nested_ind o)
      | Subscript v sl => HSubscript v sl (expr_nested_ind v) (expr_nested_ind sl)
      | Attribute v a => HAttribute v a (expr_nested_ind v)
      | Lambda b => HLambda b (expr_nested_ind b)
      end).
Qed.

End expr_induction.


Lemma usable_unionable t : usable t = true -> unionable t = true.
Proof. destruct t; simpl; auto. Qed.

Lemma usable_union_args t :
  usable t = true ->
  union_args t <> [] /\ forall m, In m (union_args t) -> usable m = true.
Proof.
  destruct t; simpl; intros H;
    try (split; [discriminate | intros m [<- | []]; exact H]).
  apply andb_true_iff in H as [Hlen Hall]. split.
  - destruct members; [discriminate | discriminate].
  - intros m Hm. rewrite forallb_forall in Hall. now apply Hall.
Qed.

Lemma py_set_cons x l : py_set (x :: l) = x :: py_set_from [x] l.
Proof. reflexivity. Qed.

(** [Union[...]] returns when it has a parameter and the parameters are
    usable. *)
Lemma mk_union_total params s :
  params <> [] ->
  (forall p, In p params -> usable p = true) ->
  exists r, mk_union params s = Ok (r, s) /\ usable r = true.
Proof.
  intros Hne Hall.
  assert (Hb : existsb is_bare_union params = false).
  { destruct (existsb is_bare_union params) eqn:E; [| reflexivity].
    apply existsb_exists in E as (p & Hp & Hbare).
    now rewrite (unionable_not_bare _ (usable_unionable _ (Hall p Hp)))
      in Hbare. }
  rewrite (mk_union_checked params Hne Hb).
  assert (Hmem : forall m, In m (flat_map union_args params) ->
                           usable m = true).
  { intros m Hm. apply in_flat_map in Hm as (p & Hp & Hm).
    now apply (usable_union_args p (Hall p Hp)). }
  assert (Hin : forall m, In m (py_set (flat_map union_args params)) ->
                          usable m = true).
  { intros m Hm. apply Hmem. exact (py_set_from_In _ [] m Hm). }
  destruct params as [|p params]; [now destruct Hne |].
  destruct (flat_map union_args (p :: params)) as [|m0 F] eqn:EF.
  { exfalso. simpl in EF. apply app_eq_nil in EF as [E _].
    now apply (usable_union_args p (Hall p (or_introl eq_refl))). }
  rewrite py_set_cons in *.
  destruct (py_set_from [m0] F) as [|m1 ms] eqn:E.
  - exists m0. split; [reflexivity | apply Hin; now left].
  - exists (TUnion (m0 :: m1 :: ms)). split; [reflexivity |].
    simpl. rewrite !Hin by (simpl; auto). simpl.
    apply forallb_forall. intros m Hm. apply Hin. simpl. auto.
Qed.

Lemma union_or_total a b s :
  usable a = true -> usable b = true ->
  exists r, union_or a b s = Ok (r, s) /\ usable r = true.
Proof.
  intros Ha Hb. unfold union_or.
  rewrite (usable_unionable _ Ha), (usable_unionable _ Hb). cbn [andb].
  apply mk_union_total; [discriminate |].
  intros p [<- | [<- | []]]; assumption.
Qed.

Lemma mapM_total {A B} (f : A -> M B) (Q : B -> Prop) l :
  (forall x, In x l -> forall s, exists y s', f x s = Ok (y, s') /\ Q y) ->
  forall s, exists ys s',
    mapM f l s = Ok (ys, s') /\ (forall y, In y ys -> Q y) /\
    length ys = length l.
Proof.
  induction l as [|x l IH]; intros Hf s.
  - exists [], s. repeat split; auto. intros y [].
  - destruct (Hf x (or_introl eq_refl) s) as (y & s1 & Hy & HQ).
    destruct (IH (fun x' Hx' => Hf x' (or_intror Hx')) s1)
      as (ys & s2 & Hys & HQs & Hlen).
    exists (y :: ys), s2. repeat split.
    + simpl. rewrite (bind_Ok _ _ _ _ _ Hy), (bind_Ok _ _ _ _ _ Hys).
      reflexivity.
    + intros y' [<- | Hy']; auto.
    + simpl. now rewrite Hlen.
Qed.

Lemma first_type_total ts s :
  ts <> [] -> (forall t, In t ts -> usable t = true) ->
  exists t, first_type ts s = Ok (t, s) /\ usable t = true.
Proof.
  destruct ts as [|t ts]; [easy |]. intros _ H.
  exists t. split; [reflexivity | apply H; now left].
Qed.

Lemma union_of_set_total ts s :
  ts <> [] -> (forall t, In t ts -> usable t = true) ->
  exists t, union_of_set ts s = Ok (t, s) /\ usable t = true.
Proof.
  intros Hne H. unfold union_of_set.
  apply mk_union_total.
  - destruct ts as [|t ts]; [easy |]. rewrite py_set_cons. discriminate.
  - intros p Hp. apply H. exact (py_set_from_In _ [] p Hp).
Qed.

(** The element type of a list or set literal, wrapped. *)
Lemma element_type_total (wrap : ty -> ty) ts s :
  ts <> [] -> (forall t, In t ts -> usable t = true) ->
  exists e,
    (if one_type ts then let* t := first_type ts in ret (wrap t)
     else let* u := union_of_set ts in ret (wrap u)) s = Ok (wrap e, s) /\
    usable e = true.
Proof.
  intros Hne H. destruct (one_type ts).
  - destruct (first_type_total ts s Hne H) as (t & Ht & Hu).
    exists t. now rewrite (bind_Ok _ _ _ _ _ Ht).
  - destruct (union_of_set_total ts s Hne H) as (t & Ht & Hu).
    exists t. now rewrite (bind_Ok _ _ _ _ _ Ht).
Qed.

Lemma dict_free_keys e : dict_free e = true -> keys_dict_free e = true.
Proof.
  induction e as [items _ | elts IH | elts IH | elts IH | c | id
                 | f args _ _ | l op r IHl IHr | l cs _ _
                 | c b o _ IHb IHo | v sl _ _ | v a _ | b _]
    using expr_nested_ind;
    simpl; intros H; try reflexivity; try discriminate.
  1-3: (rewrite forallb_forall in *; intros x Hx;
        rewrite List.Forall_forall in IH; apply IH; auto).
  - apply andb_true_iff in H as [H1 H2]. now rewrite IHl, IHr.
  - apply andb_true_iff in H as [H1 H2]. now rewrite IHb, IHo.
Qed.

Lemma add_components_total path :
  forallb is_PStr path = true ->
  forall class_name s, exists n, add_components class_name path s = Ok (n, s).
Proof.
  induction path as [|[k|k] path IH]; simpl; intros H class_name s.
  - eauto.
  - destruct (IH H (class_name +:+
                    _snake_case_to_capital_case
                      (PyStr.keep_chars PyStr.isalnum k)) s) as (n & Hn).
    exists n. exact Hn.
  - discriminate.
Qed.

Lemma is_PStr_app path k :
  forallb is_PStr path = true -> forallb is_PStr (path ++ [PStr k]) = true.
Proof. intros H. rewrite forallb_app, H. reflexivity. Qed.

Section Record_totality.

Variable fn : func.
Variable infer : expr -> gmap string ty -> list path_component -> M ty.
Variable st : gmap string ty.

Lemma dict_set_In d k v f : In f (dict_set d k v) -> f = (k, v) \/ In f d.
Proof.
  induction d as [|[k' v'] d IH]; simpl.
  - intros [<- | []]. now left.
  - destruct (String.eqb k' k).
    + intros [<- | H]; auto.
    + intros [<- | H]; auto. destruct (IH H); auto.
Qed.

Lemma collect_fields_total items :
  (forall item, In item items -> forall p s,
      forallb is_PStr p = true ->
      exists t s', infer (snd item) st p s = Ok (t, s') /\ usable t = true) ->
  forall path field_types s,
    forallb is_PStr path = true ->
    (forall f, In f field_types -> usable (snd f) = true) ->
    exists fs valid s',
      collect_fields infer items st path field_types s = Ok ((fs, valid), s')
      /\ forall f, In f fs -> usable (snd f) = true.
Proof.
  induction items as [|[key value] items IH]; intros Hv path fields s Hp Hf;
    simpl.
  - eauto.
  - destruct (is_str_key key) as [k|]; [| eauto].
    destruct (Hv (key, value) (or_introl eq_refl) (path ++ [PStr k]) s
                (is_PStr_app _ _ Hp)) as (t & s1 & Ht & Hu).
    rewrite (bind_Ok _ _ _ _ _ Ht).
    apply IH; [| exact Hp |].
    + intros item Hi. apply Hv. now right.
    + intros f Hin. apply dict_set_In in Hin as [-> | Hin]; auto.
Qed.

Lemma TypedDict_total class_name fields s :
  (forall f, In f fields -> usable (snd f) = true) ->
  TypedDict class_name fields s = Ok (TTypedDict s class_name fields, S s).
Proof.
  intros Hf. unfold TypedDict.
  destruct (existsb (fun field => is_bare_union (snd field)) fields) eqn:E;
    [| reflexivity].
  apply existsb_exists in E as (f & Hin & Hb).
  now rewrite (unionable_not_bare _ (usable_unionable _ (Hf f Hin))) in Hb.
Qed.

(** Record synthesis returns at a path of key strings when the inference
    of the values returns at such paths and the inference of the keys
    returns at every path. *)
Lemma create_typed_dict_total items path s :
  forallb is_PStr path = true ->
  (forall item, In item items -> forall p s,
      forallb is_PStr p = true ->
      exists t s', infer (snd item) st p s = Ok (t, s') /\ usable t = true) ->
  (forall item k, In item items -> fst item = Some k -> forall p s,
      exists t s', infer k st p s = Ok (t, s') /\ usable t = true) ->
  exists t s',
    create_typed_dict fn infer items st path s = Ok (t, s') /\
    usable t = true.
Proof.
  intros Hp Hv Hk. unfold create_typed_dict.
  destruct (collect_fields_total items Hv path [] s Hp)
    as (fs & valid & s1 & Hc & Hfs); [intros f [] |].
  rewrite (bind_Ok _ _ _ _ _ Hc).
  destruct (valid && negb (Nat.eqb (length fs) 0)).
  - destruct (add_components_total path Hp
                (_snake_case_to_capital_case (__name__ fn) +:+ "Return") s1)
      as (n & Hn).
    rewrite (bind_Ok _ _ _ _ _ Hn), (TypedDict_total _ _ _ Hfs). eauto.
  - destruct items as [|item rest_items] eqn:Ei; [eexists _, _; split; reflexivity |].
    rewrite <- Ei in *.
    assert (Hne : items <> []) by (rewrite Ei; discriminate).
    destruct (mapM_total
                (fun item => infer_key infer (fst item) st
                               (path ++ [PNode (fst item)]))
                (fun t => usable t = true) items) with (s := s1)
      as (kts & s2 & Hkts & Hku & Hklen).
    { intros it Hit s0. unfold infer_key.
      destruct (fst it) as [k|] eqn:Ek; [eapply Hk; eauto |].
      eexists _, _; split; reflexivity. }
    destruct (mapM_total (fun item => infer (snd item) st path)
                (fun t => usable t = true) items) with (s := s2)
      as (vts & s3 & Hvts & Hvu & Hvlen).
    { intros it Hit s0. apply Hv; assumption. }
    rewrite (bind_Ok _ _ _ _ _ Hkts), (bind_Ok _ _ _ _ _ Hvts).
    assert (Hkne : kts <> []).
    { intros ->. destruct items; [now apply Hne | discriminate]. }
    assert (Hvne : vts <> []).
    { intros ->. destruct items; [now apply Hne | discriminate]. }
    destruct (first_type_total kts s3 Hkne Hku) as (k1 & Hk1 & _).
    destruct (first_type_total vts s3 Hvne Hvu) as (v1 & Hv1 & _).
    destruct (union_of_set_total kts s3 Hkne Hku) as (k2 & Hk2 & _).
    destruct (union_of_set_total vts s3 Hvne Hvu) as (v2 & Hv2 & _).
    destruct (one_type kts), (one_type vts); cbn [andb];
      rewrite ?(bind_Ok _ _ _ _ _ Hk1), ?(bind_Ok _ _ _ _ _ Hk2),
        ?(bind_Ok _ _ _ _ _ Hv1), ?(bind_Ok _ _ _ _ _ Hv2);
      eexists _, _; split; reflexivity.
Qed.

End Record_totality.

Section Totality.

Variable W : world.
Variable fn : func.
Variable lookup : string -> M ty.
Hypothesis Hlookup : lookup_returns lookup.

Lemma is_class_usable t : is_class t = true -> usable t = true.
Proof. destruct t; simpl; auto; discriminate. Qed.

Lemma elts_total elts :
  Forall (fun e => forall st path s,
            usable_table st ->
            keys_dict_free e = true ->
            dict_free e = true \/ forallb is_PStr path = true ->
            exists t s',
              _infer_expr_type W fn lookup e st path s = Ok (t, s') /\
              usable t = true) elts ->
  forall st path s,
    usable_table st ->
    forallb keys_dict_free elts = true ->
    forallb dict_free elts = true \/ forallb is_PStr path = true ->
    exists ts s1,
      mapM (fun elt => _infer_expr_type W fn lookup elt st path) elts s
        = Ok (ts, s1) /\
      (forall t, In t ts -> usable t = true) /\
      length ts = length elts.
Proof.
  intros IH st path s Hst Hkeys Hpath.
  rewrite List.Forall_forall in IH. rewrite forallb_forall in Hkeys.
  apply mapM_total. intros x Hx s0. apply IH; auto.
  destruct Hpath as [Hd | Hp]; [left | now right].
  rewrite forallb_forall in Hd. now apply Hd.
Qed.

(** Expression inference returns a usable type on every expression with
    no dict literal inside a dict key, at a path of key strings (or at any
    path when the expression has no dict literal at all). *)
Lemma infer_total e : forall st path s,
  usable_table st ->
  keys_dict_free e = true ->
  dict_free e = true \/ forallb is_PStr path = true ->
  exists t s',
    _infer_expr_type W fn lookup e st path s = Ok (t, s') /\ usable t = true.
Proof.
  induction e as [items IH | elts IH | elts IH | elts IH | c | id
                 | f args _ _ | l op r IHl IHr | l cs _ _
                 | c b o _ IHb IHo | v sl _ _ | v a _ | b _]
    using expr_nested_ind; intros st path s Hst Hkeys Hpath.
  - (* Dict *)
    destruct Hpath as [Hd | Hp]; [discriminate |].
    change (exists t s',
      create_typed_dict fn (_infer_expr_type W fn lookup) items st path s
        = Ok (t, s') /\ usable t = true).
    simpl in Hkeys. rewrite forallb_forall in Hkeys.
    rewrite List.Forall_forall in IH.
    apply create_typed_dict_total; [exact Hp | |].
    + intros item Hi p s0 Hp0.
      apply (proj2 (IH item Hi)); auto.
      specialize (Hkeys item Hi). now apply andb_true_iff in Hkeys as [_ ?].
    + intros item k Hi Ek p s0.
      pose proof (proj1 (IH item Hi)) as IHk. rewrite Ek in IHk.
      specialize (Hkeys item Hi). rewrite Ek in Hkeys.
      apply andb_true_iff in Hkeys as [Hk _].
      apply IHk; auto. now apply dict_free_keys.
  - (* List *)
    destruct (elts_total elts IH st path s Hst Hkeys Hpath)
      as (ts & s1 & Hts & Hu & Hlen).
    destruct elts as [|e elts]; [eexists _, _; split; reflexivity |].
    assert (Hne : ts <> []) by (intros ->; discriminate).
    destruct (element_type_total TList ts s1 Hne Hu) as (t & Ht & _).
    exists (TList t), s1. split; [| reflexivity].
    change (bind (mapM (fun elt => _infer_expr_type W fn lookup elt st path)
                    (e :: elts))
              (fun element_types =>
                 if one_type element_types then
                   let* t := first_type element_types in ret (TList t)
                 else
                   let* u := union_of_set element_types in ret (TList u)) s
            = Ok (TList t, s1)).
    now rewrite (bind_Ok _ _ _ _ _ Hts).
  - (* Tuple *)
    destruct (elts_total elts IH st path s Hst Hkeys Hpath)
      as (ts & s1 & Hts & Hu & Hlen).
    destruct elts as [|e elts]; [eexists _, _; split; reflexivity |].
    exists (TTuple ts), s1. split; [| reflexivity].
    change (bind (mapM (fun elt => _infer_expr_type W fn lookup elt st path)
                    (e :: elts))
              (fun element_types => ret (TTuple element_types)) s
            = Ok (TTuple ts, s1)).
    now rewrite (bind_Ok _ _ _ _ _ Hts).
  - (* Set *)
    destruct (elts_total elts IH st path s Hst Hkeys Hpath)
      as (ts & s1 & Hts & Hu & Hlen).
    destruct elts as [|e elts]; [eexists _, _; split; reflexivity |].
    assert (Hne : ts <> []) by (intros ->; discriminate).
    destruct (element_type_total TSet ts s1 Hne Hu) as (t & Ht & _).
    exists (TSet t), s1. split; [| reflexivity].
    change (bind (mapM (fun elt => _infer_expr_type W fn lookup elt st path)
                    (e :: elts))
              (fun element_types =>
                 if one_type element_types then
                   let* t := first_type element_types in ret (TSet t)
                 else
                   let* u := union_of_set element_types in ret (TSet u)) s
            = Ok (TSet t, s1)).
    now rewrite (bind_Ok _ _ _ _ _ Hts).
  - (* Constant *)
    exists (type_of_constant c), s. split; [reflexivity | now destruct c].
  - (* Name *)
    simpl. destruct (st !! id) as [t|] eqn:E.
    + exists t, s. split; [reflexivity | eapply Hst; eauto].
    + destruct (__builtins__ W id) as [t|]; [| apply Hlookup].
      destruct (is_class t) eqn:Hc; [| apply Hlookup].
      exists t, s. split; [reflexivity | now apply is_class_usable].
  - (* Call *)
    destruct f; try (eexists _, _; split; reflexivity).
    simpl.
    repeat match goal with
           | |- context [if String.eqb ?a ?b then _ else _] =>
               destruct (String.eqb a b)
           end;
      try (eexists _, _; split; reflexivity).
    apply Hlookup.
  - (* BinOp *)
    simpl in Hkeys. apply andb_true_iff in Hkeys as [Hkl Hkr].
    assert (Hpl : dict_free l = true \/ forallb is_PStr path = true).
    { destruct Hpath as [Hd | Hp]; [left | now right].
      simpl in Hd. now apply andb_true_iff in Hd as [? _]. }
    assert (Hpr : dict_free r = true \/ forallb is_PStr path = true).
    { destruct Hpath as [Hd | Hp]; [left | now right].
      simpl in Hd. now apply andb_true_iff in Hd as [_ ?]. }
    destruct (IHl st path s Hst Hkl Hpl) as (tl & s1 & Hl & _).
    destruct (IHr st path s1 Hst Hkr Hpr) as (tr & s2 & Hr & _).
    simpl. rewrite (bind_Ok _ _ _ _ _ Hl), (bind_Ok _ _ _ _ _ Hr).
    repeat match goal with
           | |- context [if ?c then _ else _] => destruct c
           end; eexists _, _; split; reflexivity.
  - (* Compare *)
    eexists _, _; split; reflexivity.
  - (* IfExp *)
    simpl in Hkeys. apply andb_true_iff in Hkeys as [Hkb Hko].
    assert (Hpb : dict_free b = true \/ forallb is_PStr path = true).
    { destruct Hpath as [Hd | Hp]; [left | now right].
      simpl in Hd. now apply andb_true_iff in Hd as [? _]. }
    assert (Hpo : dict_free o = true \/ forallb is_PStr path = true).
    { destruct Hpath as [Hd | Hp]; [left | now right].
      simpl in Hd. now apply andb_true_iff in Hd as [_ ?]. }
    destruct (IHb st path s Hst Hkb Hpb) as (tb & s1 & Hb & Hub).
    destruct (IHo st path s1 Hst Hko Hpo) as (to & s2 & Ho & Huo).
    destruct (union_or_total tb to s2 Hub Huo) as (u & Hu & Huu).
    exists u, s2. split; [| exact Huu].
    simpl. now rewrite (bind_Ok _ _ _ _ _ Hb), (bind_Ok _ _ _ _ _ Ho).
  - eexists _, _; split; reflexivity.
  - eexists _, _; split; reflexivity.
  - eexists _, _; split; reflexivity.
Qed.

End Totality.

Section Resolution_totality.

Variable W : world.
Variable lookup : string -> M ty.
Hypothesis Hlookup : lookup_returns lookup.

Lemma resolve_total_aux ann :
  resolves W lookup ann /\
  match ann with
  | Tuple elts => Forall (resolves W lookup) elts
  | _ => True
  end.
Proof.
  unfold resolves.
  induction ann as [items _ | elts _ | elts IH | elts _ | c | id
                   | f args _ _ | l op r _ _ | l cs _ _
                   | c b o _ _ _ | v sl _ IHsl | v a _ | b _]
    using expr_nested_ind;
    try (split; [intros _ s; eexists _, _; split; reflexivity | exact I]).
  - (* Tuple *)
    split; [intros _ s; eexists _, _; split; reflexivity |].
    rewrite List.Forall_forall in *. intros x Hx. now apply IH.
  - (* Name *)
    split; [| exact I]. intros Hw s. simpl in *.
    destruct (__builtins__ W id) as [t|] eqn:E.
    + exists t, s. split; [reflexivity | exact Hw].
    + apply Hlookup.
  - (* Subscript *)
    split; [| exact I]. destruct IHsl as [Hsl Helts].
    intros Hw s.
    destruct v; try (eexists _, _; split; reflexivity).
    simpl in Hw |- *.
    destruct (is_base id "List" "list").
    { destruct (Hsl Hw s) as (t & s' & Ht & _).
      rewrite (bind_Ok _ _ _ _ _ Ht). eexists _, _; split; reflexivity. }
    destruct (is_base id "Dict" "dict").
    { destruct sl; try (eexists _, _; split; reflexivity).
      destruct elts as [|k [|v rest]]; try discriminate.
      apply andb_true_iff in Hw as [Hk Hv].
      rewrite List.Forall_forall in Helts.
      destruct (Helts k (or_introl eq_refl) Hk s) as (tk & s1 & Htk & _).
      destruct (Helts v (or_intror (or_introl eq_refl)) Hv s1)
        as (tv & s2 & Htv & _).
      rewrite (bind_Ok _ _ _ _ _ Htk), (bind_Ok _ _ _ _ _ Htv).
      eexists _, _; split; reflexivity. }
    destruct (is_base id "Set" "set").
    { destruct (Hsl Hw s) as (t & s' & Ht & _).
      rewrite (bind_Ok _ _ _ _ _ Ht). eexists _, _; split; reflexivity. }
    destruct (is_base id "Tuple" "tuple").
    { destruct sl; try (eexists _, _; split; reflexivity).
      rewrite List.Forall_forall in Helts. rewrite forallb_forall in Hw.
      destruct (mapM_total (_resolve_annotation W lookup)
                  (fun t => usable t = true) elts) with (s := s)
        as (ts & s1 & Hts & _ & _).
      { intros x Hx s0. apply Helts; auto. }
      rewrite (bind_Ok _ _ _ _ _ Hts). eexists _, _; split; reflexivity. }
    destruct (String.eqb id "Optional").
    { destruct (Hsl Hw s) as (t & s' & Ht & Hi).
      rewrite (bind_Ok _ _ _ _ _ Ht).
      destruct (mk_union_total [t; py_NoneType] s')
        as (r & Hr & Hri); [discriminate | | eauto].
      intros p [<- | [<- | []]]; [exact Hi | reflexivity]. }
    destruct (String.eqb id "Union").
    { destruct sl; try discriminate.
      apply andb_true_iff in Hw as [Hne Hw].
      rewrite List.Forall_forall in Helts. rewrite forallb_forall in Hw.
      destruct (mapM_total (_resolve_annotation W lookup)
                  (fun t => usable t = true) elts) with (s := s)
        as (ts & s1 & Hts & Hi & Hlen).
      { intros x Hx s0. apply Helts; auto. }
      rewrite (bind_Ok _ _ _ _ _ Hts).
      destruct (mk_union_total ts s1)
        as (r & Hr & Hri); [| exact Hi | eauto].
      intros ->. destruct elts; discriminate. }
    eexists _, _; split; reflexivity.
Qed.

(** Annotation resolution returns on every well-formed annotation. *)
Lemma resolve_total ann s :
  well_formed_annotation W ann = true ->
  exists t s',
    _resolve_annotation W lookup ann s = Ok (t, s') /\ usable t = true.
Proof. intros Hw. now apply (proj1 (resolve_total_aux ann)). Qed.

End Resolution_totality.

Section Driver_totality.

Variable W : world.
Variable fn : func.
Variable lookup : string -> M ty.
Hypothesis Hlookup : lookup_returns lookup.

Lemma usable_table_empty : usable_table ∅.
Proof. intros x t H. now rewrite lookup_empty in H. Qed.

Lemma usable_table_insert (st : gmap string ty) x t :
  usable_table st -> usable t = true -> usable_table (<[x := t]> st).
Proof.
  intros Hst Ht y u H. destruct (decide (x = y)) as [->|Hne].
  - rewrite lookup_insert_eq in H. now injection H as <-.
  - rewrite lookup_insert_ne in H by assumption. eapply Hst; eauto.
Qed.

Lemma usable_table_bind_targets targets t : forall st : gmap string ty,
  usable_table st -> usable t = true ->
  usable_table (bind_targets targets t st).
Proof.
  unfold bind_targets.
  induction targets as [|target targets IH]; intros st Hst Ht; simpl;
    [exact Hst |].
  apply IH; [| exact Ht].
  destruct target; try exact Hst. now apply usable_table_insert.
Qed.

Lemma seed_total args : forall (st : gmap string ty) s,
  forallb (seedable W) args = true -> usable_table st ->
  exists st' s',
    foldM (seed_parameter W lookup) args st s = Ok (st', s') /\
    usable_table st'.
Proof.
  induction args as [|a args IH]; intros st s Hargs Hst; simpl.
  - eauto.
  - simpl in Hargs. apply andb_true_iff in Hargs as [Ha Hargs].
    unfold seed_parameter at 1. unfold seedable in Ha.
    destruct (annotation a) as [ann|].
    + destruct (resolve_total W lookup Hlookup ann s Ha) as (t & s1 & Ht & Hu).
      rewrite (bind_Ok _ _ _ _ _ (bind_Ok _ _ _ _ _ Ht)).
      apply IH; [exact Hargs | now apply usable_table_insert].
    + apply IH; assumption.
Qed.

Lemma analyze_node_total node (st : gmap string ty) s :
  analyzable W node = true -> usable_table st ->
  exists st' s',
    analyze_node W fn lookup st node s = Ok (st', s') /\ usable_table st'.
Proof.
  intros Hn Hst. destruct node; simpl in *; eauto.
  - destruct (infer_total W fn lookup Hlookup value st [] s Hst Hn
                (or_intror eq_refl)) as (t & s1 & Ht & Hu).
    rewrite (bind_Ok _ _ _ _ _ Ht).
    eexists _, _. split; [reflexivity |].
    now apply usable_table_bind_targets.
  - destruct target; eauto.
    destruct (resolve_total W lookup Hlookup ann s Hn) as (t & s1 & Ht & Hu).
    rewrite (bind_Ok _ _ _ _ _ Ht).
    eexists _, _. split; [reflexivity |]. now apply usable_table_insert.
Qed.

Lemma analyze_total nodes : forall (st : gmap string ty) s,
  forallb (analyzable W) nodes = true -> usable_table st ->
  exists T s',
    foldM (analyze_node W fn lookup) nodes st s = Ok (T, s') /\
    usable_table T.
Proof.
  induction nodes as [|node nodes IH]; intros st s Hn Hst; simpl.
  - eauto.
  - simpl in Hn. apply andb_true_iff in Hn as [Hnode Hn].
    destruct (analyze_node_total node st s Hnode Hst) as (st1 & s1 & H1 & Hst1).
    rewrite (bind_Ok _ _ _ _ _ H1). now apply IH.
Qed.

Lemma collect_total T nodes : forall acc s,
  usable_table T ->
  forallb (analyzable W) nodes = true ->
  (forall t, In t acc -> usable t = true) ->
  exists rts s',
    foldM (collect_return W fn lookup T) nodes acc s = Ok (rts, s') /\
    forall t, In t rts -> usable t = true.
Proof.
  induction nodes as [|node nodes IH]; intros acc s HT Hn Hacc; simpl.
  - eauto.
  - simpl in Hn. apply andb_true_iff in Hn as [Hnode Hn].
    assert (Hstep : exists acc1 s1,
      collect_return W fn lookup T acc node s = Ok (acc1, s1) /\
      forall t, In t acc1 -> usable t = true).
    { destruct node; simpl in *; eauto.
      destruct value as [value|]; eauto.
      destruct (infer_total W fn lookup Hlookup value T [] s HT Hnode
                  (or_intror eq_refl)) as (t & s1 & Ht & Hu).
      rewrite (bind_Ok _ _ _ _ _ Ht).
      eexists _, _. split; [reflexivity |].
      intros t' Hin. apply in_app_or in Hin as [Hin | [<- | []]]; auto. }
    destruct Hstep as (acc1 & s1 & H1 & Hacc1).
    rewrite (bind_Ok _ _ _ _ _ H1). now apply IH.
Qed.

Lemma unify_total rts s :
  (forall t, In t rts -> usable t = true) ->
  exists r, unify_return_types rts s = Ok (r, s).
Proof.
  intros H. destruct rts as [|t [|t' rts]]; simpl; eauto.
  destruct (union_of_set_total (t :: t' :: rts) s) as (r & Hr & _);
    [discriminate | exact H | eauto].
Qed.

(** The driver returns on a definition whose annotations are well formed
    and whose assignments and returns have no dict literal inside a dict
    key. *)
Lemma infer_from_def_total name args body returns s :
  match returns with
  | Some ann => well_formed_annotation W ann = true
  | None =>
      forallb (seedable W) args = true /\
      forallb (analyzable W)
        (ast_walk (FunctionDef name args body None)) = true
  end ->
  exists t s',
    infer_from_def W fn lookup (FunctionDef name args body returns) s
      = Ok (t, s').
Proof.
  destruct returns as [ann|].
  - intros Hw. destruct (resolve_total W lookup Hlookup ann s Hw)
      as (t & s' & H & _). simpl. eauto.
  - intros [Hargs Hbody].
    destruct (seed_total args ∅ s Hargs usable_table_empty)
      as (seeded & s0 & Hseed & Hst0).
    destruct (analyze_total _ seeded s0 Hbody Hst0) as (T & s1 & Hana & HT).
    destruct (collect_total T _ [] s1 HT Hbody) as (rts & s2 & Hret & Hu);
      [intros t [] |].
    destruct (unify_total rts s2 Hu) as (r & Hr).
    exists r, s2.
    unfold infer_from_def, _analyze_function_body, bind.
    rewrite Hseed, Hana, Hret. exact Hr.
Qed.

End Driver_totality.

(** The lookup of a module whose attributes are usable classes and
    callables with a usable return annotation returns for every name. *)
Lemma lookup_returns_annotated W depth fn :
  (forall name a,
      module_attr W (__module__ fn) name = Some a ->
      match a with
      | AType t => usable t = true
      | ACallable g =>
          exists t, return_annotation g = Some t /\ usable t = true
      | AOther => True
      end) ->
  lookup_returns (_get_module_type W (get_return_type W (S depth)) fn).
Proof.
  intros H name s. unfold _get_module_type.
  destruct (module_attr W (__module__ fn) name) as [[t | g |]|] eqn:E;
    try (exists TAny, s; split; reflexivity).
  - exists t, s. split; [reflexivity | exact (H _ _ E)].
  - destruct (H _ _ E) as (t & Ht & Hu).
    exists t, s. split; [| exact Hu]. simpl. now rewrite Ht.
Qed.



(** Without a guard against cycles, a function that calls itself makes the
    lookup and the driver call each other until the depth is used up. *)
Lemma recursive_function_exhausts_depth depth s :
  get_return_type W_recursive depth f_recursive s = Raise RecursionError.
Proof.
  revert s. induction depth as [|depth IH]; intros s; [reflexivity |].
  cbn. unfold bind, ret. now rewrite IH.
Qed.


(** ** Every type built is well formed *)

Lemma wf_union_args t :
  wf_ty t = true ->
  forall m, In m (union_args t) -> is_union m = false /\ wf_ty m = true.
Proof.
  intros Hwf m Hm. destruct t; simpl in Hm;
    try (destruct Hm as [<- | []]; split; [reflexivity | exact Hwf]).
  simpl in Hwf. apply andb_true_iff in Hwf as [_ Hall].
  rewrite forallb_forall in Hall. specialize (Hall m Hm).
  apply andb_true_iff in Hall as [Hn Hw].
  split; [now apply negb_true_iff | exact Hw].
Qed.

(** [Union[...]] of well-formed types is well formed. *)
Lemma mk_union_wf params s r s' :
  (forall p, In p params -> wf_ty p = true) ->
  mk_union params s = Ok (r, s') -> wf_ty r = true.
Proof.
  intros Hall H.
  assert (Hmem : forall m, In m (py_set (flat_map union_args params)) ->
                           is_union m = false /\ wf_ty m = true).
  { intros m Hm. apply (py_set_from_In _ []) in Hm.
    apply in_flat_map in Hm as (p & Hp & Hm).
    exact (wf_union_args p (Hall p Hp) m Hm). }
  apply mk_union_Ok_inv in H as (_ & _ & [E | (a & b & ms & E & ->)]).
  - apply Hmem. rewrite E. now left.
  - assert (Hd : distinct_from [] (a :: b :: ms) = true)
      by (rewrite <- E; apply py_set_from_distinct).
    assert (Hm : forallb (fun m => negb (is_union m) && wf_ty m)
                   (a :: b :: ms) = true).
    { apply forallb_forall. intros m Hm. rewrite <- E in Hm.
      destruct (Hmem m Hm) as [Hn Hw]. now rewrite Hn, Hw. }
    change (Nat.leb 2 (length (a :: b :: ms))
            && distinct_from [] (a :: b :: ms)
            && forallb (fun m => negb (is_union m) && wf_ty m)
                 (a :: b :: ms) = true).
    now rewrite Hd, Hm.
Qed.

Lemma union_or_wf a b s r s' :
  wf_ty a = true -> wf_ty b = true ->
  union_or a b s = Ok (r, s') -> wf_ty r = true.
Proof.
  intros Ha Hb H. unfold union_or in H.
  destruct (unionable a && unionable b); [| discriminate].
  eapply mk_union_wf; [| exact H]. intros p [<- | [<- | []]]; assumption.
Qed.

Lemma mapM_post {A B} (f : A -> M B) (Q : B -> Prop) l :
  (forall x, In x l -> forall s y s', f x s = Ok (y, s') -> Q y) ->
  forall s ys s', mapM f l s = Ok (ys, s') -> forall y, In y ys -> Q y.
Proof.
  induction l as [|x l IH]; intros Hf s ys s' H y Hy.
  - simpl in H. inv_run H. subst. destruct Hy.
  - apply mapM_cons_inv in H as (y0 & s1 & ys' & H0 & Hl & ->).
    destruct Hy as [<- | Hy].
    + eapply Hf; [now left | exact H0].
    + eapply IH; [| exact Hl | exact Hy]. intros x' Hx'. apply Hf. now right.
Qed.

Lemma first_type_In ts s t s' : first_type ts s = Ok (t, s') -> In t ts.
Proof.
  destruct ts as [|t0 ts]; simpl; [discriminate |].
  intros H. inv_run H. subst. now left.
Qed.

Lemma union_of_set_wf ts s u s' :
  (forall t, In t ts -> wf_ty t = true) ->
  union_of_set ts s = Ok (u, s') -> wf_ty u = true.
Proof.
  intros Hall. apply mk_union_wf. intros p Hp. apply Hall.
  exact (py_set_from_In _ [] p Hp).
Qed.

(** The element type of a list, set or mapping side is well formed. *)
Lemma element_type_wf (wrap : ty -> ty) ts s r s' :
  (forall t, In t ts -> wf_ty t = true) ->
  (if one_type ts then let* t := first_type ts in ret (wrap t)
   else let* u := union_of_set ts in ret (wrap u)) s = Ok (r, s') ->
  exists e, r = wrap e /\ wf_ty e = true.
Proof.
  intros Hall H. destruct (one_type ts); inv_run H; inv_run H; subst.
  - exists a. split; [reflexivity |]. apply Hall. eapply first_type_In; eauto.
  - exists a. split; [reflexivity |]. eapply union_of_set_wf; eauto.
Qed.

Section Record_wf.

Variable fn : func.
Variable infer : expr -> gmap string ty -> list path_component -> M ty.
Variable st : gmap string ty.

Lemma collect_fields_wf items :
  (forall item, In item items -> forall p s t s',
      infer (snd item) st p s = Ok (t, s') -> wf_ty t = true) ->
  forall path field_types s fs valid s',
    (forall f, In f field_types -> wf_ty (snd f) = true) ->
    collect_fields infer items st path field_types s = Ok ((fs, valid), s') ->
    forall f, In f fs -> wf_ty (snd f) = true.
Proof.
  induction items as [|[key value] items IH];
    intros Hv path fields s fs valid s' Hf H; simpl in H.
  - inv_run H. now injection H0 as <- <-.
  - destruct (is_str_key key) as [k|].
    + inv_run H.
      eapply IH; [| | exact H].
      * intros item Hi. apply Hv. now right.
      * intros f Hin. apply dict_set_In in Hin as [-> | Hin]; auto.
        simpl. eapply (Hv (key, value)); [now left | exact H0].
    + inv_run H. now injection H0 as <- <-.
Qed.

Lemma create_typed_dict_wf items path s t s' :
  (forall item, In item items -> forall p s t s',
      infer (snd item) st p s = Ok (t, s') -> wf_ty t = true) ->
  (forall item k, In item items -> fst item = Some k -> forall p s t s',
      infer k st p s = Ok (t, s') -> wf_ty t = true) ->
  create_typed_dict fn infer items st path s = Ok (t, s') ->
  wf_ty t = true.
Proof.
  intros Hv Hk H. unfold create_typed_dict in H.
  inv_run H. destruct a as [fs valid].
  pose proof (collect_fields_wf items Hv _ _ _ _ _ _
                (fun f (Hf : In f []) => match Hf with end) H0) as Hfs.
  destruct (valid && negb (Nat.eqb (length fs) 0)).
  - inv_run H. unfold TypedDict in H.
    destruct (existsb _ fs); [discriminate |].
    injection H as <- <-. simpl. apply forallb_forall. exact Hfs.
  - destruct items as [|item rest_items] eqn:Ei; [inv_run H; now subst |].
    rewrite <- Ei in *.
    apply bind_Ok_inv in H as (kts & s1 & H1 & H).
    apply bind_Ok_inv in H as (vts & s2 & H2 & H).
    assert (Hkeys : forall y, In y kts -> wf_ty y = true).
    { eapply (mapM_post _ (fun y => wf_ty y = true)); [| exact H1].
      intros it Hit s3 y s4 Hy. unfold infer_key in Hy.
      destruct (fst it) as [k|] eqn:Ek; [eapply Hk; eauto |].
      inv_run Hy. now subst. }
    assert (Hvals : forall y, In y vts -> wf_ty y = true).
    { eapply (mapM_post _ (fun y => wf_ty y = true)); [| exact H2].
      intros it Hit s3 y s4 Hy. exact (Hv it Hit path s3 y s4 Hy). }
    assert (Hfirst : forall ts s3 x s4,
      (forall y, In y ts -> wf_ty y = true) ->
      first_type ts s3 = Ok (x, s4) -> wf_ty x = true).
    { intros ts s3 x s4 Hts Hx. apply Hts. eapply first_type_In; eauto. }
    repeat match type of H with
           | (if ?c then _ else _) _ = _ => destruct c
           end;
      inv_run H; inv_run H; inv_run H; subst t; simpl;
      apply andb_true_iff; split;
      first [ eapply Hfirst; [| eassumption]; assumption
            | eapply union_of_set_wf; [| eassumption]; assumption ].
Qed.

End Record_wf.

Section Invariant.

Variable W : world.
Variable fn : func.
Variable lookup : string -> M ty.
Hypothesis HW : world_wf W.
Hypothesis Hlookup : lookup_wf lookup.

Lemma elts_wf elts :
  Forall (fun e => forall st path s t s',
            table_wf st ->
            _infer_expr_type W fn lookup e st path s = Ok (t, s') ->
            wf_ty t = true) elts ->
  forall st path s ts s',
    table_wf st ->
    mapM (fun elt => _infer_expr_type W fn lookup elt st path) elts s
      = Ok (ts, s') ->
    forall t, In t ts -> wf_ty t = true.
Proof.
  intros IH st path s ts s' Hst H.
  rewrite List.Forall_forall in IH.
  eapply (mapM_post _ (fun y => wf_ty y = true)); [| exact H].
  intros x Hx s0 y s1 Hy. exact (IH x Hx st path s0 y s1 Hst Hy).
Qed.

(** Expression inference returns well-formed types. *)
Lemma infer_wf e : forall st path s t s',
  table_wf st ->
  _infer_expr_type W fn lookup e st path s = Ok (t, s') ->
  wf_ty t = true.
Proof.
  induction e as [items IH | elts IH | elts IH | elts IH | c | id
                 | f args _ _ | l op r IHl IHr | l cs _ _
                 | c b o _ IHb IHo | v sl _ _ | v a _ | b _]
    using expr_nested_ind; intros st path s t s' Hst H.
  - (* Dict *)
    change (create_typed_dict fn (_infer_expr_type W fn lookup) items st path s
            = Ok (t, s')) in H.
    rewrite List.Forall_forall in IH.
    eapply create_typed_dict_wf; [| | exact H].
    + intros item Hi p s0 t0 s1 H0.
      exact (proj2 (IH item Hi) st p s0 t0 s1 Hst H0).
    + intros item k Hi Ek p s0 t0 s1 H0.
      pose proof (proj1 (IH item Hi)) as IHk. rewrite Ek in IHk.
      exact (IHk st p s0 t0 s1 Hst H0).
  - (* List *)
    destruct elts as [|e elts]; [simpl in H; inv_run H; now subst |].
    change (bind (mapM (fun elt => _infer_expr_type W fn lookup elt st path)
                    (e :: elts))
              (fun element_types =>
                 if one_type element_types then
                   let* t := first_type element_types in ret (TList t)
                 else
                   let* u := union_of_set element_types in ret (TList u)) s
            = Ok (t, s')) in H.
    apply bind_Ok_inv in H as (ts & s1 & Hts & H).
    destruct (element_type_wf TList ts s1 t s'
                (elts_wf _ IH st path s ts s1 Hst Hts) H) as (u & -> & Hu).
    exact Hu.
  - (* Tuple *)
    destruct elts as [|e elts]; [simpl in H; inv_run H; now subst |].
    change (bind (mapM (fun elt => _infer_expr_type W fn lookup elt st path)
                    (e :: elts))
              (fun element_types => ret (TTuple element_types)) s
            = Ok (t, s')) in H.
    apply bind_Ok_inv in H as (ts & s1 & Hts & H). inv_run H. subst t.
    simpl. apply forallb_forall.
    exact (elts_wf _ IH st path s ts s1 Hst Hts).
  - (* Set *)
    destruct elts as [|e elts]; [simpl in H; inv_run H; now subst |].
    change (bind (mapM (fun elt => _infer_expr_type W fn lookup elt st path)
                    (e :: elts))
              (fun element_types =>
                 if one_type element_types then
                   let* t := first_type element_types in ret (TSet t)
                 else
                   let* u := union_of_set element_types in ret (TSet u)) s
            = Ok (t, s')) in H.
    apply bind_Ok_inv in H as (ts & s1 & Hts & H).
    destruct (element_type_wf TSet ts s1 t s'
                (elts_wf _ IH st path s ts s1 Hst Hts) H) as (u & -> & Hu).
    exact Hu.
  - (* Constant *)
    simpl in H. inv_run H. subst. now destruct c.
  - (* Name *)
    simpl in H. destruct (st !! id) as [t0|] eqn:E.
    + inv_run H. subst. eapply Hst; eauto.
    + destruct (__builtins__ W id) as [t0|] eqn:Eb; [| eapply Hlookup; eauto].
      destruct (is_class t0); [| eapply Hlookup; eauto].
      inv_run H. subst. eapply (proj1 HW); eauto.
  - (* Call *)
    destruct f; try (simpl in H; inv_run H; now subst).
    simpl in H.
    repeat match type of H with
           | (if ?c then _ else _) _ = _ => destruct c
           end;
      try (inv_run H; now subst).
    eapply Hlookup; eauto.
  - (* BinOp *)
    simpl in H. inv_run H. inv_run H.
    repeat match type of H with
           | (if ?c then _ else _) _ = _ => destruct c
           end; inv_run H; now subst.
  - (* Compare *)
    simpl in H. inv_run H. now subst.
  - (* IfExp *)
    simpl in H.
    apply bind_Ok_inv in H as (tb & s1 & Hb & H).
    apply bind_Ok_inv in H as (to & s2 & Ho & H).
    eapply union_or_wf; [| | exact H]; [eapply IHb | eapply IHo]; eauto.
  - simpl in H. inv_run H. now subst.
  - simpl in H. inv_run H. now subst.
  - simpl in H. inv_run H. now subst.
Qed.

(** Annotation resolution returns well-formed types. *)
Lemma resolve_wf_aux ann :
  (forall s t s',
      _resolve_annotation W lookup ann s = Ok (t, s') -> wf_ty t = true) /\
  match ann with
  | Tuple elts =>
      Forall (fun e => forall s t s',
                _resolve_annotation W lookup e s = Ok (t, s') ->
                wf_ty t = true) elts
  | _ => True
  end.
Proof.
  induction ann as [items _ | elts _ | elts IH | elts _ | c | id
                   | f args _ _ | l op r _ _ | l cs _ _
                   | c b o _ _ _ | v sl _ IHsl | v a _ | b _]
    using expr_nested_ind;
    try (split; [intros s t s' H; simpl in H; inv_run H; now subst | exact I]).
  - (* Tuple *)
    split; [intros s t s' H; simpl in H; inv_run H; now subst |].
    rewrite List.Forall_forall in *. intros x Hx. now apply IH.
  - (* Name *)
    split; [| exact I]. intros s t s' H. simpl in H.
    destruct (__builtins__ W id) as [t0|] eqn:E.
    + inv_run H. subst. eapply (proj1 HW); eauto.
    + eapply Hlookup; eauto.
  - (* Subscript *)
    split; [| exact I]. destruct IHsl as [Hsl Helts].
    intros s t s' H.
    destruct v; try (simpl in H; inv_run H; now subst).
    simpl in H.
    destruct (is_base id "List" "list").
    { inv_run H. inv_run H. subst. simpl. eapply Hsl; eauto. }
    destruct (is_base id "Dict" "dict").
    { destruct sl; try (inv_run H; now subst).
      destruct elts as [|k [|v rest]]; try discriminate.
      - inv_run H. discriminate.
      - rewrite List.Forall_forall in Helts.
        apply bind_Ok_inv in H as (tk & s1 & Hk & H).
        apply bind_Ok_inv in H as (tv & s2 & Hv & H).
        inv_run H. subst. simpl.
        rewrite (Helts k (or_introl eq_refl) _ _ _ Hk).
        exact (Helts v (or_intror (or_introl eq_refl)) _ _ _ Hv). }
    destruct (is_base id "Set" "set").
    { inv_run H. inv_run H. subst. simpl. eapply Hsl; eauto. }
    destruct (is_base id "Tuple" "tuple").
    { destruct sl; try (inv_run H; now subst).
      rewrite List.Forall_forall in Helts.
      apply bind_Ok_inv in H as (ts & s1 & Hts & H). inv_run H. subst.
      simpl. apply forallb_forall.
      eapply (mapM_post _ (fun y => wf_ty y = true)); [| exact Hts].
      intros x Hx s0 y s2 Hy. exact (Helts x Hx s0 y s2 Hy). }
    destruct (String.eqb id "Optional").
    { apply bind_Ok_inv in H as (te & s1 & He & H).
      eapply mk_union_wf; [| exact H].
      intros p [<- | [<- | []]]; [eapply Hsl; eauto | reflexivity]. }
    destruct (String.eqb id "Union").
    { destruct sl; try (inv_run H; now subst).
      rewrite List.Forall_forall in Helts.
      apply bind_Ok_inv in H as (ts & s1 & Hts & H).
      eapply mk_union_wf; [| exact H].
      eapply (mapM_post _ (fun y => wf_ty y = true)); [| exact Hts].
      intros x Hx s0 y s2 Hy. exact (Helts x Hx s0 y s2 Hy). }
    inv_run H. now subst.
Qed.

Lemma resolve_wf ann s t s' :
  _resolve_annotation W lookup ann s = Ok (t, s') -> wf_ty t = true.
Proof. apply (proj1 (resolve_wf_aux ann)). Qed.

Lemma table_wf_empty : table_wf ∅.
Proof. intros x t H. now rewrite lookup_empty in H. Qed.

Lemma table_wf_insert (st : gmap string ty) x t :
  table_wf st -> wf_ty t = true -> table_wf (<[x := t]> st).
Proof.
  intros Hst Ht y u H. destruct (decide (x = y)) as [->|Hne].
  - rewrite lookup_insert_eq in H. now injection H as <-.
  - rewrite lookup_insert_ne in H by assumption. eapply Hst; eauto.
Qed.

Lemma table_wf_bind_targets targets t : forall st : gmap string ty,
  table_wf st -> wf_ty t = true -> table_wf (bind_targets targets t st).
Proof.
  unfold bind_targets.
  induction targets as [|target targets IH]; intros st Hst Ht; simpl;
    [exact Hst |].
  apply IH; [| exact Ht].
  destruct target; try exact Hst. now apply table_wf_insert.
Qed.

Lemma seed_wf args : forall (st : gmap string ty) s st' s',
  table_wf st ->
  foldM (seed_parameter W lookup) args st s = Ok (st', s') -> table_wf st'.
Proof.
  induction args as [|a args IH]; intros st s st' s' Hst H; simpl in H.
  - inv_run H. now subst.
  - apply bind_Ok_inv in H as (st1 & s1 & H1 & H).
    eapply IH; [| exact H]. unfold seed_parameter in H1.
    destruct (annotation a) as [ann|]; [| inv_run H1; now subst].
    apply bind_Ok_inv in H1 as (t & s2 & Ht & H1). inv_run H1. subst.
    apply table_wf_insert; [exact Hst | eapply resolve_wf; eauto].
Qed.

Lemma analyze_wf nodes : forall (st : gmap string ty) s T s',
  table_wf st ->
  foldM (analyze_node W fn lookup) nodes st s = Ok (T, s') -> table_wf T.
Proof.
  induction nodes as [|node nodes IH]; intros st s T s' Hst H; simpl in H.
  - inv_run H. now subst.
  - apply bind_Ok_inv in H as (st1 & s1 & H1 & H).
    eapply IH; [| exact H].
    destruct node; simpl in H1; try (inv_run H1; now subst).
    + apply bind_Ok_inv in H1 as (t & s2 & Ht & H1). inv_run H1. subst.
      apply table_wf_bind_targets; [exact Hst | eapply infer_wf; eauto].
    + destruct target; try (inv_run H1; now subst).
      apply bind_Ok_inv in H1 as (t & s2 & Ht & H1). inv_run H1. subst.
      apply table_wf_insert; [exact Hst | eapply resolve_wf; eauto].
Qed.

Lemma collect_wf T nodes : forall acc s rts s',
  table_wf T ->
  (forall t, In t acc -> wf_ty t = true) ->
  foldM (collect_return W fn lookup T) nodes acc s = Ok (rts, s') ->
  forall t, In t rts -> wf_ty t = true.
Proof.
  induction nodes as [|node nodes IH]; intros acc s rts s' HT Hacc H;
    simpl in H.
  - inv_run H. now subst.
  - apply bind_Ok_inv in H as (acc1 & s1 & H1 & H).
    eapply IH; [exact HT | | exact H].
    destruct node; simpl in H1; try (inv_run H1; now subst).
    destruct value as [value|]; [| inv_run H1; now subst].
    apply bind_Ok_inv in H1 as (t & s2 & Ht & H1). inv_run H1. subst.
    intros t' Hin. apply in_app_or in Hin as [Hin | [<- | []]]; auto.
    eapply infer_wf; eauto.
Qed.

Lemma unify_wf rts s r s' :
  (forall t, In t rts -> wf_ty t = true) ->
  unify_return_types rts s = Ok (r, s') -> wf_ty r = true.
Proof.
  intros Hall H. destruct rts as [|t [|t' rts]]; simpl in H.
  - inv_run H. now subst.
  - inv_run H. subst. apply Hall. now left.
  - eapply union_of_set_wf; eauto.
Qed.

Lemma infer_from_def_wf func_def s r s' :
  infer_from_def W fn lookup func_def s = Ok (r, s') -> wf_ty r = true.
Proof.
  intros H. destruct func_def; try discriminate.
  destruct returns as [ann|]; simpl in H.
  - eapply resolve_wf; eauto.
  - apply bind_Ok_inv in H as (T & s1 & HT & H).
    apply bind_Ok_inv in H as (rts & s2 & Hr & H).
    unfold _analyze_function_body in HT.
    apply bind_Ok_inv in HT as (seeded & s0 & Hseed & HT).
    eapply unify_wf; [| exact H].
    eapply (collect_wf T _ []); [| intros t Ht; destruct Ht | exact Hr].
    eapply analyze_wf; [| exact HT].
    eapply seed_wf; [apply table_wf_empty | exact Hseed].
Qed.

End Invariant.

(** [get_return_type] returns well-formed types, whatever the depth. *)
Lemma get_return_type_wf W depth : forall fn s r s',
  world_wf W -> func_wf fn ->
  get_return_type W depth fn s = Ok (r, s') -> wf_ty r = true.
Proof.
  induction depth as [|depth IH]; intros fn s r s' HW Hfn H;
    [discriminate |].
  simpl in H. destruct (return_annotation fn) as [t|] eqn:Hann.
  - inv_run H. subst. now apply Hfn.
  - destruct (getsource fn) as [| | [|func_def rest]]; try discriminate.
    + inv_run H. now subst.
    + eapply infer_from_def_wf; [exact HW | | exact H].
      intros name s0 t s1 Hl. unfold _get_module_type in Hl.
      destruct (module_attr W (__module__ fn) name) as [[t0 | g |]|] eqn:E;
        try (inv_run Hl; now subst).
      * inv_run Hl. subst. eapply (proj1 (proj2 HW)); eauto.
      * eapply IH; [exact HW | | exact Hl].
        eapply (proj2 (proj2 HW)); eauto.
Qed.

Lemma wf_not_singleton t : wf_ty t = true -> forall x, t <> TUnion [x].
Proof. intros H x ->. discriminate. Qed.

Lemma wf_proper t :
  wf_ty t = true -> is_bare_union t = false -> proper_union t = true.
Proof.
  destruct t; simpl; try reflexivity; try discriminate.
  intros H _. apply andb_true_iff in H as [H Hall].
  rewrite H. simpl. apply forallb_forall. intros m Hm.
  rewrite forallb_forall in Hall. specialize (Hall m Hm).
  apply andb_true_iff in Hall as [Hn _]. now destruct m.
Qed.

Lemma lookup_wf_driver W depth fn :
  world_wf W -> lookup_wf (_get_module_type W (get_return_type W depth) fn).
Proof.
  intros HW name s0 t s1 Hl. unfold _get_module_type in Hl.
  destruct (module_attr W (__module__ fn) name) as [[t0 | g |]|] eqn:E;
    try (inv_run Hl; now subst).
  - inv_run Hl. subst. eapply (proj1 (proj2 HW)); eauto.
  - eapply get_return_type_wf; [exact HW | | exact Hl].
    eapply (proj2 (proj2 HW)); eauto.
Qed.

(** ** Unions collapse *)


Lemma world_wf_W0 : world_wf Examples.W0.
Proof.
  repeat split.
  - intros name t. simpl. unfold Examples.builtins0.
    repeat match goal with
           | |- context [if String.eqb ?a ?b then _ else _] =>
               destruct (String.eqb a b)
           end; intros [= <-]; reflexivity.
  - intros m name t H. discriminate.
  - intros m name g H. discriminate.
Qed.



(** * Further properties *)

(** ** The naming helpers *)

Lemma lower_upper c : PyStr.lower (PyStr.upper c) = PyStr.lower c.
Proof. destruct c as [[] [] [] [] [] [] [] []]; reflexivity. Qed.

Lemma lower_lower c : PyStr.lower (PyStr.lower c) = PyStr.lower c.
Proof. destruct c as [[] [] [] [] [] [] [] []]; reflexivity. Qed.

Lemma lower_underscore c : PyStr.lower c = "_"%char -> c = "_"%char.
Proof.
  destruct c as [[] [] [] [] [] [] [] []]; intros H;
    try reflexivity; discriminate H.
Qed.

Lemma map_chars_app f a b :
  PyStr.map_chars f (a +:+ b) = PyStr.map_chars f a +:+ PyStr.map_chars f b.
Proof.
  induction a as [|c a IH]; [reflexivity |].
  change (String (f c) (PyStr.map_chars f (a +:+ b))
          = String (f c) (PyStr.map_chars f a +:+ PyStr.map_chars f b)).
  now rewrite IH.
Qed.

Lemma map_chars_length f s :
  String.length (PyStr.map_chars f s) = String.length s.
Proof. induction s as [|c s IH]; simpl; [reflexivity | now rewrite IH]. Qed.

Lemma map_lower_idem s :
  PyStr.map_chars PyStr.lower (PyStr.map_chars PyStr.lower s)
  = PyStr.map_chars PyStr.lower s.
Proof.
  induction s as [|c s IH]; simpl; [reflexivity |].
  now rewrite lower_lower, IH.
Qed.

Lemma map_lower_capitalize w :
  PyStr.map_chars PyStr.lower (PyStr.capitalize w)
  = PyStr.map_chars PyStr.lower w.
Proof.
  destruct w as [|c w]; simpl; [reflexivity |].
  now rewrite lower_upper, map_lower_idem.
Qed.

Lemma split_underscore_cons s : exists w ws, PyStr.split_underscore s = w :: ws.
Proof.
  induction s as [|c s (w & ws & IH)]; simpl; [eauto |].
  destruct (Ascii.eqb c "_"%char); [eauto |]. rewrite IH. eauto.
Qed.

(** Up to the case of letters, the capital-case form is the name without
    its underscores. *)
Lemma capital_case_lower name :
  PyStr.map_chars PyStr.lower (_snake_case_to_capital_case name)
  = PyStr.map_chars PyStr.lower (PyStr.keep_chars not_underscore name).
Proof.
  unfold _snake_case_to_capital_case.
  induction name as [|c name IH]; [reflexivity |].
  simpl PyStr.split_underscore. simpl PyStr.keep_chars.
  unfold not_underscore at 1.
  destruct (Ascii.eqb c "_"%char) eqn:E; simpl negb; cbv iota.
  - exact IH.
  - destruct (split_underscore_cons name) as (w & ws & Hs).
    rewrite Hs in *.
    change (PyStr.map_chars PyStr.lower
              (PyStr.capitalize (String c w) +:+
               PyStr.join (map PyStr.capitalize ws))
            = String (PyStr.lower c)
                (PyStr.map_chars PyStr.lower
                   (PyStr.keep_chars not_underscore name))).
    change (PyStr.map_chars PyStr.lower
              (PyStr.capitalize w +:+ PyStr.join (map PyStr.capitalize ws))
            = PyStr.map_chars PyStr.lower
                (PyStr.keep_chars not_underscore name)) in IH.
    rewrite map_chars_app, map_lower_capitalize in *.
    rewrite <- IH. reflexivity.
Qed.

Lemma In_map_chars f s c :
  In c (list_ascii_of_string (PyStr.map_chars f s)) <->
  exists c', c = f c' /\ In c' (list_ascii_of_string s).
Proof.
  induction s as [|x s IH]; simpl.
  - split; [intros [] | intros (c' & _ & [])].
  - rewrite IH. split.
    + intros [<- | (c' & -> & H)]; eauto.
    + intros (c' & -> & [-> | H]); eauto.
Qed.

Lemma In_keep_chars p s c :
  In c (list_ascii_of_string (PyStr.keep_chars p s)) <->
  In c (list_ascii_of_string s) /\ p c = true.
Proof.
  induction s as [|x s IH]; simpl.
  - tauto.
  - destruct (p x) eqn:E; simpl; rewrite IH; split.
    + intros [<- | [H1 H2]]; auto.
    + intros [[<- | H1] H2]; auto.
    + intros [H1 H2]; auto.
    + intros [[<- | H1] H2]; [congruence | auto].
Qed.

Lemma keep_chars_all p s :
  (forall c, In c (list_ascii_of_string s) -> p c = true) ->
  PyStr.keep_chars p s = s.
Proof.
  induction s as [|x s IH]; intros H; simpl; [reflexivity |].
  rewrite (H x) by (now left). rewrite IH; [reflexivity |].
  intros c Hc. apply H. now right.
Qed.

Lemma keep_chars_length p s :
  String.length (PyStr.keep_chars p s) <= String.length s.
Proof.
  induction s as [|x s IH]; simpl; [lia |]. destruct (p x); simpl; lia.
Qed.

(** X1: [_snake_case_to_capital_case] removes the underscores of the name
    and changes nothing else but the case of letters: lower-cased, the
    result is the lower-cased name without its underscores; no underscore
    is left in it; its length is that of the name without underscores. *)
Theorem capital_case_drops_underscores name :
  PyStr.map_chars PyStr.lower (_snake_case_to_capital_case name)
    = PyStr.map_chars PyStr.lower (PyStr.keep_chars not_underscore name) /\
  (forall c, In c (list_ascii_of_string (_snake_case_to_capital_case name)) ->
             c <> "_"%char) /\
  String.length (_snake_case_to_capital_case name)
    = String.length (PyStr.keep_chars not_underscore name).
Proof.
  pose proof (capital_case_lower name) as H. split; [exact H |]. split.
  - intros c Hc ->.
    assert (Hl : In "_"%char
                   (list_ascii_of_string
                      (PyStr.map_chars PyStr.lower
                         (_snake_case_to_capital_case name)))).
    { apply In_map_chars. exists "_"%char. split; [reflexivity | exact Hc]. }
    rewrite H in Hl. apply In_map_chars in Hl as (c' & Hc' & Hin).
    symmetry in Hc'. apply lower_underscore in Hc'. subst c'.
    apply In_keep_chars in Hin as [_ Hin]. discriminate Hin.
  - rewrite <- (map_chars_length PyStr.lower), H. apply map_chars_length.
Qed.

(** X2: on a string, [_sanitize_name] returns the alphanumeric characters
    of the string, in order, and nothing else; sanitizing the result again
    changes nothing; the result is no longer than the string, and is the
    string itself when every character of it is alphanumeric. *)
Theorem sanitize_name_keeps_alphanumerics s st :
  exists r,
    _sanitize_name (PStr s) st = Ok (r, st) /\
    (forall c, In c (list_ascii_of_string r) <->
               In c (list_ascii_of_string s) /\ PyStr.isalnum c = true) /\
    _sanitize_name (PStr r) st = Ok (r, st) /\
    String.length r <= String.length s /\
    ((forall c, In c (list_ascii_of_string s) -> PyStr.isalnum c = true) ->
     r = s).
Proof.
  exists (PyStr.keep_chars PyStr.isalnum s). split; [reflexivity |].
  split; [intros c; apply In_keep_chars |]. split.
  - unfold _sanitize_name, ret. rewrite keep_chars_all; [reflexivity |].
    intros c Hc. now apply In_keep_chars in Hc.
  - split; [apply keep_chars_length | apply keep_chars_all].
Qed.

Lemma split_no_underscore s :
  (forall c, In c (list_ascii_of_string s) -> c <> "_"%char) ->
  PyStr.split_underscore s = [s].
Proof.
  induction s as [|x s IH]; intros H; simpl; [reflexivity |].
  destruct (Ascii.eqb x "_"%char) eqn:E.
  - apply Ascii.eqb_eq in E. exfalso. apply (H x); [now left | exact E].
  - rewrite IH; [reflexivity |]. intros c Hc. apply H. now right.
Qed.

(** A name without underscores is one word. *)
Lemma capital_case_one_word s :
  (forall c, In c (list_ascii_of_string s) -> c <> "_"%char) ->
  _snake_case_to_capital_case s = PyStr.capitalize s.
Proof.
  intros H. unfold _snake_case_to_capital_case.
  rewrite (split_no_underscore s H). simpl. apply append_empty_r.
Qed.

Lemma capital_case_sanitized k :
  _snake_case_to_capital_case (PyStr.keep_chars PyStr.isalnum k)
  = PyStr.capitalize (PyStr.keep_chars PyStr.isalnum k).
Proof.
  apply capital_case_one_word. intros c Hc ->.
  apply In_keep_chars in Hc as [_ Hc]. discriminate Hc.
Qed.

Lemma path_suffix_capitalize p :
  path_suffix p
  = PyStr.join
      (map (fun k => PyStr.capitalize (PyStr.keep_chars PyStr.isalnum k)) p).
Proof.
  unfold path_suffix. f_equal. apply map_ext. intros k.
  apply capital_case_sanitized.
Qed.

(** X3: in the name of a record class, a key of the nested path appears
    sanitized and then capitalized as one word: its first character
    upper-cased, all the others lower-cased.  The underscores of a key are
    gone before the capital-case step sees them, so they start no new
    capital: the key [user_name] gives [Username], where the function name
    [get_user] gives [GetUser]. *)
Theorem record_name_components W fn lookup items st p s i n fields s' :
  _create_typed_dict_from_dict W fn lookup items st (map PStr p) s
    = Ok (TTypedDict i n fields, s') ->
  n = _snake_case_to_capital_case (__name__ fn) +:+ "Return" +:+
      PyStr.join
        (map (fun k => PyStr.capitalize (PyStr.keep_chars PyStr.isalnum k)) p).
Proof.
  intros H. apply record_class_name in H.
  rewrite add_components_strings, path_suffix_capitalize in H.
  inv_run H. subst n. now rewrite <- append_assoc.
Qed.

Lemma record_name_components_witness :
  _create_typed_dict_from_dict Examples.W0 (Examples.def0 "get_user" [])
    (fun _ => ret TAny) [(Some (Examples.str_ "x"), Examples.int_ 1)] ∅
    (map PStr ["user_name"; "e-mail"]) 0
  = Ok (TTypedDict 0 "GetUserReturnUsernameEmail" [("x", py_int)], 1) /\
  "GetUserReturnUsernameEmail"
  = _snake_case_to_capital_case "get_user" +:+ "Return" +:+
    PyStr.join
      (map (fun k => PyStr.capitalize (PyStr.keep_chars PyStr.isalnum k))
         ["user_name"; "e-mail"]).
Proof.
  split; [reflexivity |].
  exact (record_name_components Examples.W0 (Examples.def0 "get_user" [])
           (fun _ => ret TAny) [(Some (Examples.str_ "x"), Examples.int_ 1)]
           ∅ ["user_name"; "e-mail"] 0 0 "GetUserReturnUsernameEmail"
           [("x", py_int)] 1 eq_refl).
Defined.

(** ** Dict literals *)

Lemma dict_get_set_ne d k k' v :
  k <> k' -> dict_get (dict_set d k v) k' = dict_get d k'.
Proof.
  intros Hne. induction d as [|[k0 v0] d IH]; simpl.
  - destruct (String.eqb k k') eqn:E; [| reflexivity].
    apply String.eqb_eq in E. contradiction.
  - destruct (String.eqb k0 k) eqn:E; simpl.
    + apply String.eqb_eq in E. subst k0.
      destruct (String.eqb k k') eqn:E'; [| reflexivity].
      apply String.eqb_eq in E'. contradiction.
    + destruct (String.eqb k0 k'); [reflexivity | exact IH].
Qed.

(** [d[k] = v] appends a new key and leaves the keys alone otherwise. *)
Lemma dict_set_keys d k v :
  map fst (dict_set d k v) =
  if existsb (String.eqb k) (map fst d) then map fst d else map fst d ++ [k].
Proof.
  induction d as [|[k0 v0] d IH]; simpl; [reflexivity |].
  rewrite (String.eqb_sym k k0).
  destruct (String.eqb k0 k) eqn:E; simpl.
  - apply String.eqb_eq in E. now subst.
  - rewrite IH. now destruct (existsb (String.eqb k) (map fst d)).
Qed.

Lemma dict_get_None_keys d k :
  dict_get d k = None -> existsb (String.eqb k) (map fst d) = false.
Proof.
  induction d as [|[k0 v0] d IH]; simpl; [reflexivity |].
  rewrite (String.eqb_sym k k0).
  destruct (String.eqb k0 k); [discriminate | exact IH].
Qed.

Lemma keys_once_fresh keys : forall seen k,
  In k (keys_once seen keys) -> In k keys /\ ~ In k seen.
Proof.
  induction keys as [|k0 keys IH]; intros seen k Hin; simpl in Hin;
    [destruct Hin |].
  destruct (existsb (String.eqb k0) seen) eqn:E.
  - apply IH in Hin as [H1 H2]. split; [now right | exact H2].
  - destruct Hin as [<- | Hin].
    + split; [now left |]. intros Hin.
      assert (existsb (String.eqb k0) seen = true); [| congruence].
      apply existsb_exists. exists k0.
      split; [exact Hin | apply String.eqb_refl].
    + apply IH in Hin as [H1 H2]. split; [now right |].
      intros Hs. apply H2. apply in_or_app. now left.
Qed.

Lemma keys_once_NoDup keys : forall seen, List.NoDup (keys_once seen keys).
Proof.
  induction keys as [|k0 keys IH]; intros seen; simpl; [constructor |].
  destruct (existsb (String.eqb k0) seen); [apply IH |].
  apply List.NoDup_cons; [| apply IH].
  intros Hin. apply keys_once_fresh in Hin as [_ Hin].
  apply Hin. apply in_or_app. right. now left.
Qed.

Lemma keys_once_covers keys : forall seen k,
  In k keys -> In k seen \/ In k (keys_once seen keys).
Proof.
  induction keys as [|k0 keys IH]; intros seen k Hin; [destruct Hin |].
  simpl. destruct (existsb (String.eqb k0) seen) eqn:E.
  - destruct Hin as [<- | Hin]; [| now apply IH].
    left. apply existsb_exists in E as (x & Hx & Ex).
    apply String.eqb_eq in Ex. now subst.
  - destruct Hin as [<- | Hin]; [right; now left |].
    destruct (IH (seen ++ [k0]) k Hin) as [Hs | Hk]; [| right; now right].
    apply in_app_or in Hs as [Hs | [<- | []]]; [now left | right; now left].
Qed.

Section Record_fields.

Variable infer : expr -> gmap string ty -> list path_component -> M ty.
Variable st : gmap string ty.
Variable path : list path_component.

(** The first loop ends with [is_valid_typeddict] set exactly when every
    key is a string constant, and then with a field for a literal that is
    not empty. *)
Lemma collect_fields_valid items : forall acc s fs valid s',
  collect_fields infer items st path acc s = Ok ((fs, valid), s') ->
  valid = forallb str_keyed items /\ (acc <> [] -> fs <> []) /\
  (valid = true -> items <> [] -> fs <> []).
Proof.
  induction items as [|[key value] items IH]; intros acc s fs valid s' H;
    simpl in H.
  - inv_run H. injection H0 as <- <-. repeat split; auto.
  - unfold str_keyed at 1. simpl fst.
    destruct (is_str_key key) as [k|] eqn:E.
    + inv_run H. apply IH in H as (-> & Hne & _).
      assert (Hset : dict_set acc k a <> []).
      { destruct acc as [|[k0 v0] acc]; simpl; [discriminate |].
        destruct (String.eqb k0 k); discriminate. }
      simpl. rewrite E. repeat split; auto.
    + inv_run H. injection H0 as <- <-. simpl. rewrite E.
      repeat split; auto; discriminate.
Qed.

Lemma collect_fields_keys keys : forall items acc s fs valid s',
  map fst items = map str_key keys ->
  collect_fields infer items st path acc s = Ok ((fs, valid), s') ->
  map fst fs = map fst acc ++ keys_once (map fst acc) keys.
Proof.
  induction keys as [|k keys IH]; intros items acc s fs valid s' Hk H;
    destruct items as [|[key value] items]; try discriminate Hk; simpl in H.
  - inv_run H. injection H0 as <- <-. simpl. now rewrite app_nil_r.
  - simpl in Hk. injection Hk as -> Hk. simpl in H.
    inv_run H. apply (IH _ _ _ _ _ _ Hk) in H. rewrite H.
    rewrite dict_set_keys. simpl.
    destruct (existsb (String.eqb k) (map fst acc)); [reflexivity |].
    now rewrite <- app_assoc.
Qed.

(** The type of a field is the one inferred for the last item with the
    field's key, or the one the field had before the loop. *)
Lemma collect_fields_last keys : forall items acc s fs valid s',
  map fst items = map str_key keys ->
  collect_fields infer items st path acc s = Ok ((fs, valid), s') ->
  forall k t, dict_get fs k = Some t ->
    (exists before v after sa sb,
        items = before ++ (str_key k, v) :: after /\
        ~ In (str_key k) (map fst after) /\
        infer v st (path ++ [PStr k]) sa = Ok (t, sb))
    \/ (~ In k keys /\ dict_get acc k = Some t).
Proof.
  induction keys as [|k0 keys IH]; intros items acc s fs valid s' Hk H k t Ht;
    destruct items as [|[key value] items]; try discriminate Hk; simpl in H.
  - inv_run H. injection H0 as <- <-. right. split; [intros [] | exact Ht].
  - simpl in Hk. injection Hk as -> Hk. simpl in H.
    apply bind_Ok_inv in H as (vt & s1 & Hv & H).
    destruct (IH _ _ _ _ _ _ Hk H k t Ht)
      as [(before & v & after & sa & sb & -> & Hlast & Hinf) | [Hnot Hacc]].
    + left. exists ((str_key k0, value) :: before), v, after, sa, sb.
      repeat split; auto.
    + destruct (String.eqb_spec k0 k) as [-> | Hne].
      * rewrite dict_get_set in Hacc. injection Hacc as ->.
        left. exists [], value, items, s, s1. repeat split; auto.
        rewrite Hk. intros Hin. apply Hnot.
        apply in_map_iff in Hin as (k' & [= ->] & Hin). exact Hin.
      * rewrite dict_get_set_ne in Hacc by assumption.
        right. split; [| exact Hacc]. intros [-> | Hin]; auto.
Qed.

End Record_fields.

(** What a dict literal becomes, by its shape. *)
Lemma create_typed_dict_shape W fn lookup items st path s t s' :
  _create_typed_dict_from_dict W fn lookup items st path s = Ok (t, s') ->
  if record_shaped items
  then exists i n fields, t = TTypedDict i n fields /\ s' = S i /\ fields <> []
  else exists k v, t = TDict k v /\
                   (items = [] -> k = TAny /\ v = TAny /\ s' = s).
Proof.
  unfold _create_typed_dict_from_dict, create_typed_dict, record_shaped.
  intros H. apply bind_Ok_inv in H as ([fs valid] & s1 & Hc & H).
  destruct (collect_fields_valid _ _ _ _ _ _ _ _ _ Hc) as (Hv & _ & Hne).
  rewrite <- Hv.
  destruct items as [|item rest] eqn:Ei.
  - simpl in Hc. inv_run Hc. injection Hc0 as <- <-. simpl in *.
    inv_run H. subst. exists TAny, TAny. auto.
  - rewrite <- Ei in *.
    assert (El : Nat.eqb (length items) 0 = false) by now rewrite Ei.
    rewrite El. simpl negb. rewrite andb_true_l.
    destruct valid.
    + assert (Hfs : fs <> []) by (apply Hne; [reflexivity | now rewrite Ei]).
      destruct fs as [|f fs]; [contradiction |].
      simpl in H. apply bind_Ok_inv in H as (cn & s2 & Hn & H).
      unfold TypedDict in H.
      destruct (existsb _ (f :: fs)); [discriminate |].
      injection H as <- <-. exists s2, cn, (f :: fs).
      repeat split. discriminate.
    + simpl in H. rewrite Ei in H. rewrite <- Ei in H.
      apply bind_Ok_inv in H as (kts & s2 & H1 & H).
      apply bind_Ok_inv in H as (vts & s3 & H2 & H).
      repeat match type of H with
             | (if ?c then _ else _) _ = _ => destruct c
             end;
        inv_run H; inv_run H; inv_run H; subst t;
        eexists _, _; (split; [reflexivity |]); intros ->; discriminate.
Qed.

(** X4: what [_create_typed_dict_from_dict] returns is decided by the
    shape of the literal.  A literal that is not empty and whose keys are
    all string constants gives a record class, the newest class, with at
    least one field; every other literal gives a [dict[...]] type, and the
    empty literal gives [dict[Any, Any]] and creates no class. *)
Theorem dict_literal_shape W fn lookup items st path s t s' :
  _create_typed_dict_from_dict W fn lookup items st path s = Ok (t, s') ->
  if record_shaped items
  then exists i n fields, t = TTypedDict i n fields /\ s' = S i /\ fields <> []
  else exists k v, t = TDict k v /\
                   (items = [] -> k = TAny /\ v = TAny /\ s' = s).
Proof. apply create_typed_dict_shape. Qed.

Lemma dict_literal_shape_witness :
  (exists i n fields,
      TTypedDict 0 "FReturn" [("a", py_int); ("b", py_str)]
        = TTypedDict i n fields /\ 1 = S i /\ fields <> []) /\
  (exists k v,
      TDict py_int py_str = TDict k v /\
      ([(Some (Examples.int_ 1), Examples.str_ "x")] = [] ->
       k = TAny /\ v = TAny /\ 0 = 0)).
Proof.
  split.
  - exact (dict_literal_shape Examples.W0 (Examples.def0 "f" [])
             (fun _ => ret TAny)
             [(Some (Examples.str_ "a"), Examples.int_ 1);
              (Some (Examples.str_ "b"), Examples.str_ "x")]
             ∅ [] 0 _ 1 eq_refl).
  - exact (dict_literal_shape Examples.W0 (Examples.def0 "f" [])
             (fun _ => ret TAny)
             [(Some (Examples.int_ 1), Examples.str_ "x")]
             ∅ [] 0 _ 0 eq_refl).
Defined.

(** X5: the fields of the record class made for a dict literal follow the
    literal.  The field names are the keys in order of first occurrence,
    each once; and the type of a field is the type inferred, with the
    key appended to the nested path, for the value of the last item that
    has the field's key. *)
Theorem record_fields_follow_the_literal W fn lookup items keys st path s
    i n fields s' :
  map fst items = map str_key keys ->
  _create_typed_dict_from_dict W fn lookup items st path s
    = Ok (TTypedDict i n fields, s') ->
  map fst fields = keys_once [] keys /\
  List.NoDup (map fst fields) /\
  (forall k, In k (map fst fields) <-> In k keys) /\
  (forall k t, dict_get fields k = Some t ->
     exists before v after sa sb,
       items = before ++ (str_key k, v) :: after /\
       ~ In (str_key k) (map fst after) /\
       _infer_expr_type W fn lookup v st (path ++ [PStr k]) sa = Ok (t, sb)).
Proof.
  unfold _create_typed_dict_from_dict, create_typed_dict.
  intros Hk H. apply bind_Ok_inv in H as ([fs valid] & s1 & Hc & H).
  assert (fs = fields) as ->.
  { destruct (valid && negb (Nat.eqb (length fs) 0)).
    - apply bind_Ok_inv in H as (cn & s2 & Hn & H). unfold TypedDict in H.
      destruct (existsb _ fs); [discriminate |]. now injection H as <- <- <-.
    - destruct items as [|item rest] eqn:Ei; [inv_run H; discriminate |].
      rewrite <- Ei in H.
      apply bind_Ok_inv in H as (kts & s2 & H1 & H).
      apply bind_Ok_inv in H as (vts & s3 & H2 & H).
      repeat match type of H with
             | (if ?c then _ else _) _ = _ => destruct c
             end;
        inv_run H; inv_run H; inv_run H; discriminate. }
  pose proof (collect_fields_keys _ _ _ _ _ _ _ _ _ _ Hk Hc) as Hkeys.
  simpl in Hkeys. split; [exact Hkeys |]. split; [| split].
  - rewrite Hkeys. apply keys_once_NoDup.
  - intros k. rewrite Hkeys. split.
    + intros Hin. now apply keys_once_fresh in Hin.
    + intros Hin. destruct (keys_once_covers keys [] k Hin) as [[] | Hin'].
      exact Hin'.
  - intros k t Ht.
    destruct (collect_fields_last _ _ _ _ _ _ _ _ _ _ Hk Hc k t Ht)
      as [Hl | [_ Hacc]]; [exact Hl | discriminate].
Qed.

(** [{"a": 1, "b": "x", "a": "y"}]: the field [a] comes first and has the
    type of the last value given for it. *)
Lemma record_fields_follow_the_literal_witness :
  _create_typed_dict_from_dict Examples.W0 (Examples.def0 "f" [])
    (fun _ => ret TAny)
    [(str_key "a", Examples.int_ 1); (str_key "b", Examples.str_ "x");
     (str_key "a", Examples.str_ "y")] ∅ [] 0
  = Ok (TTypedDict 0 "FReturn" [("a", py_str); ("b", py_str)], 1) /\
  ["a"; "b"] = keys_once [] ["a"; "b"; "a"].
Proof.
  split; [reflexivity |].
  exact (proj1 (record_fields_follow_the_literal Examples.W0
                  (Examples.def0 "f" []) (fun _ => ret TAny)
                  [(str_key "a", Examples.int_ 1);
                   (str_key "b", Examples.str_ "x");
                   (str_key "a", Examples.str_ "y")]
                  ["a"; "b"; "a"] ∅ [] 0 0 "FReturn"
                  [("a", py_str); ("b", py_str)] 1 eq_refl eq_refl)).
Defined.

(** ** The walk and the return loop *)

Lemma walk_queue_sound fuel : forall todo n,
  In n (walk_queue fuel todo) -> exists root, In root todo /\ subnode n root.
Proof.
  induction fuel as [|fuel IH]; intros todo n Hin;
    [destruct todo; destruct Hin |].
  destruct todo as [|x todo]; [destruct Hin |].
  simpl in Hin. destruct Hin as [<- | Hin].
  - exists x. split; [now left | apply subnode_self].
  - apply IH in Hin as (root & Hroot & Hsub).
    apply in_app_or in Hroot as [Hroot | Hroot].
    + exists root. split; [now right | exact Hsub].
    + exists x. split; [now left |]. eapply subnode_child; eauto.
Qed.

(** The walk yields nothing but the definition and the statements below
    it. *)
Lemma ast_walk_sound n root : In n (ast_walk root) -> subnode n root.
Proof.
  intros H. apply walk_queue_sound in H as (r & [<- | []] & Hsub). exact Hsub.
Qed.

Lemma source_order_children node :
  source_order node = node :: flat_map source_order (child_stmts node).
Proof.
  assert (Hall : forall l,
    (fix all (l : list stmt) : list stmt :=
       match l with
       | [] => []
       | s :: l' => source_order s ++ all l'
       end) l = flat_map source_order l).
  { induction l as [|x l IH]; simpl; [reflexivity | now rewrite IH]. }
  destruct node; simpl; rewrite ?Hall, ?flat_map_app; reflexivity.
Qed.

Lemma walk_queue_permutation fuel : forall todo,
  forest_size todo <= fuel ->
  Permutation (walk_queue fuel todo) (flat_map source_order todo).
Proof.
  induction fuel as [|fuel IH]; intros todo Hsize.
  - destruct todo as [|x todo]; [constructor |].
    simpl in Hsize. rewrite stmt_size_children in Hsize. lia.
  - destruct todo as [|x todo]; [constructor |].
    simpl walk_queue. simpl flat_map. rewrite source_order_children.
    simpl. constructor.
    etransitivity; [apply IH |].
    + rewrite forest_size_app. simpl in Hsize.
      rewrite stmt_size_children in Hsize. lia.
    + rewrite flat_map_app. apply Permutation_app_comm.
Qed.

(** The breadth-first walk visits the statements of the definition, each
    once: it is a rearrangement of their listing in source order. *)
Lemma ast_walk_permutation root :
  Permutation (ast_walk root) (source_order root).
Proof.
  unfold ast_walk.
  etransitivity; [apply walk_queue_permutation; simpl; lia |].
  simpl. now rewrite app_nil_r.
Qed.

Lemma value_returns_permutation l1 l2 :
  Permutation l1 l2 -> Permutation (value_returns l1) (value_returns l2).
Proof.
  induction 1 as [| x l l' _ IH | x y l | l l' l'' _ IH1 _ IH2]; simpl.
  - constructor.
  - now apply Permutation_app_head.
  - rewrite !app_assoc. apply Permutation_app_tail, Permutation_app_comm.
  - etransitivity; eauto.
Qed.

Lemma value_returns_nil nodes :
  (forall e, ~ In (Return (Some e)) nodes) -> value_returns nodes = [].
Proof.
  induction nodes as [|node nodes IH]; intros H; [reflexivity |].
  simpl. rewrite IH by (intros e He; apply (H e); now right).
  rewrite app_nil_r. destruct node; try reflexivity.
  destruct value as [e|]; [| reflexivity].
  exfalso. apply (H e). now left.
Qed.

Section Return_loop.

Variable W : world.
Variable fn : func.
Variable lookup : string -> M ty.

Lemma collect_returns_length T nodes : forall acc s rts s',
  foldM (collect_return W fn lookup T) nodes acc s = Ok (rts, s') ->
  length rts = length acc + length (value_returns nodes).
Proof.
  induction nodes as [|node nodes IH]; intros acc s rts s' H; simpl in H.
  - inv_run H. subst. simpl. lia.
  - apply bind_Ok_inv in H as (acc1 & s1 & H1 & H).
    apply IH in H. rewrite H. simpl. rewrite length_app.
    destruct node; simpl in H1; try (inv_run H1; subst; simpl; lia).
    destruct value as [e|]; [| inv_run H1; subst; simpl; lia].
    apply bind_Ok_inv in H1 as (t & s2 & Ht & H1). inv_run H1. subst.
    rewrite length_app. simpl. lia.
Qed.

Lemma collect_no_returns T nodes : forall acc s,
  value_returns nodes = [] ->
  foldM (collect_return W fn lookup T) nodes acc s = Ok (acc, s).
Proof.
  induction nodes as [|node nodes IH]; intros acc s Hn; [reflexivity |].
  simpl in Hn. apply app_eq_nil in Hn as [Hn1 Hn2].
  simpl. unfold bind.
  destruct node; simpl; try (apply IH; exact Hn2).
  destruct value as [e|]; [discriminate | apply IH; exact Hn2].
Qed.

End Return_loop.

(** The driver on a parsed source, without a runtime annotation. *)
Lemma get_return_type_parsed W depth fn func_def rest :
  return_annotation fn = None ->
  getsource fn = Parsed (func_def :: rest) ->
  get_return_type W (S depth) fn =
  infer_from_def W fn (_get_module_type W (get_return_type W depth) fn)
    func_def.
Proof. intros Hann Hsrc. simpl. now rewrite Hann, Hsrc. Qed.

(** X6: a function without a return annotation in whose definition no
    [return] statement has a value (none at all, or only bare [return]s)
    gets [Any]: [get_return_type] runs the assignment analysis and, when
    that returns, returns [Any]; it raises only what the analysis
    raises. *)
Theorem no_value_return_gives_Any W depth fn name args body rest s :
  return_annotation fn = None ->
  getsource fn = Parsed (FunctionDef name args body None :: rest) ->
  (forall e, ~ subnode (Return (Some e)) (FunctionDef name args body None)) ->
  get_return_type W (S depth) fn s =
    (let* _ := _analyze_function_body W fn
                 (_get_module_type W (get_return_type W depth) fn)
                 (FunctionDef name args body None) ∅ in
     ret TAny) s.
Proof.
  intros Hann Hsrc Hno. rewrite (get_return_type_parsed _ _ _ _ _ Hann Hsrc).
  unfold infer_from_def, bind.
  destruct (_analyze_function_body _ _ _ _ _ s) as [[T s1]|e]; [| reflexivity].
  rewrite collect_no_returns; [reflexivity |].
  apply value_returns_nil. intros e He. apply (Hno e).
  now apply ast_walk_sound.
Qed.

(** [def f(): x = 1; return] *)
Lemma no_value_return_gives_Any_witness :
  get_return_type Examples.W0 1
    (Examples.def0 "f" [Assign [Name "x"] (Examples.int_ 1); Return None]) 0
  = Ok (TAny, 0).
Proof.
  rewrite (no_value_return_gives_Any Examples.W0 0
             (Examples.def0 "f"
                [Assign [Name "x"] (Examples.int_ 1); Return None])
             "f" [] [Assign [Name "x"] (Examples.int_ 1); Return None] [] 0
             eq_refl eq_refl).
  - reflexivity.
  - intros e H.
    inversion H as [| c root Hc Hs]; subst.
    destruct Hc as [<- | [<- | []]];
      inversion Hs as [| c' root' Hc' Hs']; subst; destruct Hc'.
Defined.



(** ** The symbol table *)

Section Tables.

Variable W : world.
Variable fn : func.
Variable lookup : string -> M ty.

Lemma bind_targets_frame x t targets : forall st : gmap string ty,
  ~ In (Name x) targets -> bind_targets targets t st !! x = st !! x.
Proof.
  unfold bind_targets.
  induction targets as [|target targets IH]; intros st Hn; simpl;
    [reflexivity |].
  rewrite IH by (intros Hin; apply Hn; now right).
  destruct target; try reflexivity.
  apply lookup_insert_ne. intros ->. apply Hn. now left.
Qed.

Lemma bind_targets_domain x t targets : forall st : gmap string ty,
  is_Some (bind_targets targets t st !! x) <->
  is_Some (st !! x) \/ In (Name x) targets.
Proof.
  unfold bind_targets.
  induction targets as [|target targets IH]; intros st; simpl; [tauto |].
  rewrite IH. split.
  - intros [H | H]; [| now right; right].
    destruct target; auto.
    destruct (decide (id = x)) as [->|Hne]; [right; now left |].
    rewrite lookup_insert_ne in H by assumption. now left.
  - intros [H | [-> | H]]; [| | now right].
    + left. destruct target; auto.
      destruct (decide (id = x)) as [->|Hne].
      * rewrite lookup_insert_eq. eauto.
      * now rewrite lookup_insert_ne.
    + left. rewrite lookup_insert_eq. eauto.
Qed.

(** A statement that does not bind [x] leaves the entry of [x] alone. *)
Lemma analyze_node_frame x node (st : gmap string ty) s st' s' :
  analyze_node W fn lookup st node s = Ok (st', s') ->
  ~ binds node x -> st' !! x = st !! x.
Proof.
  intros H Hn. destruct node; simpl in H; try (inv_run H; now subst).
  - inv_run H. inv_run H. subst. now apply bind_targets_frame.
  - destruct target; try (inv_run H; now subst).
    inv_run H. inv_run H. subst. apply lookup_insert_ne. exact Hn.
Qed.

Lemma analyze_node_domain x node (st : gmap string ty) s st' s' :
  analyze_node W fn lookup st node s = Ok (st', s') ->
  is_Some (st' !! x) <-> is_Some (st !! x) \/ binds node x.
Proof.
  intros H. destruct node; simpl in H;
    try (inv_run H; subst; simpl; tauto).
  - inv_run H. inv_run H. subst. apply bind_targets_domain.
  - destruct target; try (inv_run H; subst; simpl; tauto).
    inv_run H. inv_run H. subst. simpl.
    destruct (decide (id = x)) as [->|Hne].
    + rewrite lookup_insert_eq. split; eauto.
    + rewrite lookup_insert_ne by assumption. tauto.
Qed.

Lemma analyze_nodes_frame x nodes : forall (st : gmap string ty) s T s',
  foldM (analyze_node W fn lookup) nodes st s = Ok (T, s') ->
  (forall n, In n nodes -> ~ binds n x) -> T !! x = st !! x.
Proof.
  induction nodes as [|node nodes IH]; intros st s T s' H Hn; simpl in H.
  - inv_run H. now subst.
  - apply bind_Ok_inv in H as (st1 & s1 & H1 & H).
    rewrite (IH _ _ _ _ H) by (intros n Hin; apply Hn; now right).
    eapply analyze_node_frame; [exact H1 | apply Hn; now left].
Qed.

Lemma analyze_nodes_domain x nodes : forall (st : gmap string ty) s T s',
  foldM (analyze_node W fn lookup) nodes st s = Ok (T, s') ->
  is_Some (T !! x) <->
  is_Some (st !! x) \/ exists node, In node nodes /\ binds node x.
Proof.
  induction nodes as [|node nodes IH]; intros st s T s' H; simpl in H.
  - inv_run H. subst. split; [now left | intros [H | (n & [] & _)]; exact H].
  - apply bind_Ok_inv in H as (st1 & s1 & H1 & H).
    rewrite (IH _ _ _ _ H), (analyze_node_domain x _ _ _ _ _ H1). split.
    + intros [[Hs | Hb] | (n & Hin & Hb)]; [now left | |].
      * right. exists node. split; [now left | exact Hb].
      * right. exists n. split; [now right | exact Hb].
    + intros [Hs | (n & [<- | Hin] & Hb)];
        [now left; left | now left; right |].
      right. eauto.
Qed.

Lemma seed_domain x args : forall (st : gmap string ty) s st' s',
  foldM (seed_parameter W lookup) args st s = Ok (st', s') ->
  is_Some (st' !! x) <->
  is_Some (st !! x) \/
  exists a, In a args /\ arg_name a = x /\ is_Some (annotation a).
Proof.
  induction args as [|a args IH]; intros st s st' s' H; simpl in H.
  - inv_run H. subst. split; [now left | intros [H | (n & [] & _)]; exact H].
  - apply bind_Ok_inv in H as (st1 & s1 & H1 & H).
    rewrite (IH _ _ _ _ H). unfold seed_parameter in H1.
    destruct (annotation a) as [ann|] eqn:Ea.
    + apply bind_Ok_inv in H1 as (t & s2 & Ht & H1). inv_run H1. subst st1.
      split.
      * intros [Hs | (b & Hin & Hb)];
          [| right; exists b; split; [now right | exact Hb]].
        destruct (decide (arg_name a = x)) as [E|Hne].
        -- right. exists a. rewrite Ea. split; [now left | split; eauto].
        -- rewrite lookup_insert_ne in Hs by assumption. now left.
      * intros [Hs | (b & [<- | Hin] & <- & Hb)].
        -- left. destruct (decide (arg_name a = x)) as [->|Hne].
           ++ rewrite lookup_insert_eq. eauto.
           ++ now rewrite lookup_insert_ne.
        -- left. rewrite lookup_insert_eq. eauto.
        -- right. eauto.
    + inv_run H1. subst st1. split.
      * intros [Hs | (b & Hin & Hb)]; [now left |].
        right. exists b. split; [now right | exact Hb].
      * intros [Hs | (b & [<- | Hin] & <- & Hb)]; [now left | |].
        -- rewrite Ea in Hb. destruct Hb as [? Hb]. discriminate.
        -- right. eauto.
Qed.

(** X8: when [_analyze_function_body] returns, started from an empty
    table, the names of the table are exactly the parameters that carry an
    annotation and the names bound, anywhere below the definition (nested
    definitions and classes included), by an assignment with that name as
    a target or by an annotated assignment to it.  Parameters without
    annotation, targets that are not names, augmented assignments, loop
    and [with] targets get no entry. *)
Theorem symbol_table_domain name args body returns s T s' :
  _analyze_function_body W fn lookup (FunctionDef name args body returns) ∅ s
    = Ok (T, s') ->
  forall x,
    is_Some (T !! x) <->
    (exists a, In a args /\ arg_name a = x /\ is_Some (annotation a)) \/
    (exists node,
        subnode node (FunctionDef name args body returns) /\ binds node x).
Proof.
  intros H x. unfold _analyze_function_body in H.
  apply bind_Ok_inv in H as (seeded & s0 & Hseed & Hana).
  rewrite (analyze_nodes_domain x _ _ _ _ _ Hana),
    (seed_domain x _ _ _ _ _ Hseed).
  rewrite lookup_empty. split.
  - intros [[[t Ht] | Ha] | (n & Hin & Hb)]; [discriminate | now left |].
    right. exists n. split; [now apply ast_walk_sound | exact Hb].
  - intros [Ha | (n & Hsub & Hb)]; [left; now right |].
    right. exists n. split; [now apply ast_walk_complete | exact Hb].
Qed.

(** X9: among the statements that bind a name, the one the breadth-first
    walk reaches last decides the name's entry in the final table: the
    entry is the one this statement writes, whatever statements bound the
    name before and wherever they stand in the source. *)
Theorem last_binding_in_walk_wins name args body returns s T s'
    before node after x :
  _analyze_function_body W fn lookup (FunctionDef name args body returns) ∅ s
    = Ok (T, s') ->
  ast_walk (FunctionDef name args body returns) = before ++ node :: after ->
  binds node x ->
  (forall n, In n after -> ~ binds n x) ->
  exists seeded s0 st1 sa st2 sb,
    foldM (seed_parameter W lookup) args ∅ s = Ok (seeded, s0) /\
    foldM (analyze_node W fn lookup) before seeded s0 = Ok (st1, sa) /\
    analyze_node W fn lookup st1 node sa = Ok (st2, sb) /\
    is_Some (st2 !! x) /\ T !! x = st2 !! x.
Proof.
  intros H Hwalk Hb Hafter. unfold _analyze_function_body in H.
  apply bind_Ok_inv in H as (seeded & s0 & Hseed & Hana).
  rewrite Hwalk, foldM_app in Hana.
  apply bind_Ok_inv in Hana as (st1 & sa & H1 & Hana).
  simpl in Hana. apply bind_Ok_inv in Hana as (st2 & sb & H2 & Hana).
  exists seeded, s0, st1, sa, st2, sb. repeat split; auto.
  - apply (analyze_node_domain x _ _ _ _ _ H2). now right.
  - eapply analyze_nodes_frame; eauto.
Qed.

End Tables.

(** [def f(a: int, b): x = 1; y: str = 2; z += 1]: [a], [x] and [y] get
    an entry. *)
Lemma symbol_table_domain_witness :
  exists T s',
    _analyze_function_body Examples.W0 (Examples.def0 "f" [])
      (fun _ => ret TAny) f_locals ∅ 0 = Ok (T, s') /\
    is_Some (T !! "a") /\ is_Some (T !! "x") /\ is_Some (T !! "y").
Proof.
  destruct (_analyze_function_body Examples.W0 (Examples.def0 "f" [])
              (fun _ => ret TAny) f_locals ∅ 0) as [[T s']|e] eqn:H;
    [| vm_compute in H; discriminate H].
  exists T, s'. split; [reflexivity |].
  pose proof (symbol_table_domain Examples.W0 (Examples.def0 "f" [])
                (fun _ => ret TAny) _ _ _ _ _ _ _ H) as Hdom.
  split; [| split]; apply Hdom.
  - left. eexists. split; [left; reflexivity | split; [reflexivity | eauto]].
  - right. eexists. split;
      [eapply subnode_child; [left; reflexivity | apply subnode_self] |].
    left. reflexivity.
  - right. eexists. split;
      [eapply subnode_child; [right; left; reflexivity | apply subnode_self] |].
    reflexivity.
Defined.

(** [def outer(): def inner(): x = "s"; return "t"] followed by
    [x = 1; return x]: the walk reaches the inner assignment last, and [x]
    ends as [str]. *)
Lemma last_binding_in_walk_wins_witness :
  exists T s',
    _analyze_function_body Examples.W0 f_with_inner (fun _ => ret TAny)
      (FunctionDef "outer" []
         [FunctionDef "inner" []
            [Assign [Name "x"] (Examples.str_ "s");
             Return (Some (Examples.str_ "t"))] None;
          Assign [Name "x"] (Examples.int_ 1);
          Return (Some (Name "x"))] None) ∅ 0 = Ok (T, s') /\
    T !! "x" = Some py_str.
Proof.
  destruct (_analyze_function_body Examples.W0 f_with_inner (fun _ => ret TAny)
      (FunctionDef "outer" []
         [FunctionDef "inner" []
            [Assign [Name "x"] (Examples.str_ "s");
             Return (Some (Examples.str_ "t"))] None;
          Assign [Name "x"] (Examples.int_ 1);
          Return (Some (Name "x"))] None) ∅ 0) as [[T s']|e] eqn:H;
    [| vm_compute in H; discriminate H].
  exists T, s'. split; [reflexivity |].
  destruct (last_binding_in_walk_wins Examples.W0 f_with_inner
              (fun _ => ret TAny) _ _ _ _ _ _ _
              [FunctionDef "outer" []
                 [FunctionDef "inner" []
                    [Assign [Name "x"] (Examples.str_ "s");
                     Return (Some (Examples.str_ "t"))] None;
                  Assign [Name "x"] (Examples.int_ 1);
                  Return (Some (Name "x"))] None;
               FunctionDef "inner" []
                 [Assign [Name "x"] (Examples.str_ "s");
                  Return (Some (Examples.str_ "t"))] None;
               Assign [Name "x"] (Examples.int_ 1);
               Return (Some (Name "x"))]
              (Assign [Name "x"] (Examples.str_ "s"))
              [Return (Some (Examples.str_ "t"))] "x" H eq_refl)
    as (seeded & s0 & st1 & sa & st2 & sb & Hseed & Hbefore & Hnode & _ & ->).
  - left. reflexivity.
  - intros n [<- | []] Hb. exact Hb.
  - unfold analyze_node in Hnode. cbn [_infer_expr_type] in Hnode.
    unfold bind, ret in Hnode. injection Hnode as <- <-.
    apply lookup_insert_eq.
Defined.

(** ** How statements compose *)

(** Inference reads the function object for its name, and for nothing
    else but through the module lookup. *)

Lemma bind_ext {A B} (m m' : M A) (k k' : A -> M B) s :
  m s = m' s -> (forall a s', k a s' = k' a s') -> bind m k s = bind m' k' s.
Proof.
  intros Hm Hk. unfold bind. rewrite Hm.
  destruct (m' s) as [[a s']|e]; [apply Hk | reflexivity].
Qed.

Lemma mapM_ext {A B} (f g : A -> M B) l :
  (forall x, In x l -> forall s, f x s = g x s) ->
  forall s, mapM f l s = mapM g l s.
Proof.
  induction l as [|x l IH]; intros H s; [reflexivity |].
  simpl. apply bind_ext; [apply H; now left |].
  intros y s1. apply bind_ext; [| reflexivity].
  apply IH. intros x' Hx'. apply H. now right.
Qed.

Lemma foldM_ext {A B} (f g : A -> B -> M A) l :
  (forall acc x s, f acc x s = g acc x s) ->
  forall acc s, foldM f l acc s = foldM g l acc s.
Proof.
  intros H. induction l as [|x l IH]; intros acc s; [reflexivity |].
  simpl. apply bind_ext; [apply H | intros; apply IH].
Qed.

Section Same_name.

Variable W : world.
Variables fn1 fn2 : func.
Variables l1 l2 : string -> M ty.
Hypothesis Hname : __name__ fn1 = __name__ fn2.
Hypothesis Hlookup : forall name s, l1 name s = l2 name s.

Lemma collect_fields_ext
    (infer1 infer2 : expr -> gmap string ty -> list path_component -> M ty)
    st path items :
  (forall item, In item items -> forall p s,
      infer1 (snd item) st p s = infer2 (snd item) st p s) ->
  forall acc s,
    collect_fields infer1 items st path acc s
    = collect_fields infer2 items st path acc s.
Proof.
  induction items as [|[key value] items IH]; intros H acc s; [reflexivity |].
  simpl. destruct (is_str_key key) as [k|]; [| reflexivity].
  apply bind_ext; [apply (H (key, value)); now left |].
  intros t s1. apply IH. intros item Hi. apply H. now right.
Qed.

Lemma create_typed_dict_ext
    (infer1 infer2 : expr -> gmap string ty -> list path_component -> M ty)
    st path items s :
  (forall item, In item items -> forall p s,
      infer1 (snd item) st p s = infer2 (snd item) st p s) ->
  (forall item k, In item items -> fst item = Some k -> forall p s,
      infer1 k st p s = infer2 k st p s) ->
  create_typed_dict fn1 infer1 items st path s
  = create_typed_dict fn2 infer2 items st path s.
Proof.
  intros Hv Hk. unfold create_typed_dict.
  apply bind_ext; [now apply collect_fields_ext |].
  intros [fs valid] s1. rewrite Hname.
  destruct (valid && negb (Nat.eqb (length fs) 0)); [reflexivity |].
  destruct items as [|item rest] eqn:Ei; [reflexivity |]. rewrite <- Ei in *.
  apply bind_ext.
  { apply mapM_ext. intros it Hit s2. unfold infer_key.
    destruct (fst it) as [k|] eqn:Ek; [| reflexivity].
    eapply Hk; eauto. }
  intros kts s2. apply bind_ext; [| reflexivity].
  apply mapM_ext. intros it Hit s3. now apply Hv.
Qed.

Lemma infer_ext e : forall st path s,
  _infer_expr_type W fn1 l1 e st path s = _infer_expr_type W fn2 l2 e st path s.
Proof.
  induction e as [items IH | elts IH | elts IH | elts IH | c | id
                 | f args _ _ | l op r IHl IHr | l cs _ _
                 | c b o _ IHb IHo | v sl _ _ | v a _ | b _]
    using expr_nested_ind; intros st path s; try reflexivity.
  - (* Dict *)
    change (create_typed_dict fn1 (_infer_expr_type W fn1 l1) items st path s
            = create_typed_dict fn2 (_infer_expr_type W fn2 l2) items st path s).
    rewrite List.Forall_forall in IH.
    apply create_typed_dict_ext.
    + intros item Hi p s0. apply (proj2 (IH item Hi)).
    + intros item k Hi Ek p s0.
      pose proof (proj1 (IH item Hi)) as IHk. rewrite Ek in IHk. apply IHk.
  - (* List *)
    destruct elts as [|e elts]; [reflexivity |].
    rewrite List.Forall_forall in IH.
    change (bind (mapM (fun elt => _infer_expr_type W fn1 l1 elt st path)
                    (e :: elts))
              (fun element_types =>
                 if one_type element_types then
                   let* t := first_type element_types in ret (TList t)
                 else
                   let* u := union_of_set element_types in ret (TList u)) s
            = bind (mapM (fun elt => _infer_expr_type W fn2 l2 elt st path)
                    (e :: elts))
              (fun element_types =>
                 if one_type element_types then
                   let* t := first_type element_types in ret (TList t)
                 else
                   let* u := union_of_set element_types in ret (TList u)) s).
    apply bind_ext; [| reflexivity].
    apply mapM_ext. intros x Hx s0. now apply IH.
  - (* Tuple *)
    destruct elts as [|e elts]; [reflexivity |].
    rewrite List.Forall_forall in IH.
    change (bind (mapM (fun elt => _infer_expr_type W fn1 l1 elt st path)
                    (e :: elts))
              (fun element_types => ret (TTuple element_types)) s
            = bind (mapM (fun elt => _infer_expr_type W fn2 l2 elt st path)
                    (e :: elts))
              (fun element_types => ret (TTuple element_types)) s).
    apply bind_ext; [| reflexivity].
    apply mapM_ext. intros x Hx s0. now apply IH.
  - (* Set *)
    destruct elts as [|e elts]; [reflexivity |].
    rewrite List.Forall_forall in IH.
    change (bind (mapM (fun elt => _infer_expr_type W fn1 l1 elt st path)
                    (e :: elts))
              (fun element_types =>
                 if one_type element_types then
                   let* t := first_type element_types in ret (TSet t)
                 else
                   let* u := union_of_set element_types in ret (TSet u)) s
            = bind (mapM (fun elt => _infer_expr_type W fn2 l2 elt st path)
                    (e :: elts))
              (fun element_types =>
                 if one_type element_types then
                   let* t := first_type element_types in ret (TSet t)
                 else
                   let* u := union_of_set element_types in ret (TSet u)) s).
    apply bind_ext; [| reflexivity].
    apply mapM_ext. intros x Hx s0. now apply IH.
  - (* Name *)
    simpl. destruct (st !! id); [reflexivity |].
    destruct (__builtins__ W id) as [t|]; [| apply Hlookup].
    destruct (is_class t); [reflexivity | apply Hlookup].
  - (* Call *)
    destruct f; try reflexivity. simpl.
    repeat match goal with
           | |- (if ?c then _ else _) _ = _ => destruct c
           end; try reflexivity.
    apply Hlookup.
  - (* BinOp *)
    simpl. apply bind_ext; [apply IHl |]. intros tl s1.
    apply bind_ext; [apply IHr | reflexivity].
  - (* IfExp *)
    simpl. apply bind_ext; [apply IHb |]. intros tb s1.
    apply bind_ext; [apply IHo | reflexivity].
Qed.

Lemma resolve_ext_aux ann :
  (forall s, _resolve_annotation W l1 ann s = _resolve_annotation W l2 ann s) /\
  match ann with
  | Tuple elts =>
      Forall (fun e => forall s,
                _resolve_annotation W l1 e s = _resolve_annotation W l2 e s)
        elts
  | _ => True
  end.
Proof.
  induction ann as [items _ | elts _ | elts IH | elts _ | c | id
                   | f args _ _ | l op r _ _ | l cs _ _
                   | c b o _ _ _ | v sl _ IHsl | v a _ | b _]
    using expr_nested_ind;
    try (split; [reflexivity | exact I]).
  - (* Tuple *)
    split; [reflexivity |].
    rewrite List.Forall_forall in *. intros x Hx. now apply IH.
  - (* Name *)
    split; [| exact I]. intros s. simpl.
    destruct (__builtins__ W id); [reflexivity | apply Hlookup].
  - (* Subscript *)
    split; [| exact I]. destruct IHsl as [Hsl Helts]. intros s.
    destruct v; try reflexivity. simpl.
    destruct (is_base id "List" "list").
    { apply bind_ext; [apply Hsl | reflexivity]. }
    destruct (is_base id "Dict" "dict").
    { destruct sl; try reflexivity.
      destruct elts as [|k [|v rest]]; try reflexivity.
      - rewrite List.Forall_forall in Helts.
        apply bind_ext; [apply Helts; now left | reflexivity].
      - rewrite List.Forall_forall in Helts.
        apply bind_ext; [apply Helts; now left |]. intros tk s1.
        apply bind_ext; [apply Helts; right; now left | reflexivity]. }
    destruct (is_base id "Set" "set").
    { apply bind_ext; [apply Hsl | reflexivity]. }
    destruct (is_base id "Tuple" "tuple").
    { destruct sl; try reflexivity.
      rewrite List.Forall_forall in Helts.
      apply bind_ext; [| reflexivity].
      apply mapM_ext. intros x Hx s0. now apply Helts. }
    destruct (String.eqb id "Optional").
    { apply bind_ext; [apply Hsl | reflexivity]. }
    destruct (String.eqb id "Union"); [| reflexivity].
    destruct sl; try reflexivity.
    rewrite List.Forall_forall in Helts.
    apply bind_ext; [| reflexivity].
    apply mapM_ext. intros x Hx s0. now apply Helts.
Qed.

Lemma resolve_ext ann s :
  _resolve_annotation W l1 ann s = _resolve_annotation W l2 ann s.
Proof. apply (proj1 (resolve_ext_aux ann)). Qed.

Lemma infer_from_def_ext func_def s :
  infer_from_def W fn1 l1 func_def s = infer_from_def W fn2 l2 func_def s.
Proof.
  destruct func_def; try reflexivity.
  destruct returns as [ann|]; [apply resolve_ext |].
  unfold infer_from_def, _analyze_function_body.
  apply bind_ext.
  - apply bind_ext.
    + apply foldM_ext. intros acc a s0. unfold seed_parameter.
      destruct (annotation a); [| reflexivity].
      apply bind_ext; [apply resolve_ext | reflexivity].
    + intros seeded s0. apply foldM_ext. intros acc node s1.
      destruct node; try reflexivity; simpl.
      * apply bind_ext; [apply infer_ext | reflexivity].
      * destruct target; try reflexivity.
        apply bind_ext; [apply resolve_ext | reflexivity].
  - intros T s1. apply bind_ext; [| reflexivity].
    apply foldM_ext. intros acc node s2.
    destruct node; try reflexivity. destruct value; [| reflexivity].
    simpl. apply bind_ext; [apply infer_ext | reflexivity].
Qed.

End Same_name.

Lemma get_return_type_replace_body W depth fn name args body returns rest
    body' s :
  return_annotation fn = None ->
  getsource fn = Parsed (FunctionDef name args body returns :: rest) ->
  get_return_type W (S depth) (replace_body fn body') s =
  infer_from_def W fn (_get_module_type W (get_return_type W depth) fn)
    (FunctionDef name args body' returns) s.
Proof.
  intros Hann Hsrc.
  rewrite (get_return_type_parsed W depth (replace_body fn body')
             (FunctionDef name args body' returns) rest);
    [| exact Hann | unfold replace_body; simpl; now rewrite Hsrc].
  apply infer_from_def_ext; reflexivity.
Qed.

(** X10: binding a name to an expression and returning the name is the
    same as returning the expression: for one function object and
    signature, [get_return_type] computes the same on the body
    [x = e; return x] as on the body [return e], result, classes created
    and exceptions alike. *)
Theorem assign_then_return_is_return W depth fn name args body rest x e s :
  return_annotation fn = None ->
  getsource fn = Parsed (FunctionDef name args body None :: rest) ->
  get_return_type W (S depth)
    (replace_body fn [Assign [Name x] e; Return (Some (Name x))]) s
  = get_return_type W (S depth) (replace_body fn [Return (Some e)]) s.
Proof.
  intros Hann Hsrc.
  rewrite !(get_return_type_replace_body _ _ _ _ _ _ _ _ _ _ Hann Hsrc).
  unfold infer_from_def, _analyze_function_body.
  change (ast_walk (FunctionDef name args
                      [Assign [Name x] e; Return (Some (Name x))] None))
    with [FunctionDef name args
            [Assign [Name x] e; Return (Some (Name x))] None;
          Assign [Name x] e; Return (Some (Name x))].
  change (ast_walk (FunctionDef name args [Return (Some e)] None))
    with [FunctionDef name args [Return (Some e)] None; Return (Some e)].
  unfold bind.
  destruct (foldM _ args ∅ s) as [[seeded s0]|err]; [| reflexivity].
  simpl. unfold bind, ret.
  destruct (_infer_expr_type _ _ _ e seeded [] s0) as [[t s1]|err];
    [| reflexivity].
  unfold bind_targets. simpl. now rewrite lookup_insert_eq.
Qed.

Lemma assign_then_return_is_return_witness :
  get_return_type Examples.W0 1
    (replace_body (Examples.def0 "f" [])
       [Assign [Name "x"] dict_a_b; Return (Some (Name "x"))]) 0
  = get_return_type Examples.W0 1
      (replace_body (Examples.def0 "f" []) [Return (Some dict_a_b)]) 0.
Proof.
  exact (assign_then_return_is_return Examples.W0 0 (Examples.def0 "f" [])
           "f" [] [] [] "x" dict_a_b 0 eq_refl eq_refl).
Defined.


(** X11: a function that returns one of its parameters gets the resolved
    annotation of the parameter: for [def f(..., x: ann, ...): return x],
    the other parameters without annotations, [get_return_type] computes
    what [_resolve_annotation] computes on [ann]. *)
Theorem returned_parameter_gets_its_annotation W depth fn name pre x ann post
    rest s :
  return_annotation fn = None ->
  getsource fn =
    Parsed (FunctionDef name
              (pre ++ {| arg_name := x; annotation := Some ann |} :: post)
              [Return (Some (Name x))] None :: rest) ->
  Forall (fun a => annotation a = None) pre ->
  Forall (fun a => annotation a = None) post ->
  get_return_type W (S depth) fn s =
  _resolve_annotation W (_get_module_type W (get_return_type W depth) fn) ann s.
Proof.
  intros Hann Hsrc Hpre Hpost.
  rewrite (get_return_type_parsed _ _ _ _ _ Hann Hsrc).
  unfold infer_from_def, _analyze_function_body.
  change (ast_walk (FunctionDef name
                      (pre ++ {| arg_name := x; annotation := Some ann |} :: post)
                      [Return (Some (Name x))] None))
    with [FunctionDef name
            (pre ++ {| arg_name := x; annotation := Some ann |} :: post)
            [Return (Some (Name x))] None;
          Return (Some (Name x))].
  unfold bind. rewrite foldM_app. unfold bind.
  rewrite (seed_unannotated _ _ _ _ Hpre). unfold ret at 1.
  cbn [foldM]. unfold bind, seed_parameter at 1. cbn [annotation arg_name].
  unfold bind.
  destruct (_resolve_annotation _ _ ann s) as [[t s1]|err]; [| reflexivity].
  unfold ret at 1. rewrite (seed_unannotated _ _ _ _ Hpost).
  unfold ret at 1. cbn [foldM analyze_node collect_return _infer_expr_type].
  unfold bind, ret. rewrite lookup_insert_eq. reflexivity.
Qed.

Lemma returned_parameter_gets_its_annotation_witness :
  get_return_type Examples.W0 1 f_identity 0 = Ok (TList py_int, 0).
Proof.
  exact (returned_parameter_gets_its_annotation Examples.W0 0 f_identity "f"
           [] "x" (Subscript (Name "list") (Name "int")) [] [] 0
           eq_refl eq_refl (@List.Forall_nil _ _) (@List.Forall_nil _ _)).
Defined.


(** X12: an annotated assignment binds the name to the resolved
    annotation and never looks at the value: for
    [def f(...): x: ann = value; return x], parameters without
    annotations, [get_return_type] computes what [_resolve_annotation]
    computes on [ann], whatever the value is (also none, or one whose
    inference would raise). *)
Theorem annotated_assignment_ignores_its_value W depth fn name args x ann value
    rest s :
  return_annotation fn = None ->
  getsource fn =
    Parsed (FunctionDef name args
              [AnnAssign (Name x) ann value; Return (Some (Name x))] None
            :: rest) ->
  Forall (fun a => annotation a = None) args ->
  get_return_type W (S depth) fn s =
  _resolve_annotation W (_get_module_type W (get_return_type W depth) fn) ann s.
Proof.
  intros Hann Hsrc Hargs.
  rewrite (get_return_type_parsed _ _ _ _ _ Hann Hsrc).
  unfold infer_from_def, _analyze_function_body.
  rewrite (seed_unannotated _ _ _ _ Hargs).
  change (ast_walk (FunctionDef name args
                      [AnnAssign (Name x) ann value; Return (Some (Name x))]
                      None))
    with [FunctionDef name args
            [AnnAssign (Name x) ann value; Return (Some (Name x))] None;
          AnnAssign (Name x) ann value; Return (Some (Name x))].
  cbn [foldM analyze_node collect_return _infer_expr_type].
  unfold bind, ret.
  destruct (_resolve_annotation _ _ ann s) as [[t s1]|err]; [| reflexivity].
  rewrite lookup_insert_eq. reflexivity.
Qed.

(** [def f(): x: int = {{"a": 1}: 2}; return x] *)
Lemma annotated_assignment_ignores_its_value_witness :
  get_return_type Examples.W0 1
    (Examples.def0 "f"
       [AnnAssign (Name "x") (Name "int")
          (Some (Dict [(Some (Examples.record_ [("a", Examples.int_ 1)]),
                        Examples.int_ 2)]));
        Return (Some (Name "x"))]) 0
  = Ok (py_int, 0).
Proof.
  exact (annotated_assignment_ignores_its_value Examples.W0 0
           (Examples.def0 "f"
              [AnnAssign (Name "x") (Name "int")
                 (Some (Dict [(Some (Examples.record_ [("a", Examples.int_ 1)]),
                               Examples.int_ 2)]));
               Return (Some (Name "x"))])
           "f" [] "x" (Name "int")
           (Some (Dict [(Some (Examples.record_ [("a", Examples.int_ 1)]),
                         Examples.int_ 2)])) [] 0
           eq_refl eq_refl (@List.Forall_nil _ _)).
Defined.

(** X13: a function that returns the call of a name ([return g(...)],
    parameters without annotations, [g] none of the conversions
    [int], [str], [float], [list], [dict], [set], [tuple]) gets what the
    module of the function holds under that name: the class itself when it
    is a class, the return type [get_return_type] gives the callable when
    it is another callable (records named after the callee, and its
    exceptions passed on), and [Any] otherwise.  Neither the arguments of
    the call nor the symbol table are looked at. *)
Theorem returned_call_gets_the_callee_type W depth fn name args rest g
    call_args s :
  return_annotation fn = None ->
  getsource fn =
    Parsed (FunctionDef name args
              [Return (Some (Call (Name g) call_args))] None :: rest) ->
  Forall (fun a => annotation a = None) args ->
  existsb (String.eqb g) converter_names = false ->
  get_return_type W (S (S depth)) fn s =
    match module_attr W (__module__ fn) g with
    | Some (AType t) => Ok (t, s)
    | Some (ACallable callee) => get_return_type W (S depth) callee s
    | _ => Ok (TAny, s)
    end.
Proof.
  intros Hann Hsrc Hargs Hg.
  rewrite (get_return_type_parsed _ _ _ _ _ Hann Hsrc).
  unfold infer_from_def, _analyze_function_body.
  rewrite (seed_unannotated _ _ _ _ Hargs).
  change (ast_walk (FunctionDef name args
                      [Return (Some (Call (Name g) call_args))] None))
    with [FunctionDef name args
            [Return (Some (Call (Name g) call_args))] None;
          Return (Some (Call (Name g) call_args))].
  simpl in Hg. repeat (apply orb_false_elim in Hg as [?E Hg]).
  cbn [foldM analyze_node collect_return _infer_expr_type].
  rewrite E, E0, E1, E2, E3, E4, E5.
  unfold bind, ret, _get_module_type. cbn [app].
  destruct (module_attr W (__module__ fn) g) as [[t | callee |]|];
    try reflexivity.
  destruct (get_return_type W (S depth) callee s) as [[t s1]|err];
    reflexivity.
Qed.

(** [def f(): return make()] gets the record of [make], named after
    [make]. *)
Lemma returned_call_gets_the_callee_type_witness :
  get_return_type W_make 2 f_calls_make 0
  = Ok (TTypedDict 0 "MakeReturn" [("a", py_int); ("b", py_str)], 1).
Proof.
  exact (returned_call_gets_the_callee_type W_make 0 f_calls_make "f" [] []
           "make" [] 0 eq_refl eq_refl (@List.Forall_nil _ _) eq_refl).
Defined.

(** ** The order of the return types *)

Lemma forallb_eq_in {A} (f g : A -> bool) l :
  (forall x, In x l -> f x = g x) -> forallb f l = forallb g l.
Proof.
  induction l as [|x l IH]; intros H; simpl; [reflexivity |].
  rewrite (H x) by (now left). rewrite IH; [reflexivity |].
  intros y Hy. apply H. now right.
Qed.

Lemma existsb_eq_in {A} (f g : A -> bool) l :
  (forall x, In x l -> f x = g x) -> existsb f l = existsb g l.
Proof.
  induction l as [|x l IH]; intros H; simpl; [reflexivity |].
  rewrite (H x) by (now left). rewrite IH; [reflexivity |].
  intros y Hy. apply H. now right.
Qed.

Lemma ty_eqb_sym a : forall b, ty_eqb a b = ty_eqb b a.
Proof.
  induction a as [| n | n | | | | t IH | t IH | k v IHk IHv | ts IH | ts IH
                 | i n fs _] using ty_nested_ind;
    intros b; destruct b; simpl; try reflexivity;
    try (apply String.eqb_sym); try (apply IH).
  - now rewrite IHk, IHv.
  - revert elems. induction IH as [|x l Hx _ IHl]; intros [|y ys];
      try reflexivity.
    now rewrite Hx, IHl.
  - rewrite List.Forall_forall in IH. rewrite andb_comm. f_equal.
    + apply forallb_eq_in. intros y _. apply existsb_eq_in.
      intros x Hx. now apply IH.
    + apply forallb_eq_in. intros x Hx. apply existsb_eq_in.
      intros y _. now apply IH.
  - apply Nat.eqb_sym.
Qed.

Lemma ty_eqb_trans a : forall b c,
  ty_eqb a b = true -> ty_eqb b c = true -> ty_eqb a c = true.
Proof.
  induction a as [| n | n | | | | t IH | t IH | k v IHk IHv | ts IH | ts IH
                 | i n fs _] using ty_nested_ind;
    intros b c Hab Hbc; destruct b; try discriminate Hab;
    destruct c; try discriminate Hbc; simpl in *; try reflexivity.
  - apply String.eqb_eq in Hab, Hbc. subst. apply String.eqb_refl.
  - apply String.eqb_eq in Hab, Hbc. subst. apply String.eqb_refl.
  - eapply IH; eauto.
  - eapply IH; eauto.
  - apply andb_true_iff in Hab as [H1 H2]. apply andb_true_iff in Hbc as [H3 H4].
    rewrite (IHk _ _ H1 H3), (IHv _ _ H2 H4). reflexivity.
  - revert elems elems0 Hab Hbc.
    induction IH as [|x l Hx _ IHl]; intros [|y ys] [|z zs] Hab Hbc;
      try discriminate; try reflexivity.
    apply andb_true_iff in Hab as [H1 H2]. apply andb_true_iff in Hbc as [H3 H4].
    rewrite (Hx _ _ H1 H3), (IHl _ _ H2 H4). reflexivity.
  - rewrite List.Forall_forall in IH.
    apply andb_true_iff in Hab as [H1 H2]. apply andb_true_iff in Hbc as [H3 H4].
    rewrite forallb_forall in H1, H2, H3, H4.
    apply andb_true_iff. split; apply forallb_forall.
    + intros x Hx. specialize (H1 x Hx).
      apply existsb_exists in H1 as (y & Hy & Exy).
      specialize (H3 y Hy). apply existsb_exists in H3 as (z & Hz & Eyz).
      apply existsb_exists. exists z. split; [exact Hz |].
      eapply IH; eauto.
    + intros z Hz. specialize (H4 z Hz).
      apply existsb_exists in H4 as (y & Hy & Eyz).
      specialize (H2 y Hy). apply existsb_exists in H2 as (x & Hx & Exy).
      apply existsb_exists. exists x. split; [exact Hx |].
      eapply IH; eauto.
  - apply Nat.eqb_eq in Hab, Hbc. subst. apply Nat.eqb_refl.
Qed.

Lemma ty_mem_eqb x x' l :
  ty_eqb x x' = true -> ty_mem x l = true -> ty_mem x' l = true.
Proof.
  unfold ty_mem. intros He Hm. apply existsb_exists in Hm as (y & Hy & Eyx).
  apply existsb_exists. exists y. split; [exact Hy |].
  eapply ty_eqb_trans; eauto.
Qed.

Lemma ty_mem_inv x l : ty_mem x l = true -> exists y, In y l /\ ty_eqb y x = true.
Proof. unfold ty_mem. intros H. now apply existsb_exists in H. Qed.

Lemma covered_trans a b c : covered a b -> covered b c -> covered a c.
Proof.
  intros Hab Hbc x Hx. apply Hab in Hx. apply ty_mem_inv in Hx as (y & Hy & E).
  eapply ty_mem_eqb; [exact E | now apply Hbc].
Qed.

Lemma covered_py_set l : covered l (py_set l) /\ covered (py_set l) l.
Proof.
  split; intros x Hx.
  - exact (py_set_from_covers l [] x Hx).
  - apply ty_mem_In. exact (py_set_from_In l [] x Hx).
Qed.

Lemma covered_permutation l l' : Permutation l l' -> covered l l'.
Proof.
  intros Hp x Hx. apply ty_mem_In. eapply Permutation_in; eauto.
Qed.

Lemma covered_union_args l l' :
  covered l l' -> covered (flat_map union_args l) (flat_map union_args l').
Proof.
  intros Hc x Hx. apply in_flat_map in Hx as (p & Hp & Hx).
  apply Hc in Hp. apply ty_mem_inv in Hp as (p' & Hp' & E).
  destruct p; destruct p'; try discriminate E; simpl in Hx;
    try (destruct Hx as [<- | []];
         unfold ty_mem; apply existsb_exists; eexists;
         split; [apply in_flat_map; eexists; split; [exact Hp' | now left]
                | exact E]).
  simpl in E. apply andb_true_iff in E as [_ E].
  rewrite forallb_forall in E. specialize (E x Hx).
  apply existsb_exists in E as (x' & Hx' & E).
  unfold ty_mem. apply existsb_exists. exists x'. split; [| exact E].
  apply in_flat_map. eexists. split; [exact Hp' | exact Hx'].
Qed.

Lemma covered_bare_union l l' :
  covered l l' -> existsb is_bare_union l = true ->
  existsb is_bare_union l' = true.
Proof.
  intros Hc H. apply existsb_exists in H as (x & Hx & Eb).
  apply Hc in Hx. apply ty_mem_inv in Hx as (y & Hy & E).
  apply existsb_exists. exists y. split; [exact Hy |].
  destruct x; try discriminate Eb. now destruct y.
Qed.

Lemma covered_nil l : covered l [] -> l = [].
Proof.
  destruct l as [|x l]; [reflexivity |]. intros H.
  specialize (H x (or_introl eq_refl)). discriminate H.
Qed.

(** [Union[...]] of two lists with equal members gives equal types. *)
Lemma mk_union_covered params params' s :
  covered params params' -> covered params' params ->
  (forall r s1, mk_union params s = Ok (r, s1) ->
     exists r', mk_union params' s = Ok (r', s1) /\ ty_eqb r r' = true) /\
  (forall e, mk_union params s = Raise e -> mk_union params' s = Raise e).
Proof.
  intros H12 H21.
  destruct params as [|p params].
  { apply covered_nil in H21. subst params'. split; [discriminate | auto]. }
  destruct params' as [|p' params'].
  { apply covered_nil in H12. discriminate. }
  assert (Hb : existsb is_bare_union (p :: params)
               = existsb is_bare_union (p' :: params')).
  { destruct (existsb is_bare_union (p :: params)) eqn:E1;
      destruct (existsb is_bare_union (p' :: params')) eqn:E2; try reflexivity.
    - apply (covered_bare_union _ _ H12) in E1. congruence.
    - apply (covered_bare_union _ _ H21) in E2. congruence. }
  unfold mk_union. rewrite <- Hb.
  destruct (existsb is_bare_union (p :: params)); [split; [discriminate | auto] |].
  set (ms := py_set (flat_map union_args (p :: params))).
  set (ms' := py_set (flat_map union_args (p' :: params'))).
  assert (Hc : covered ms ms').
  { eapply covered_trans; [apply covered_py_set |].
    eapply covered_trans; [apply covered_union_args, H12 | apply covered_py_set]. }
  assert (Hc' : covered ms' ms).
  { eapply covered_trans; [apply covered_py_set |].
    eapply covered_trans; [apply covered_union_args, H21 | apply covered_py_set]. }
  assert (Hd : distinct_from [] ms = true) by apply py_set_from_distinct.
  assert (Hd' : distinct_from [] ms' = true) by apply py_set_from_distinct.
  clearbody ms ms'.
  assert (Hone : forall t a b r l l',
    l = [t] -> l' = a :: b :: r -> covered l' l ->
    distinct_from [] l' = true -> False).
  { intros t a b r l l' -> -> Hcov Hdis.
    pose proof (Hcov a (or_introl eq_refl)) as Ha.
    pose proof (Hcov b (or_intror (or_introl eq_refl))) as Hb'.
    unfold ty_mem in Ha, Hb'. simpl in Ha, Hb'.
    rewrite orb_false_r in Ha, Hb'.
    simpl in Hdis. apply andb_true_iff in Hdis as [Hdis _].
    apply negb_true_iff in Hdis. unfold ty_mem in Hdis. simpl in Hdis.
    rewrite orb_false_r in Hdis.
    rewrite (ty_eqb_sym t a) in Ha.
    rewrite (ty_eqb_trans _ _ _ Ha Hb') in Hdis. discriminate. }
  destruct ms as [|t [|t2 ms]]; destruct ms' as [|t' [|t2' ms']];
    try (apply covered_nil in Hc; discriminate);
    try (apply covered_nil in Hc'; discriminate).
  - split; [discriminate | auto].
  - split; [| discriminate]. intros r s1 H. inv_run H. subst.
    exists t'. split; [reflexivity |].
    pose proof (Hc r (or_introl eq_refl)) as H. unfold ty_mem in H. simpl in H.
    rewrite orb_false_r in H. now rewrite ty_eqb_sym.
  - exfalso. eapply (Hone t t' t2' ms'); eauto.
  - exfalso. eapply (Hone t' t t2 ms); eauto.
  - split; [| discriminate]. intros r s1 H. inv_run H. subst.
    eexists. split; [reflexivity |].
    change (forallb (fun x => existsb (fun y => ty_eqb x y) (t' :: t2' :: ms'))
              (t :: t2 :: ms)
            && forallb (fun y => existsb (fun x => ty_eqb x y) (t :: t2 :: ms))
                 (t' :: t2' :: ms') = true).
    apply andb_true_iff. split; apply forallb_forall.
    + intros x Hx. apply Hc in Hx. apply ty_mem_inv in Hx as (y & Hy & E).
      apply existsb_exists. exists y. split; [exact Hy |]. now rewrite ty_eqb_sym.
    + intros y Hy. apply Hc' in Hy. exact Hy.
Qed.

(** X14: the last step of [get_return_type] does not depend on the order
    of the return types.  For two lists of return types that are
    rearrangements of each other, it returns equal ([==]) types, or raises
    the same exception, and creates no class.  So neither the order in
    which the walk meets the [return] statements nor the order in which
    [set] hands out its elements changes the type, as types compare. *)
Theorem unified_type_ignores_order rts rts' s :
  Permutation rts rts' ->
  (forall r s1, unify_return_types rts s = Ok (r, s1) ->
     s1 = s /\
     exists r', unify_return_types rts' s = Ok (r', s) /\ ty_eqb r r' = true) /\
  (forall e, unify_return_types rts s = Raise e ->
     unify_return_types rts' s = Raise e).
Proof.
  intros Hp.
  destruct rts as [|t [|t2 rts]].
  - apply Permutation_nil in Hp. subst. split; [| discriminate].
    intros r s1 H. simpl in H. inv_run H. subst. split; [reflexivity |].
    exists TAny. split; reflexivity.
  - apply Permutation_length_1_inv in Hp. subst. split; [| discriminate].
    intros r s1 H. simpl in H. inv_run H. subst. split; [reflexivity |].
    exists r. split; [reflexivity | apply ty_eqb_refl].
  - pose proof (Permutation_length Hp) as Hlen.
    destruct rts' as [|t' [|t2' rts']]; try discriminate Hlen.
    unfold unify_return_types, union_of_set.
    assert (Hc : covered (py_set (t :: t2 :: rts)) (py_set (t' :: t2' :: rts'))).
    { eapply covered_trans; [apply covered_py_set |].
      eapply covered_trans; [apply covered_permutation, Hp | apply covered_py_set]. }
    assert (Hc' : covered (py_set (t' :: t2' :: rts')) (py_set (t :: t2 :: rts))).
    { eapply covered_trans; [apply covered_py_set |].
      eapply covered_trans;
        [apply covered_permutation; symmetry; exact Hp | apply covered_py_set]. }
    destruct (mk_union_covered _ _ s Hc Hc') as [Hok Herr].
    split; [| exact Herr].
    intros r s1 H. pose proof (mk_union_state _ _ _ _ H) as ->.
    split; [reflexivity |]. now apply Hok.
Qed.

Lemma unified_type_ignores_order_witness :
  exists r',
    unify_return_types [py_str; py_int; py_str] 0 = Ok (r', 0) /\
    ty_eqb (TUnion [py_int; py_str]) r' = true.
Proof.
  exact (proj2 (proj1 (unified_type_ignores_order [py_int; py_str; py_str]
                         [py_str; py_int; py_str] 0
                         (perm_swap py_str py_int [py_str]))
                  (TUnion [py_int; py_str]) 0 eq_refl)).
Defined.

(** ** Classes are created at every call *)

Lemma counts_up_ret {A} (a : A) : counts_up (ret a).
Proof. intros s b s' H. inv_run H. lia. Qed.

Lemma counts_up_raise {A} e : counts_up (@raise A e).
Proof. intros s b s' H. discriminate. Qed.

Lemma counts_up_bind {A B} (m : M A) (k : A -> M B) :
  counts_up m -> (forall a, counts_up (k a)) -> counts_up (bind m k).
Proof.
  intros Hm Hk s b s' H. apply bind_Ok_inv in H as (a & s1 & H1 & H2).
  apply Hm in H1. apply Hk in H2. lia.
Qed.

Lemma counts_up_mapM {A B} (f : A -> M B) l :
  (forall x, In x l -> counts_up (f x)) -> counts_up (mapM f l).
Proof.
  induction l as [|x l IH]; intros H; simpl; [apply counts_up_ret |].
  apply counts_up_bind; [apply H; now left |]. intros y.
  apply counts_up_bind; [| intros; apply counts_up_ret].
  apply IH. intros x' Hx'. apply H. now right.
Qed.

Lemma counts_up_foldM {A B} (f : A -> B -> M A) l :
  (forall acc x, In x l -> counts_up (f acc x)) ->
  forall acc, counts_up (foldM f l acc).
Proof.
  induction l as [|x l IH]; intros H acc; simpl; [apply counts_up_ret |].
  apply counts_up_bind; [apply H; now left |]. intros acc'.
  apply IH. intros a x' Hx'. apply H. now right.
Qed.

Lemma counts_up_mk_union params : counts_up (mk_union params).
Proof. intros s r s' H. apply mk_union_state in H. lia. Qed.

Lemma counts_up_union_or a b : counts_up (union_or a b).
Proof.
  unfold union_or. destruct (unionable a && unionable b);
    [apply counts_up_mk_union | apply counts_up_raise].
Qed.

Lemma counts_up_first_type ts : counts_up (first_type ts).
Proof. destruct ts; [apply counts_up_raise | apply counts_up_ret]. Qed.

Lemma counts_up_element (wrap : ty -> ty) ts :
  counts_up (if one_type ts then let* t := first_type ts in ret (wrap t)
             else let* u := union_of_set ts in ret (wrap u)).
Proof.
  destruct (one_type ts); apply counts_up_bind;
    try (intros; apply counts_up_ret);
    [apply counts_up_first_type | apply counts_up_mk_union].
Qed.

Lemma counts_up_add_components path : forall class_name,
  counts_up (add_components class_name path).
Proof.
  induction path as [|c path IH]; intros cn; simpl; [apply counts_up_ret |].
  apply counts_up_bind; [| intros; apply IH].
  destruct c; [apply counts_up_ret | apply counts_up_raise].
Qed.

Lemma add_components_state path : forall class_name s n s',
  add_components class_name path s = Ok (n, s') -> s' = s.
Proof.
  induction path as [|[k|k] path IH]; intros cn s n s' H; simpl in H.
  - now inv_run H.
  - inv_run H. inv_run H0. subst. eapply IH; eauto.
  - inv_run H. discriminate.
Qed.

Section Record_counts.

Variable fn : func.
Variable infer : expr -> gmap string ty -> list path_component -> M ty.
Variable st : gmap string ty.

Lemma counts_up_collect_fields items :
  (forall item, In item items -> forall p, counts_up (infer (snd item) st p)) ->
  forall path acc, counts_up (collect_fields infer items st path acc).
Proof.
  induction items as [|[key value] items IH]; intros H path acc; simpl;
    [apply counts_up_ret |].
  destruct (is_str_key key); [| apply counts_up_ret].
  apply counts_up_bind; [apply (H (key, value)); now left |].
  intros t. apply IH. intros item Hi. apply H. now right.
Qed.

Lemma counts_up_TypedDict n fs : counts_up (TypedDict n fs).
Proof.
  unfold TypedDict. destruct (existsb _ fs); [apply counts_up_raise |].
  intros s a s' H. injection H as <- <-. lia.
Qed.

Lemma counts_up_create_typed_dict items path :
  (forall item, In item items -> forall p, counts_up (infer (snd item) st p)) ->
  (forall item k, In item items -> fst item = Some k ->
     forall p, counts_up (infer k st p)) ->
  counts_up (create_typed_dict fn infer items st path).
Proof.
  intros Hv Hk. unfold create_typed_dict.
  apply counts_up_bind; [now apply counts_up_collect_fields |].
  intros [fs valid].
  destruct (valid && negb (Nat.eqb (length fs) 0)).
  - apply counts_up_bind; [apply counts_up_add_components |].
    intros cn. apply counts_up_TypedDict.
  - destruct items as [|item rest] eqn:Ei; [apply counts_up_ret |].
    rewrite <- Ei in *.
    apply counts_up_bind.
    { apply counts_up_mapM. intros it Hit. unfold infer_key.
      destruct (fst it) as [k|] eqn:Ek; [eapply Hk; eauto | apply counts_up_ret]. }
    intros kts. apply counts_up_bind.
    { apply counts_up_mapM. intros it Hit. now apply Hv. }
    intros vts.
    repeat match goal with
           | |- counts_up (if ?c then _ else _) => destruct c
           end;
      repeat (apply counts_up_bind;
              [first [apply counts_up_first_type | apply counts_up_mk_union] |
               intros ?]);
      apply counts_up_ret.
Qed.

(** The class of a record literal is the newest class. *)
Lemma create_typed_dict_new items path s i n fields s' :
  (forall item, In item items -> forall p, counts_up (infer (snd item) st p)) ->
  create_typed_dict fn infer items st path s = Ok (TTypedDict i n fields, s') ->
  s <= i /\ s' = S i.
Proof.
  intros Hv H. unfold create_typed_dict in H.
  apply bind_Ok_inv in H as ([fs valid] & s1 & Hc & H).
  apply (counts_up_collect_fields items Hv) in Hc.
  destruct (valid && negb (Nat.eqb (length fs) 0)).
  - apply bind_Ok_inv in H as (cn & s2 & Hn & H).
    apply add_components_state in Hn. subst s2.
    unfold TypedDict in H. destruct (existsb _ fs); [discriminate |].
    injection H as <- <- <- <-. split; [exact Hc | reflexivity].
  - destruct items as [|item rest] eqn:Ei; [inv_run H; discriminate |].
    rewrite <- Ei in H.
    apply bind_Ok_inv in H as (kts & s2 & H1 & H).
    apply bind_Ok_inv in H as (vts & s3 & H2 & H).
    repeat match type of H with
           | (if ?c then _ else _) _ = _ => destruct c
           end;
      inv_run H; inv_run H; inv_run H; discriminate.
Qed.

End Record_counts.

Section Counts.

Variable W : world.
Variable fn : func.
Variable lookup : string -> M ty.
Hypothesis Hlookup : forall name, counts_up (lookup name).

Lemma counts_up_infer e : forall st path,
  counts_up (_infer_expr_type W fn lookup e st path).
Proof.
  induction e as [items IH | elts IH | elts IH | elts IH | c | id
                 | f args _ _ | l op r IHl IHr | l cs _ _
                 | c b o _ IHb IHo | v sl _ _ | v a _ | b _]
    using expr_nested_ind; intros st path; try apply counts_up_ret.
  - (* Dict *)
    change (counts_up (create_typed_dict fn (_infer_expr_type W fn lookup)
                         items st path)).
    rewrite List.Forall_forall in IH.
    apply counts_up_create_typed_dict.
    + intros item Hi p. apply (proj2 (IH item Hi)).
    + intros item k Hi Ek p.
      pose proof (proj1 (IH item Hi)) as IHk. rewrite Ek in IHk. apply IHk.
  - (* List *)
    destruct elts as [|e elts]; [apply counts_up_ret |].
    rewrite List.Forall_forall in IH.
    change (counts_up
              (bind (mapM (fun elt => _infer_expr_type W fn lookup elt st path)
                       (e :: elts))
                 (fun element_types =>
                    if one_type element_types then
                      let* t := first_type element_types in ret (TList t)
                    else
                      let* u := union_of_set element_types in ret (TList u)))).
    apply counts_up_bind; [| intros; apply counts_up_element].
    apply counts_up_mapM. intros x Hx. now apply IH.
  - (* Tuple *)
    destruct elts as [|e elts]; [apply counts_up_ret |].
    rewrite List.Forall_forall in IH.
    change (counts_up
              (bind (mapM (fun elt => _infer_expr_type W fn lookup elt st path)
                       (e :: elts))
                 (fun element_types => ret (TTuple element_types)))).
    apply counts_up_bind; [| intros; apply counts_up_ret].
    apply counts_up_mapM. intros x Hx. now apply IH.
  - (* Set *)
    destruct elts as [|e elts]; [apply counts_up_ret |].
    rewrite List.Forall_forall in IH.
    change (counts_up
              (bind (mapM (fun elt => _infer_expr_type W fn lookup elt st path)
                       (e :: elts))
                 (fun element_types =>
                    if one_type element_types then
                      let* t := first_type element_types in ret (TSet t)
                    else
                      let* u := union_of_set element_types in ret (TSet u)))).
    apply counts_up_bind; [| intros; apply counts_up_element].
    apply counts_up_mapM. intros x Hx. now apply IH.
  - (* Name *)
    simpl. destruct (st !! id); [apply counts_up_ret |].
    destruct (__builtins__ W id) as [t|]; [| apply Hlookup].
    destruct (is_class t); [apply counts_up_ret | apply Hlookup].
  - (* Call *)
    destruct f; try apply counts_up_ret. simpl.
    repeat match goal with
           | |- counts_up (if ?c then _ else _) => destruct c
           end; try apply counts_up_ret.
    apply Hlookup.
  - (* BinOp *)
    simpl. apply counts_up_bind; [apply IHl |]. intros tl.
    apply counts_up_bind; [apply IHr |]. intros tr.
    repeat match goal with
           | |- counts_up (if ?c then _ else _) => destruct c
           end; apply counts_up_ret.
  - (* IfExp *)
    simpl. apply counts_up_bind; [apply IHb |]. intros tb.
    apply counts_up_bind; [apply IHo |]. intros to.
    apply counts_up_union_or.
Qed.

Lemma counts_up_resolve_aux ann :
  counts_up (_resolve_annotation W lookup ann) /\
  match ann with
  | Tuple elts =>
      Forall (fun e => counts_up (_resolve_annotation W lookup e)) elts
  | _ => True
  end.
Proof.
  induction ann as [items _ | elts _ | elts IH | elts _ | c | id
                   | f args _ _ | l op r _ _ | l cs _ _
                   | c b o _ _ _ | v sl _ IHsl | v a _ | b _]
    using expr_nested_ind;
    try (split; [apply counts_up_ret | exact I]).
  - (* Tuple *)
    split; [apply counts_up_ret |].
    rewrite List.Forall_forall in *. intros x Hx. now apply IH.
  - (* Name *)
    split; [| exact I]. simpl.
    destruct (__builtins__ W id); [apply counts_up_ret | apply Hlookup].
  - (* Subscript *)
    split; [| exact I]. destruct IHsl as [Hsl Helts].
    destruct v; try apply counts_up_ret. simpl.
    destruct (is_base id "List" "list").
    { apply counts_up_bind; [apply Hsl | intros; apply counts_up_ret]. }
    destruct (is_base id "Dict" "dict").
    { destruct sl; try apply counts_up_ret.
      destruct elts as [|k [|v rest]]; try apply counts_up_raise.
      - rewrite List.Forall_forall in Helts.
        apply counts_up_bind; [apply Helts; now left |].
        intros; apply counts_up_raise.
      - rewrite List.Forall_forall in Helts.
        apply counts_up_bind; [apply Helts; now left |]. intros tk.
        apply counts_up_bind; [apply Helts; right; now left |].
        intros; apply counts_up_ret. }
    destruct (is_base id "Set" "set").
    { apply counts_up_bind; [apply Hsl | intros; apply counts_up_ret]. }
    destruct (is_base id "Tuple" "tuple").
    { destruct sl; try apply counts_up_ret.
      rewrite List.Forall_forall in Helts.
      apply counts_up_bind; [| intros; apply counts_up_ret].
      apply counts_up_mapM. intros x Hx. now apply Helts. }
    destruct (String.eqb id "Optional").
    { apply counts_up_bind; [apply Hsl | intros; apply counts_up_mk_union]. }
    destruct (String.eqb id "Union"); [| apply counts_up_ret].
    destruct sl; try apply counts_up_ret.
    rewrite List.Forall_forall in Helts.
    apply counts_up_bind; [| intros; apply counts_up_mk_union].
    apply counts_up_mapM. intros x Hx. now apply Helts.
Qed.

Lemma counts_up_resolve ann : counts_up (_resolve_annotation W lookup ann).
Proof. apply (proj1 (counts_up_resolve_aux ann)). Qed.

Lemma counts_up_seed args : forall st,
  counts_up (foldM (seed_parameter W lookup) args st).
Proof.
  apply counts_up_foldM. intros acc a _. unfold seed_parameter.
  destruct (annotation a); [| apply counts_up_ret].
  apply counts_up_bind; [apply counts_up_resolve | intros; apply counts_up_ret].
Qed.

Lemma counts_up_analyze nodes : forall st,
  counts_up (foldM (analyze_node W fn lookup) nodes st).
Proof.
  apply counts_up_foldM. intros acc node _.
  destruct node; simpl; try apply counts_up_ret.
  - apply counts_up_bind; [apply counts_up_infer | intros; apply counts_up_ret].
  - destruct target; try apply counts_up_ret.
    apply counts_up_bind; [apply counts_up_resolve | intros; apply counts_up_ret].
Qed.

Lemma counts_up_collect T nodes : forall acc,
  counts_up (foldM (collect_return W fn lookup T) nodes acc).
Proof.
  apply counts_up_foldM. intros acc node _.
  destruct node; simpl; try apply counts_up_ret.
  destruct value; [| apply counts_up_ret].
  apply counts_up_bind; [apply counts_up_infer | intros; apply counts_up_ret].
Qed.

Lemma counts_up_unify rts : counts_up (unify_return_types rts).
Proof.
  destruct rts as [|t [|t2 rts]]; simpl; try apply counts_up_ret.
  apply counts_up_mk_union.
Qed.

Lemma counts_up_infer_from_def func_def :
  counts_up (infer_from_def W fn lookup func_def).
Proof.
  destruct func_def; try apply counts_up_raise.
  destruct returns as [ann|]; [apply counts_up_resolve |].
  unfold infer_from_def, _analyze_function_body.
  apply counts_up_bind.
  - apply counts_up_bind; [apply counts_up_seed | intros; apply counts_up_analyze].
  - intros T. apply counts_up_bind; [apply counts_up_collect |].
    intros; apply counts_up_unify.
Qed.

(** The return loop over nodes with a single return that has a value. *)
Lemma collect_single_return T nodes e : forall acc s rts s',
  value_returns nodes = [e] ->
  foldM (collect_return W fn lookup T) nodes acc s = Ok (rts, s') ->
  exists sa t sb,
    s <= sa /\ _infer_expr_type W fn lookup e T [] sa = Ok (t, sb) /\
    sb <= s' /\ rts = acc ++ [t].
Proof.
  induction nodes as [|node nodes IH]; intros acc s rts s' Hn H;
    [discriminate Hn |].
  simpl in H. apply bind_Ok_inv in H as (acc1 & s1 & H1 & H).
  simpl in Hn.
  destruct node;
    try (simpl in H1; inv_run H1; subst acc1 s1;
         exact (IH _ _ _ _ Hn H)).
  destruct value as [e0|];
    [| simpl in H1; inv_run H1; subst acc1 s1; exact (IH _ _ _ _ Hn H)].
  simpl in Hn. injection Hn as -> Hn.
  simpl in H1. apply bind_Ok_inv in H1 as (t & s2 & Ht & H1).
  inv_run H1. subst acc1 s1.
  exists s, t, s2. split; [lia |]. split; [exact Ht |].
  assert (Hrest : foldM (collect_return W fn lookup T) nodes (acc ++ [t]) s2
                  = Ok (acc ++ [t], s2)).
  { clear -Hn. revert Hn. generalize (acc ++ [t]). generalize s2.
    induction nodes as [|node nodes IHn]; intros s0 a Hn; [reflexivity |].
    simpl in Hn. apply app_eq_nil in Hn as [Hn1 Hn2].
    simpl. unfold bind.
    destruct node; simpl; try (apply IHn; exact Hn2).
    destruct value as [e|]; [discriminate | apply IHn; exact Hn2]. }
  rewrite Hrest in H. injection H as <- <-. split; [lia | reflexivity].
Qed.

End Counts.

Lemma counts_up_get_return_type W depth : forall fn,
  counts_up (get_return_type W depth fn).
Proof.
  induction depth as [|depth IH]; intros fn; [apply counts_up_raise |].
  simpl. destruct (return_annotation fn); [apply counts_up_ret |].
  destruct (getsource fn) as [| | [|func_def rest]];
    try apply counts_up_raise; try apply counts_up_ret.
  apply counts_up_infer_from_def. intros name. unfold _get_module_type.
  destruct (module_attr W (__module__ fn) name) as [[t | g |]|];
    try apply counts_up_ret. apply IH.
Qed.

Lemma counts_up_lookup W depth fn name :
  counts_up (_get_module_type W (get_return_type W depth) fn name).
Proof.
  unfold _get_module_type.
  destruct (module_attr W (__module__ fn) name) as [[t | g |]|];
    try apply counts_up_ret. apply counts_up_get_return_type.
Qed.

(** A function whose only [return] with a value returns a record-shaped
    dict literal gets a class made during the call. *)
Lemma single_record_return W depth fn name args body rest items s t s' :
  return_annotation fn = None ->
  getsource fn = Parsed (FunctionDef name args body None :: rest) ->
  value_returns (source_order (FunctionDef name args body None))
    = [Dict items] ->
  record_shaped items = true ->
  get_return_type W (S depth) fn s = Ok (t, s') ->
  exists i fields,
    t = TTypedDict i (_snake_case_to_capital_case (__name__ fn) +:+ "Return")
          fields /\
    s <= i /\ i < s'.
Proof.
  intros Hann Hsrc Hvr Hshape H.
  destruct (get_return_type_unannotated _ _ _ _ _ _ _ _ _ _ Hann Hsrc H)
    as (seeded & s0 & T & s1 & rts & s2 & Hseed & Hana & Hret & Huni).
  pose proof (counts_up_lookup W depth fn) as Hl.
  apply (counts_up_seed W _ Hl) in Hseed.
  apply (counts_up_analyze W fn _ Hl) in Hana.
  assert (Hwalk : value_returns (ast_walk (FunctionDef name args body None))
                  = [Dict items]).
  { apply Permutation_length_1_inv. rewrite <- Hvr. symmetry.
    apply value_returns_permutation, ast_walk_permutation. }
  destruct (collect_single_return _ _ _ _ _ _ _ _ _ _ Hwalk Hret)
    as (sa & t0 & sb & Hsa & Hinf & Hsb & ->).
  simpl in Huni. inv_run Huni. subst t0 s2.
  change (_create_typed_dict_from_dict W fn
            (_get_module_type W (get_return_type W depth) fn) items T [] sa
          = Ok (t, sb)) in Hinf.
  pose proof (create_typed_dict_shape _ _ _ _ _ _ _ _ _ Hinf) as Hs.
  rewrite Hshape in Hs. destruct Hs as (i & n & fields & -> & -> & _).
  pose proof (record_class_name _ _ _ _ _ _ _ _ _ _ _ Hinf) as Hn.
  simpl in Hn. inv_run Hn. subst n.
  destruct (create_typed_dict_new fn _ T items [] sa i _ fields _
              (fun item _ p => counts_up_infer W fn _ Hl (snd item) T p) Hinf)
    as [Hi _].
  exists i, fields. split; [reflexivity | lia].
Qed.

(** X15: [get_return_type] infers a new class at every call.  For a
    function without a return annotation whose only [return] with a value
    returns a record-shaped dict literal, two calls, the second after the
    first, return two classes of the same name that are different objects:
    they do not compare equal. *)
Theorem record_class_is_new_at_every_call W depth fn name args body rest
    items s t1 s1 s1' t2 s2 :
  return_annotation fn = None ->
  getsource fn = Parsed (FunctionDef name args body None :: rest) ->
  value_returns (source_order (FunctionDef name args body None))
    = [Dict items] ->
  record_shaped items = true ->
  get_return_type W (S depth) fn s = Ok (t1, s1) ->
  s1 <= s1' ->
  get_return_type W (S depth) fn s1' = Ok (t2, s2) ->
  (exists i1 i2 n fields1 fields2,
      t1 = TTypedDict i1 n fields1 /\ t2 = TTypedDict i2 n fields2 /\
      i1 < i2) /\
  ty_eqb t1 t2 = false.
Proof.
  intros Hann Hsrc Hvr Hshape H1 Hle H2.
  destruct (single_record_return _ _ _ _ _ _ _ _ _ _ _ Hann Hsrc Hvr Hshape H1)
    as (i1 & f1 & -> & Hlo1 & Hhi1).
  destruct (single_record_return _ _ _ _ _ _ _ _ _ _ _ Hann Hsrc Hvr Hshape H2)
    as (i2 & f2 & -> & Hlo2 & Hhi2).
  split.
  - eexists i1, i2, _, f1, f2. repeat split. lia.
  - simpl. apply Nat.eqb_neq. lia.
Qed.

Lemma record_class_is_new_at_every_call_witness :
  get_return_type Examples.W0 1 f_make 0
    = Ok (TTypedDict 0 "MakeReturn" [("a", py_int); ("b", py_str)], 1) /\
  get_return_type Examples.W0 1 f_make 1
    = Ok (TTypedDict 1 "MakeReturn" [("a", py_int); ("b", py_str)], 2) /\
  ty_eqb (TTypedDict 0 "MakeReturn" [("a", py_int); ("b", py_str)])
    (TTypedDict 1 "MakeReturn" [("a", py_int); ("b", py_str)]) = false.
Proof.
  split; [reflexivity |]. split; [reflexivity |].
  exact (proj2 (record_class_is_new_at_every_call Examples.W0 0 f_make
                  "make" [] [Return (Some dict_a_b)] []
                  [(Some (Examples.str_ "a"), Examples.int_ 1);
                   (Some (Examples.str_ "b"), Examples.str_ "x")]
                  0 _ 1 1 _ 2 eq_refl eq_refl eq_refl eq_refl eq_refl
                  (le_n 1) eq_refl)).
Defined.

(** ** Filling keeps the other entries *)

(** X16: a call of [fill_inferred_type_hints] that returns changes nothing
    of the function but the ["return"] entry of its annotations: name,
    module and source are the same, every other entry of the annotations
    keeps its value and its place, and the ["return"] entry, when it was
    missing, is added after them. *)
Theorem fill_touches_only_the_return_entry W depth fn fn' s s' :
  fill_inferred_type_hints W depth fn s = Ok (fn', s') ->
  __name__ fn' = __name__ fn /\ __module__ fn' = __module__ fn /\
  getsource fn' = getsource fn /\
  exists d',
    __annotations__ fn' = Some d' /\
    (forall k, k <> "return" -> dict_get d' k = dict_get (slot_dict fn) k) /\
    map fst d' =
      match return_annotation fn with
      | Some _ => map fst (slot_dict fn)
      | None => map fst (slot_dict fn) ++ ["return"]
      end.
Proof.
  unfold fill_inferred_type_hints. rewrite slot_dict_get.
  destruct (return_annotation fn) as [t|] eqn:Hann; intros H.
  - inv_run H. subst fn' s'. repeat split. exists (slot_dict fn).
    repeat split.
  - apply bind_Ok_inv in H as (t & s1 & Ht & H). inv_run H. subst fn' s'.
    repeat split. exists (dict_set (slot_dict fn) "return" t).
    split; [reflexivity |]. split.
    + intros k Hk. apply dict_get_set_ne. congruence.
    + rewrite dict_set_keys, dict_get_None_keys; [reflexivity |].
      now rewrite slot_dict_get.
Qed.

Lemma fill_touches_only_the_return_entry_witness :
  exists fn',
    fill_inferred_type_hints Examples.W0 1 f_annotated_parameter 0
      = Ok (fn', 0) /\
    __annotations__ fn' = Some [("x", py_int); ("return", py_str)] /\
    __name__ fn' = "f" /\ getsource fn' = getsource f_annotated_parameter.
Proof.
  eexists. split; [reflexivity |].
  destruct (fill_touches_only_the_return_entry Examples.W0 1
              f_annotated_parameter _ 0 0 eq_refl)
    as (Hname & _ & Hsrc & _).
  split; [reflexivity |]. split; [exact Hname | exact Hsrc].
Defined.


(** ** Binary operations *)

Lemma ty_eqb_class t n : ty_eqb t (TClass n) = true <-> t = TClass n.
Proof.
  destruct t; simpl; try (split; discriminate).
  rewrite String.eqb_eq. split; [now intros -> | now intros [= ->]].
Qed.

(** X17: the type of a binary operation whose operands have been inferred
    is one of [str], [float], [int] and [Any], decided by the operator
    and by which operand types are [str] or [float] alone: [Any] exactly
    for an operator other than [+], [-], [*], [/]; [str] exactly for [+]
    with a [str] operand; otherwise [float] exactly when an operand is
    [float], and [int] in every other case, whatever the operand types
    are (unknown names, lists, records). *)
Theorem binary_operation_type W fn lookup l op r st path s tl s1 tr s2 :
  _infer_expr_type W fn lookup l st path s = Ok (tl, s1) ->
  _infer_expr_type W fn lookup r st path s1 = Ok (tr, s2) ->
  exists t,
    _infer_expr_type W fn lookup (BinOp l op r) st path s = Ok (t, s2) /\
    In t [py_str; py_float; py_int; TAny] /\
    (t = TAny <-> is_arith op = false) /\
    (t = py_str <-> op = Add /\ (tl = py_str \/ tr = py_str)) /\
    (is_arith op = true -> t <> py_str ->
     (t = py_float <-> tl = py_float \/ tr = py_float)).
Proof.
  intros Hl Hr. simpl. unfold bind. rewrite Hl, Hr.
  destruct (ty_eqb tl py_str) eqn:Els; destruct (ty_eqb tr py_str) eqn:Ers;
    destruct (ty_eqb tl py_float) eqn:Elf; destruct (ty_eqb tr py_float) eqn:Erf;
    try apply ty_eqb_class in Els; try apply ty_eqb_class in Ers;
    try apply ty_eqb_class in Elf; try apply ty_eqb_class in Erf;
    subst; try discriminate;
    destruct op; simpl; eexists; (split; [reflexivity |]);
    (split; [simpl; tauto |]);
    repeat split; try discriminate; try tauto; try congruence;
    try (intros [? [? | ?]]; subst; try discriminate;
         match goal with
         | H : ty_eqb ?t ?t = false |- _ => rewrite ty_eqb_refl in H; discriminate
         end);
    try (intros [? | ?]; subst; try discriminate;
         match goal with
         | H : ty_eqb ?t ?t = false |- _ => rewrite ty_eqb_refl in H; discriminate
         end);
    auto.
Qed.

(** [[1] + [2]] is typed [int]. *)
Lemma binary_operation_type_witness :
  exists t,
    _infer_expr_type Examples.W0 (Examples.def0 "f" []) (fun _ => ret TAny)
      (BinOp (List [Examples.int_ 1]) Add (List [Examples.int_ 2])) ∅ [] 0
      = Ok (t, 0) /\
    t = py_int.
Proof.
  destruct (binary_operation_type Examples.W0 (Examples.def0 "f" [])
              (fun _ => ret TAny) (List [Examples.int_ 1]) Add
              (List [Examples.int_ 2]) ∅ [] 0 (TList py_int) 0
              (TList py_int) 0 eq_refl eq_refl)
    as (t & Ht & _).
  exists t. split; [exact Ht |].
  cbv in Ht. now injection Ht as <-.
Defined.


(** X18: an arithmetic expression built from [int] and [float] literals
    with [+], [-], [*] and [/] has the type [float] when a [float] literal
    occurs in it and [int] otherwise, also under [/]: the division of two
    [int] literals is typed [int].  No class is created. *)
Theorem numeric_literals_promote W fn lookup e : forall st path s,
  numeric_expr e = true ->
  _infer_expr_type W fn lookup e st path s =
    Ok (if has_float_literal e then py_float else py_int, s).
Proof.
  induction e; intros st path s H; try discriminate H.
  - destruct value; try discriminate H; reflexivity.
  - simpl in H. apply andb_true_iff in H as [H Hr].
    apply andb_true_iff in H as [Hop Hl].
    cbn [_infer_expr_type]. unfold bind.
    rewrite (IHe1 st path s Hl), (IHe2 st path s Hr), Hop.
    cbn [has_float_literal].
    destruct (has_float_literal e1), (has_float_literal e2);
      destruct (is_add op); reflexivity.
Qed.

(** [1 / 2] is typed [int], [1 / 2.0] is typed [float]. *)
Lemma numeric_literals_promote_witness :
  _infer_expr_type Examples.W0 (Examples.def0 "f" []) (fun _ => ret TAny)
    (BinOp (Examples.int_ 1) Div (Examples.int_ 2)) ∅ [] 0 = Ok (py_int, 0) /\
  _infer_expr_type Examples.W0 (Examples.def0 "f" []) (fun _ => ret TAny)
    (BinOp (Examples.int_ 1) Div (Constant (CFloat "2.0"))) ∅ [] 0
    = Ok (py_float, 0).
Proof.
  split.
  - exact (numeric_literals_promote Examples.W0 (Examples.def0 "f" [])
             (fun _ => ret TAny)
             (BinOp (Examples.int_ 1) Div (Examples.int_ 2)) ∅ [] 0 eq_refl).
  - exact (numeric_literals_promote Examples.W0 (Examples.def0 "f" [])
             (fun _ => ret TAny)
             (BinOp (Examples.int_ 1) Div (Constant (CFloat "2.0"))) ∅ [] 0
             eq_refl).
Defined.

